(** * The request-to-batches pipeline of the NLLB translation worker

    A shallow embedding of [backend/proxy/nllb_server.py]: the markdown
    normalizer [strip_markdown], the segmenter [split_into_units], the batch
    planner and executor inside [translate], the streaming variant
    [translate_stream], the loading of the model ([validate_model_path],
    [load_model]) and the server loop [main], followed by the properties
    proved about them.

    Python values are embedded as follows.
    - [str] is a list of Unicode code points ([N]); [len] is [length].
    - [int] is [Z], with [//] as [Z.div] (both round towards minus infinity).
    - the model and tokenizer are one opaque engine, a function from the
      call made to either an exception ([None]) or the decoded texts.
    - a [float] passed to the model is the rational ([Q]) of its literal.
    - the [re] module is a small backtracking matcher over the constructs
      the patterns of the file use. *)

From Stdlib Require Import ZArith NArith List String Ascii Bool Lia.
From Stdlib Require Import DecimalString DecimalNat DecimalFacts QArith.
From stdpp Require Import base list.

(** ** Python strings *)

Module PyStr.
Local Open Scope N_scope.

Definition char := N.
Definition str := list char.

(** The code points of a literal. *)
Definition u (s : string) : str := map N_of_ascii (list_ascii_of_string s).

Definition LF : char := 10.
Definition CR : char := 13.

(** [str.isspace] on one code point; also what [\s] matches in [re]. *)
Definition is_space (c : char) : bool :=
  ((9 <=? c) && (c <=? 13)) || ((28 <=? c) && (c <=? 32))
  || (c =? 133) || (c =? 160) || (c =? 5760)
  || ((8192 <=? c) && (c <=? 8202))
  || (c =? 8232) || (c =? 8233) || (c =? 8239) || (c =? 8287) || (c =? 12288).

(** The line boundaries of [str.splitlines]. *)
Definition is_linebreak (c : char) : bool :=
  ((10 <=? c) && (c <=? 13)) || ((28 <=? c) && (c <=? 30))
  || (c =? 133) || (c =? 8232) || (c =? 8233).

Fixpoint lstrip (s : str) : str :=
  match s with
  | c :: s' => if is_space c then lstrip s' else s
  | [] => []
  end.

Definition rstrip (s : str) : str := rev (lstrip (rev s)).

(** [s.strip()] *)
Definition strip (s : str) : str := rstrip (lstrip s).

(** [s.split(sep)] for a one-character separator. *)
Fixpoint split (sep : char) (s : str) : list str :=
  match s with
  | [] => [[]]
  | c :: s' =>
      if c =? sep then [] :: split sep s'
      else match split sep s' with
           | l :: ls => (c :: l) :: ls
           | [] => [[c]]
           end
  end.

(** [sep.join(parts)] *)
Fixpoint join (sep : str) (parts : list str) : str :=
  match parts with
  | [] => []
  | [p] => p
  | p :: ps => p ++ sep ++ join sep ps
  end.

(** [s.splitlines()]: a carriage return followed by a line feed is one
    boundary, and a final boundary opens no further line. *)
Fixpoint splitlines (s : str) : list str :=
  match s with
  | [] => []
  | c :: s' =>
      if is_linebreak c then
        [] :: match s' with
              | d :: s'' => if (c =? CR) && (d =? LF) then splitlines s''
                            else splitlines s'
              | [] => []
              end
      else match splitlines s' with
           | l :: ls => (c :: l) :: ls
           | [] => [[c]]
           end
  end.

Fixpoint starts_with (p s : str) : bool :=
  match p, s with
  | [], _ => true
  | a :: p', b :: s' => (a =? b) && starts_with p' s'
  | _ :: _, [] => false
  end.

(** [s.replace(old, new)] for a non-empty [old]: occurrences are replaced
    from the left; [skip] counts the characters of the occurrence just
    replaced that remain to be passed over. *)
Fixpoint replace_from (old new : str) (skip : nat) (s : str) : str :=
  match s with
  | [] => []
  | c :: s' =>
      match skip with
      | S n => replace_from old new n s'
      | O => if starts_with old s
             then new ++ replace_from old new (length old - 1)%nat s'
             else c :: replace_from old new 0 s'
      end
  end.

Definition replace (old new : str) (s : str) : str := replace_from old new 0 s.

(** [str(n)] for a counter. *)
Definition decimal (n : nat) : str :=
  u (NilZero.string_of_uint (Nat.to_uint n)).

(** Truthiness of a string. *)
Definition nonempty (s : str) : bool :=
  match s with [] => false | _ :: _ => true end.

Definition contains (c : char) (s : str) : bool := existsb (N.eqb c) s.

End PyStr.

(** ** The fragment of [re] used by the server *)

Module Regex.
Import PyStr.

(** A set of characters: one item of a pattern that consumes one
    character. *)
Inductive cclass :=
| CAny                        (* [\s\S], and . under DOTALL *)
| CChar (c : char)            (* an escaped or plain character *)
| COneOf (cs : list char)     (* [...] *)
| CNoneOf (cs : list char)    (* [^...] *)
| CSpace.                     (* \s *)

Definition cc_match (k : cclass) (x : char) : bool :=
  match k with
  | CAny => true
  | CChar c => N.eqb x c
  | COneOf cs => existsb (N.eqb x) cs
  | CNoneOf cs => negb (existsb (N.eqb x) cs)
  | CSpace => is_space x
  end.

(** Patterns. Every quantifier of the server's patterns applies to a single
    character class, and every pattern has at most one capture group. *)
Inductive regex :=
| REps
| RLit (s : str)                                        (* literal text *)
| RRep (greedy : bool) (lo : nat) (hi : option nat) (k : cclass)
                                                        (* k{lo,hi}[?] *)
| RGroup (r : regex)                                    (* ( r ), group 1 *)
| RSeq (r1 r2 : regex)
| RBol                                                  (* ^ under MULTILINE *)
| REol                                                  (* $ under MULTILINE *)
| RAhead (positive : bool) (ks : list cclass)           (* (?=...) (?!...) *)
| RBehind (positive : bool) (ks : list cclass).         (* (?<=...) (?<!...) *)

Definition cat (rs : list regex) : regex := foldr RSeq REps rs.
Definition lit (s : string) : regex := RLit (u s).
Definition chars (s : string) : list cclass := map CChar (u s).

Definition star (k : cclass) := RRep true 0 None k.
Definition plus (k : cclass) := RRep true 1 None k.
Definition lazy_star (k : cclass) := RRep false 0 None k.
Definition lazy_plus (k : cclass) := RRep false 1 None k.

(** The matcher's position: the text before the cursor (nearest character
    first), the text after it, and what group 1 captured so far. *)
Record mstate := MState {
  before : str;
  after : str;
  group1 : option str
}.

(** Do the classes [ks] match the first characters of [s], one each? *)
Fixpoint look (ks : list cclass) (s : str) : bool :=
  match ks, s with
  | [], _ => true
  | k :: ks', x :: s' => cc_match k x && look ks' s'
  | _ :: _, [] => false
  end.

Definition may_take (hi : option nat) : bool :=
  match hi with Some O => false | _ => true end.

Definition took_one (hi : option nat) : option nat :=
  match hi with Some n => Some (pred n) | None => None end.

(** A quantified class with backtracking: a greedy quantifier first tries
    to take one more character and falls back to stopping, a lazy one
    first tries to stop. [cont] is the rest of the pattern. *)
Fixpoint rep (greedy : bool) (k : cclass) (lo : nat) (hi : option nat)
    (g : option str) (bef aft : str)
    (cont : mstate -> option mstate) {struct aft} : option mstate :=
  if greedy then
    match
      match aft with
      | x :: rest =>
          if cc_match k x && may_take hi
          then rep greedy k (pred lo) (took_one hi) g (x :: bef) rest cont
          else None
      | [] => None
      end
    with
    | Some r => Some r
    | None => match lo with O => cont (MState bef aft g) | S _ => None end
    end
  else
    match
      match lo with O => cont (MState bef aft g) | S _ => None end
    with
    | Some r => Some r
    | None =>
        match aft with
        | x :: rest =>
            if cc_match k x && may_take hi
            then rep greedy k (pred lo) (took_one hi) g (x :: bef) rest cont
            else None
        | [] => None
        end
    end.

(** Group 1 as captured between two positions of one scan. *)
Definition captured (st st' : mstate) : str :=
  take (length (after st) - length (after st')) (after st).

(** [rmatch r st cont]: match [r] at [st] and continue with [cont]; the
    first success in backtracking order is the answer. *)
Fixpoint rmatch (r : regex) (st : mstate)
    (cont : mstate -> option mstate) : option mstate :=
  match r with
  | REps => cont st
  | RLit s =>
      if starts_with s (after st)
      then cont (MState (rev s ++ before st) (drop (length s) (after st))
                        (group1 st))
      else None
  | RRep greedy lo hi k =>
      rep greedy k lo hi (group1 st) (before st) (after st) cont
  | RGroup r1 =>
      rmatch r1 st
        (fun st' => cont (MState (before st') (after st')
                                 (Some (captured st st'))))
  | RSeq r1 r2 => rmatch r1 st (fun st' => rmatch r2 st' cont)
  | RBol =>
      match before st with
      | [] => cont st
      | c :: _ => if N.eqb c LF then cont st else None
      end
  | REol =>
      match after st with
      | [] => cont st
      | c :: _ => if N.eqb c LF then cont st else None
      end
  | RAhead positive ks =>
      if eqb (look ks (after st)) positive then cont st else None
  | RBehind positive ks =>
      if eqb (look (rev ks) (before st)) positive then cont st else None
  end.

(** What a replacement sees of a match: [group(0)] and [group(1)]. *)
Record found := Found {
  group0 : str;
  group_1 : str
}.

(** The match starting exactly at the cursor, if any: its length and its
    groups. *)
Definition match_here (r : regex) (bef aft : str) : option (nat * found) :=
  match rmatch r (MState bef aft None) Some with
  | Some st' =>
      let n := length aft - length (after st') in
      Some (n, Found (take n aft) (default [] (group1 st')))
  | None => None
  end.

(** [re.sub(pattern, repl, text)] with a replacement function that may
    update a state (the closures of [strip_markdown] do): matches are
    searched from the left and do not overlap. [skip] counts the characters
    of the last match still to be passed over. None of the server's
    patterns matches the empty string; an empty match is replaced and the
    scan moves on by one character. *)
Fixpoint sub_scan {S : Type} (r : regex) (repl : S -> found -> S * str)
    (s : S) (bef aft : str) (skip : nat) {struct aft} : S * str :=
  match skip with
  | S n =>
      match aft with
      | x :: rest => sub_scan r repl s (x :: bef) rest n
      | [] => (s, [])
      end
  | O =>
      match match_here r bef aft with
      | Some (n, m) =>
          let '(s1, out) := repl s m in
          match aft with
          | x :: rest =>
              match n with
              | O => let '(s2, o) := sub_scan r repl s1 (x :: bef) rest 0 in
                     (s2, out ++ x :: o)
              | S n' => let '(s2, o) := sub_scan r repl s1 (x :: bef) rest n' in
                        (s2, out ++ o)
              end
          | [] => (s1, out)
          end
      | None =>
          match aft with
          | x :: rest =>
              let '(s1, o) := sub_scan r repl s (x :: bef) rest 0 in
              (s1, x :: o)
          | [] => (s, [])
          end
      end
  end.

Definition sub_with {S : Type} (r : regex) (repl : S -> found -> S * str)
    (s : S) (text : str) : S * str :=
  sub_scan r repl s [] text 0.

(** [re.sub(pattern, template, text)] with a template: a fixed text, or
    [\1]. *)
Inductive template := Const (s : str) | Group1.

Definition expand (t : template) (m : found) : str :=
  match t with Const s => s | Group1 => group_1 m end.

Definition sub (r : regex) (t : template) (text : str) : str :=
  snd (sub_with r (fun (_ : unit) m => (tt, expand t m)) tt text).

(** [re.split(pattern, text)] for a pattern without groups: the pieces
    between the matches. [cur] is the current piece, reversed. *)
Fixpoint split_scan (r : regex) (cur bef aft : str) (skip : nat)
    {struct aft} : list str :=
  match skip with
  | S n =>
      match aft with
      | x :: rest => split_scan r cur (x :: bef) rest n
      | [] => [rev cur]
      end
  | O =>
      match match_here r bef aft with
      | Some (S n', _) =>
          match aft with
          | x :: rest => rev cur :: split_scan r [] (x :: bef) rest n'
          | [] => [rev cur]
          end
      | _ =>
          match aft with
          | x :: rest => split_scan r (x :: cur) (x :: bef) rest 0
          | [] => [rev cur]
          end
      end
  end.

Definition re_split (r : regex) (text : str) : list str :=
  split_scan r [] [] text 0.

End Regex.

(** ** [strip_markdown] *)

Module Normalizer.
Import PyStr Regex.

(** The two variables the replacement closures of [strip_markdown] share:
    [placeholder_counter] and the dict [math_placeholders], kept in
    insertion order, which is the order [items()] yields. *)
Record math_state := MathState {
  placeholder_counter : nat;
  math_placeholders : list (str * str)
}.

Fixpoint str_eqb (a b : str) : bool :=
  match a, b with
  | [], [] => true
  | x :: a', y :: b' => N.eqb x y && str_eqb a' b'
  | _, _ => false
  end.

(** [d[key] = value] *)
Fixpoint dict_set (key value : str) (d : list (str * str)) : list (str * str) :=
  match d with
  | [] => [(key, value)]
  | (k, v) :: d' =>
      if str_eqb k key then (key, value) :: d'
      else (k, v) :: dict_set key value d'
  end.

(** The common body of the four closures: make the placeholder from the
    counter, advance the counter, record the formula, return the
    placeholder. *)
Definition remember (prefix : string) (formula : found -> str)
    (st : math_state) (m : found) : math_state * str :=
  let placeholder := u prefix ++ decimal (placeholder_counter st) ++ u "__" in
  (MathState (S (placeholder_counter st))
             (dict_set placeholder (formula m) (math_placeholders st)),
   placeholder).

Definition replace_display_math := remember "__LATEX_DISPLAY_" group0.
Definition replace_inline_math := remember "__LATEX_INLINE_" group0.
Definition replace_latex_display_math :=
  remember "__LATEX_DISPLAY_" (fun m => u "$$" ++ group_1 m ++ u "$$").
Definition replace_latex_inline_math :=
  remember "__LATEX_INLINE_" (fun m => u "$" ++ group_1 m ++ u "$").

Definition c (s : string) : char := hd 0%N (u s).

(** r'\$\$[\s\S]*?\$\$' *)
Definition re_display_math : regex :=
  cat [lit "$$"; lazy_star CAny; lit "$$"].

(** r'\\\[([\s\S]*?)\\\]' *)
Definition re_latex_display_math : regex :=
  cat [lit "\["; RGroup (lazy_star CAny); lit "\]"].

(** r'(?<!\$)\$(?!\$)([^$\n]+?)\$(?!\$)' *)
Definition re_inline_math : regex :=
  cat [RBehind false (chars "$"); lit "$"; RAhead false (chars "$");
       RGroup (lazy_plus (CNoneOf [c "$"; LF]));
       lit "$"; RAhead false (chars "$")].

(** r'\\\(([^)]+?)\\\)' *)
Definition re_latex_inline_math : regex :=
  cat [lit "\("; RGroup (lazy_plus (CNoneOf [c ")"])); lit "\)"].

(** r'^#{1,6}\s+', MULTILINE *)
Definition re_header : regex :=
  cat [RBol; RRep true 1 (Some 6) (CChar (c "#")); plus CSpace].

(** r'\*\*([^*]+)\*\*' *)
Definition re_bold : regex :=
  cat [lit "**"; RGroup (plus (CNoneOf [c "*"])); lit "**"].

(** r'\*([^*]+)\*' *)
Definition re_italic : regex :=
  cat [lit "*"; RGroup (plus (CNoneOf [c "*"])); lit "*"].

(** r'__([^_]+)__' *)
Definition re_bold_underscore : regex :=
  cat [lit "__"; RGroup (plus (CNoneOf [c "_"])); lit "__"].

(** r'(?<!__LATEX_)_([^_\n]+?)_(?!__)' *)
Definition re_italic_underscore : regex :=
  cat [RBehind false (chars "__LATEX_"); lit "_";
       RGroup (lazy_plus (CNoneOf [c "_"; LF]));
       lit "_"; RAhead false (chars "__")].

(** r'^---+\s*$', MULTILINE *)
Definition re_rule_dash : regex :=
  cat [RBol; lit "--"; plus (CChar (c "-")); star CSpace; REol].

(** r'^===+\s*$', MULTILINE *)
Definition re_rule_equals : regex :=
  cat [RBol; lit "=="; plus (CChar (c "=")); star CSpace; REol].

(** r'```[^\n]*\n(.*?)```', DOTALL *)
Definition re_code_block : regex :=
  cat [lit "```"; star (CNoneOf [LF]); RLit [LF];
       RGroup (lazy_star CAny); lit "```"].

(** r'`([^`]+)`' *)
Definition re_code_span : regex :=
  cat [lit "`"; RGroup (plus (CNoneOf [c "`"])); lit "`"].

(** r'\[([^\]]+)\]\([^\)]+\)' *)
Definition re_link : regex :=
  cat [lit "["; RGroup (plus (CNoneOf [c "]"])); lit "](";
       plus (CNoneOf [c ")"]); lit ")"].

(** r'\n{3,}' *)
Definition re_blank_lines : regex := RRep true 3 None (CChar LF).

(** Step 1: move every formula into a placeholder. *)
Definition extract_math (text : str) : math_state * str :=
  let st := MathState 0 [] in
  let '(st, text) := sub_with re_display_math replace_display_math st text in
  let '(st, text) :=
    sub_with re_latex_display_math replace_latex_display_math st text in
  let '(st, text) := sub_with re_inline_math replace_inline_math st text in
  sub_with re_latex_inline_math replace_latex_inline_math st text.

(** Step 2: remove the markdown formatting. *)
Definition remove_markdown (text : str) : str :=
  let text := sub re_header (Const []) text in
  let text := sub re_bold Group1 text in
  let text := sub re_italic Group1 text in
  let text := sub re_bold_underscore Group1 text in
  let text := sub re_italic_underscore Group1 text in
  let text := sub re_rule_dash (Const []) text in
  let text := sub re_rule_equals (Const []) text in
  let text := sub re_code_block Group1 text in
  let text := sub re_code_span Group1 text in
  sub re_link Group1 text.

(** Collapse runs of newlines, then strip every line. *)
Definition strip_lines (text : str) : str :=
  join [LF] (map strip (split LF text)).

Definition clean_whitespace (text : str) : str :=
  strip_lines (sub re_blank_lines (Const [LF; LF]) text).

(** Step 3: [for placeholder, math_formula in math_placeholders.items()]. *)
Definition restore_math (placeholders : list (str * str)) (text : str) : str :=
  fold_left (fun text '(placeholder, math_formula) =>
               replace placeholder math_formula text)
            placeholders text.

Definition strip_markdown (text : str) : str :=
  let '(st, text) := extract_math text in
  let text := remove_markdown text in
  let text := clean_whitespace text in
  let text := restore_math (math_placeholders st) text in
  strip text.

End Normalizer.

(** ** [split_into_units] *)

Module Segmenter.
Import PyStr Regex.

(** r'(?<=[.!?])\s+' *)
Definition re_sentence_end : regex :=
  cat [RBehind true [COneOf (u ".!?")]; plus CSpace].

(** [[p.strip() for p in parts]] with the empty results dropped. *)
Definition stripped_nonempty (parts : list str) : list str :=
  List.filter nonempty (map strip parts).

Definition line_units (text : str) : list str :=
  stripped_nonempty (splitlines text).

Definition sentence_units (text : str) : list str :=
  stripped_nonempty (re_split re_sentence_end text).

Definition split_into_units (text : str) : list str :=
  match (if contains LF text then line_units text else []) with
  | (_ :: _) as units => units
  | [] =>
      match sentence_units text with
      | (_ :: _) as cleaned => cleaned
      | [] => [text]
      end
  end.

End Segmenter.

(** ** Batch planning and execution: [translate], [translate_stream] *)

Module Executor.
Import PyStr Normalizer Segmenter.

Inductive device := Cpu | Cuda | Mps.

Definition is_cpu (d : device) : bool :=
  match d with Cpu => true | _ => false end.

(** The batch size chosen when the caller gives none. *)
Definition default_batch_size (dev : device) (cpu_count : Z) : Z :=
  if is_cpu dev then Z.min 10 (Z.max 6 (cpu_count / 2)) else 12%Z.

Definition effective_batch_size (batch_size : option Z) (dev : device)
    (cpu_count : Z) : Z :=
  match batch_size with
  | None => default_batch_size dev cpu_count
  | Some b => b
  end.

(** Short=256, Medium=512, Long=1024. *)
Definition adaptive_max_length (estimated_tokens : nat) : nat :=
  if estimated_tokens <? 50 then 256
  else if estimated_tokens <? 200 then 512
  else 1024.

(** [max(len(text) for text in batch)]; [None] is the [ValueError] of an
    empty batch. *)
Definition max_batch_length (batch : list str) : option nat :=
  match batch with
  | [] => None
  | _ :: _ => Some (foldr Nat.max 0 (map length batch))
  end.

(** What a call passes on that depends on the device: where the inputs
    are moved, and the decoding arguments of [model.generate]; [None] is an
    argument that is not passed. *)
Record decoding := Decoding {
  inputs_on : device;
  num_beams : nat;
  repetition_penalty : option Q;
  length_penalty : option Q
}.

(** The batch calls of [process_batch] and of [translate_stream]. *)
Definition batch_decoding (dev : device) : decoding :=
  Decoding dev (if is_cpu dev then 1 else 2)
    (Some (if is_cpu dev then 1.05 else 1.1)%Q)
    (Some (if is_cpu dev then 0.7 else 0.8)%Q).

(** The single-sentence calls: the beams only. *)
Definition retry_decoding (dev : device) : decoding :=
  Decoding dev (if is_cpu dev then 1 else 2) None None.

(** One use of the tokenizer and the model: encode with [max_length],
    move the inputs to the device, generate with the same [max_length] and
    the decoding arguments, decode. A batch is encoded with padding, a
    single sentence without; the other arguments are the same constants
    in every call of a kind. The languages, fixed for a request, are part
    of the engine. *)
Inductive engine_call :=
| TranslateBatch (batch : list str) (max_length : nat) (args : decoding)
| TranslateOne (sentence : str) (max_length : nat) (args : decoding).

(** [None] is an exception raised by the tokenizer or the model. *)
Definition engine := engine_call -> option (list str).

(** What a request runs against: the engine, and for each batch number
    and each execution of [process_batch] on it (0: the submitted or inline
    call, 1: the fallback re-processing) whether that execution raises out
    of [process_batch], which itself catches what the engine raises. *)
Record world := World {
  run : engine;
  crashes : nat -> nat -> bool
}.

(** The loop over [enumerate(translations)] of the batch path; [false]
    reports the [IndexError] of [batch[i]], with what was appended so far. *)
Fixpoint keep_translations (batch : list str) (i : nat)
    (translations : list str) (batch_translations : list str)
    : bool * list str :=
  match translations with
  | [] => (true, batch_translations)
  | translation :: rest =>
      if nonempty (strip translation)
      then keep_translations batch (S i) rest
             (batch_translations ++ [strip translation])
      else match batch !! i with
           | Some original =>
               keep_translations batch (S i) rest
                 (batch_translations ++ [original])
           | None => (false, batch_translations)
           end
  end.

Definition retry_call (dev : device) (sentence : str) : engine_call :=
  TranslateOne sentence (adaptive_max_length (length sentence / 4))
    (retry_decoding dev).

(** The single-sentence fallback of one sentence. *)
Definition retry_sentence (e : engine) (dev : device) (sentence : str)
    : str :=
  match e (retry_call dev sentence) with
  | Some (first :: _) => strip first
  | Some [] => sentence
  | None => sentence
  end.

(** [process_batch(batch, batch_idx)], with the engine calls it made. *)
Definition process_batch (e : engine) (dev : device) (batch : list str)
    (batch_idx : nat) : list engine_call * (nat * list str) :=
  let individually (made : list engine_call) (batch_translations : list str) :=
    (made ++ map (retry_call dev) batch,
     (batch_idx, batch_translations ++ map (retry_sentence e dev) batch)) in
  match max_batch_length batch with
  | None => individually [] []
  | Some max_batch_length =>
      let call :=
        TranslateBatch batch (adaptive_max_length (max_batch_length / 4))
          (batch_decoding dev) in
      match e call with
      | None => individually [call] []
      | Some translations =>
          match keep_translations batch 0 translations [] with
          | (true, batch_translations) =>
              ([call], (batch_idx, batch_translations))
          | (false, batch_translations) =>
              individually [call] batch_translations
          end
      end
  end.

(** [units[start:stop]] for [0 <= start]. *)
Definition slice (units : list str) (start stop : nat) : list str :=
  take (stop - start) (drop start units).

(** [range(0, n, batch_size)]: empty for a negative step; a zero step
    raises before the range is used. *)
Definition batch_starts (n : nat) (batch_size : Z) : list nat :=
  match batch_size with
  | Zpos p =>
      let b := Pos.to_nat p in
      map (fun k => k * b) (seq 0 ((n + b - 1) / b))
  | _ => []
  end.

Definition total_batches (n : nat) (batch_size : Z) : Z :=
  ((Z.of_nat n + batch_size - 1) / batch_size)%Z.

(** The units [translate] and [translate_stream] work on. *)
Definition valid_units (units : list str) : list str :=
  stripped_nonempty units.

Inductive response :=
| Success (translated : str)
| Failure (error : string).

Inductive outcome :=
| Returned (r : response)
| Raised (exception : string).

(** The sequential loop; [None] when an execution of [process_batch]
    raises, which ends [translate]. *)
Fixpoint run_sequential (w : world) (dev : device) (units : list str)
    (b : nat) (starts : list nat) (translated_sentences : list str)
    : option (list str) :=
  match starts with
  | [] => Some translated_sentences
  | batch_idx :: rest =>
      let batch := slice units batch_idx (batch_idx + b) in
      let batch_num := batch_idx / b + 1 in
      if crashes w (batch_num - 1) 0 then None
      else
        let '(_, batch_translations) :=
          snd (process_batch (run w) dev batch (batch_num - 1)) in
        run_sequential w dev units b rest
          (translated_sentences ++ batch_translations)
  end.

(** [future_to_batch]: the submitted batches, with their numbers. *)
Definition submit (units : list str) (b : nat) (starts : list nat)
    : list (nat * list str) :=
  map (fun batch_idx => (batch_idx / b, slice units batch_idx (batch_idx + b)))
      starts.

(** The loop over [as_completed]: [order] lists the positions of the
    futures in the order they complete. *)
Fixpoint collect (w : world) (dev : device) (units : list str) (b : nat)
    (futures : list (nat * list str)) (order : list nat)
    (batch_results : list (option (list str))) : list (option (list str)) :=
  match order with
  | [] => batch_results
  | pos :: rest =>
      match futures !! pos with
      | None => collect w dev units b futures rest batch_results
      | Some (batch_num, batch) =>
          collect w dev units b futures rest
            (if crashes w batch_num 0 then
               if crashes w batch_num 1 then batch_results
               else
                 let batch_start := batch_num * b in
                 let batch := slice units batch_start (batch_start + b) in
                 let '(_, translations) :=
                   snd (process_batch (run w) dev batch batch_num) in
                 if batch_num <? length batch_results
                 then <[batch_num := Some translations]> batch_results
                 else batch_results
             else
               let '(idx, translations) :=
                 snd (process_batch (run w) dev batch batch_num) in
               if idx <? length batch_results
               then <[idx := Some translations]> batch_results
               else batch_results)
      end
  end.

(** [for batch_result in batch_results: if batch_result: extend]. *)
Fixpoint combine_results (batch_results : list (option (list str)))
    : list str :=
  match batch_results with
  | [] => []
  | Some ((_ :: _) as batch_result) :: rest =>
      batch_result ++ combine_results rest
  | _ :: rest => combine_results rest
  end.

Definition run_parallel (w : world) (dev : device) (units : list str)
    (b : nat) (starts : list nat) (total : Z) (order : list nat) : list str :=
  combine_results
    (collect w dev units b (submit units b starts) order
             (replicate (Z.to_nat total) None)).

Definition use_parallel_batches (dev : device) (cpu_count total : Z) : bool :=
  is_cpu dev && (1 <? total)%Z && (4 <=? cpu_count)%Z.

(** The batches of [translate], after the units are known: the list
    [translated_sentences] at the end of either loop. *)
Definition run_batches (w : world) (dev : device) (cpu_count : Z)
    (order : list nat) (units : list str) (batch_size : Z)
    : option (list str) :=
  let total := total_batches (length units) batch_size in
  let b := Z.to_nat batch_size in
  let starts := batch_starts (length units) batch_size in
  if use_parallel_batches dev cpu_count total
  then Some (run_parallel w dev units b starts total order)
  else run_sequential w dev units b starts [].

Definition SPACE : str := [32%N].

Definition translate (w : world) (dev : device) (cpu_count : Z)
    (order : list nat) (text : str) (batch_size : option Z) : outcome :=
  let batch_size := effective_batch_size batch_size dev cpu_count in
  let clean_text := strip_markdown text in
  match split_into_units clean_text with
  | [] => Returned (Failure "No sentences found in input text")
  | (_ :: _) as units =>
      match valid_units units with
      | [] => Returned (Failure "No valid sentences found in input text")
      | (_ :: _) as units =>
          if (batch_size =? 0)%Z then Raised "ZeroDivisionError"
          else
            match run_batches w dev cpu_count order units batch_size with
            | None => Raised "Exception"
            | Some [] => Returned (Failure "All translation sentences failed")
            | Some ((_ :: _) as translated_sentences) =>
                Returned (Success (join SPACE translated_sentences))
            end
      end
  end.

(** What [translate_stream] writes to standard output, one JSON object per
    line. *)
Inductive event :=
| Chunk (index total : nat) (translated : str)
| Complete (total : nat) (translated : str)
| StreamError (error : string).

(** The variables the loops of [translate_stream] update, the lines
    written so far, and the engine calls made so far. *)
Record stream_state := StreamState {
  translated_sentences : list str;
  stdout : list event;
  engine_log : list engine_call
}.

(** Append one translation and write its chunk. *)
Definition emit_chunk (idx total : nat) (translated : str)
    (st : stream_state) : stream_state :=
  StreamState (translated_sentences st ++ [translated])
              (stdout st ++ [Chunk idx total translated])
              (engine_log st).

Definition log_call (call : engine_call) (st : stream_state) : stream_state :=
  StreamState (translated_sentences st) (stdout st) (engine_log st ++ [call]).

(** The loop over [enumerate(translations)] of the streaming batch path;
    [false] reports the [IndexError] of [batch[i]]. *)
Fixpoint stream_translations (batch : list str) (batch_idx total : nat)
    (i : nat) (translations : list str) (st : stream_state)
    : bool * stream_state :=
  match translations with
  | [] => (true, st)
  | translation :: rest =>
      let idx := batch_idx + i in
      if nonempty (strip translation)
      then stream_translations batch batch_idx total (S i) rest
             (emit_chunk idx total (strip translation) st)
      else match batch !! i with
           | Some original =>
               stream_translations batch batch_idx total (S i) rest
                 (emit_chunk idx total original st)
           | None => (false, st)
           end
  end.

(** The loop over [enumerate(batch)] of the streaming fallback. *)
Fixpoint stream_individually (e : engine) (dev : device)
    (batch_idx total : nat) (i : nat) (sentences : list str)
    (st : stream_state) : stream_state :=
  match sentences with
  | [] => st
  | sentence :: rest =>
      let idx := batch_idx + i in
      let translated := retry_sentence e dev sentence in
      stream_individually e dev batch_idx total (S i) rest
        (emit_chunk idx total translated
           (log_call (retry_call dev sentence) st))
  end.

(** The body of the loop over the batches of [translate_stream]. *)
Definition stream_batch (e : engine) (dev : device) (units : list str)
    (b total : nat) (batch_idx : nat) (st : stream_state) : stream_state :=
  let batch := slice units batch_idx (batch_idx + b) in
  match max_batch_length batch with
  | None => stream_individually e dev batch_idx total 0 batch st
  | Some max_batch_length =>
      let call :=
        TranslateBatch batch (adaptive_max_length (max_batch_length / 4))
          (batch_decoding dev) in
      let st := log_call call st in
      match e call with
      | None => stream_individually e dev batch_idx total 0 batch st
      | Some translations =>
          match stream_translations batch batch_idx total 0 translations st with
          | (true, st) => st
          | (false, st) => stream_individually e dev batch_idx total 0 batch st
          end
      end
  end.

(** [translate_stream]: the lines written, and the exception that ended
    the call, if any. *)
Definition translate_stream (e : engine) (dev : device) (cpu_count : Z)
    (text : str) (batch_size : option Z) : list event * option string :=
  let batch_size := effective_batch_size batch_size dev cpu_count in
  let clean_text := strip_markdown text in
  let units := valid_units (split_into_units clean_text) in
  match units with
  | [] => ([StreamError "No sentences found in input text"], None)
  | _ :: _ =>
      let total := length units in
      if (batch_size =? 0)%Z then ([], Some "ValueError"%string)
      else
        let st :=
          fold_left
            (fun st batch_idx =>
               stream_batch e dev units (Z.to_nat batch_size) total batch_idx
                 st)
            (batch_starts (length units) batch_size)
            (StreamState [] [] []) in
        match translated_sentences st with
        | [] =>
            (stdout st ++ [StreamError "All translation sentences failed"],
             None)
        | (_ :: _) as sentences =>
            (stdout st ++ [Complete total (join SPACE sentences)], None)
        end
  end.

(** *** Engines used in the examples *)

(** An engine that answers every call, marking what it translated. *)
Definition marking_engine : engine := fun call =>
  match call with
  | TranslateBatch batch _ _ => Some (map (fun s => u "T:" ++ s) batch)
  | TranslateOne sentence _ _ => Some [u "T:" ++ sentence]
  end.

(** An engine that raises on every call. *)
Definition dead_engine : engine := fun _ => None.

(** An engine that raises on a batch and decodes a single sentence to a
    blank. *)
Definition blank_retry_engine : engine := fun call =>
  match call with
  | TranslateBatch _ _ _ => None
  | TranslateOne _ _ _ => Some [u " "]
  end.

(** An engine that decodes every unit of a batch to a blank. *)
Definition blank_batch_engine : engine := fun call =>
  match call with
  | TranslateBatch batch _ _ => Some (map (fun _ => u " ") batch)
  | TranslateOne _ _ _ => None
  end.

Definition never : nat -> nat -> bool := fun _ _ => false.

(** Both executions of [process_batch] on batch [n] raise. *)
Definition twice_on (n : nat) : nat -> nat -> bool :=
  fun batch_num _ => batch_num =? n.

End Executor.

(** ** Notions the properties are stated with *)

Module Notions.
Import PyStr Regex Normalizer Segmenter Executor.

(** The three decode tiers, by the estimate [chars // 4]. *)
Definition in_tier (chars max_length : nat) : Prop :=
  let estimated_tokens := chars / 4 in
  (estimated_tokens < 50 /\ max_length = 256)
  \/ (50 <= estimated_tokens < 200 /\ max_length = 512)
  \/ (200 <= estimated_tokens /\ max_length = 1024).

(** The engine answers a batch with one text per unit. *)
Definition one_per_unit (e : engine) : Prop :=
  forall batch max_length args translations,
    e (TranslateBatch batch max_length args) = Some translations ->
    length translations = length batch.

(** No execution of [process_batch] raises. *)
Definition no_crash (w : world) : Prop :=
  forall batch_num attempt, crashes w batch_num attempt = false.

(** The units of a request. *)
Definition request_units (text : str) : list str :=
  valid_units (split_into_units (strip_markdown text)).

(** Batch number [k] of a request, and what processing it returns. *)
Definition batch_of (units : list str) (b k : nat) : list str :=
  slice units (k * b) (k * b + b).

Definition translations_of (w : world) (dev : device) (units : list str)
    (b k : nat) : list str :=
  snd (snd (process_batch (run w) dev (batch_of units b k) k)).

(** The slot of batch [k] once its future has completed: unfilled when
    the submitted call and the fallback both raised. *)
Definition slot_of (w : world) (dev : device) (units : list str)
    (b k : nat) : option (list str) :=
  if crashes w k 0 && crashes w k 1 then None
  else Some (translations_of w dev units b k).

(** What one completed future does to the slots. *)
Definition settle (w : world) (dev : device) (units : list str) (b : nat)
    (slots : list (option (list str))) (k : nat)
    : list (option (list str)) :=
  if crashes w k 0 && crashes w k 1 then slots
  else <[k := Some (translations_of w dev units b k)]> slots.

(** The number of batches, as the length of the range of batch starts. *)
Definition batch_count (units : list str) (batch_size : Z) : nat :=
  length (batch_starts (length units) batch_size).

(** The texts [process_batch] returns for the batches
    [units[k * batch_size : k * batch_size + batch_size]], one batch after
    the other. *)
Definition batch_texts (w : world) (dev : device) (units : list str)
    (batch_size : Z) : list str :=
  concat (map (translations_of w dev units (Z.to_nat batch_size))
              (seq 0 (batch_count units batch_size))).

(** A request of five one-line units. *)
Definition five_lines : str := join [LF] [u "a"; u "b"; u "c"; u "d"; u "e"].

(** A request of seven one-line units. *)
Definition seven_lines : str :=
  join [LF] [u "a"; u "b"; u "c"; u "d"; u "e"; u "f"; u "g"].

Definition all_failed : string := "All translation sentences failed".

(** The engine gives no translation for a unit, in a batch or alone. *)
Definition fell_back (e : engine) (unit : str) : Prop :=
  (forall batch max_length args,
     unit ∈ batch -> e (TranslateBatch batch max_length args) = None)
  /\ forall max_length args, e (TranslateOne unit max_length args) = None.

(** The stream of a request with [total] units as the protocol describes
    it: one chunk per index, in order, then the completion. *)
Definition in_order_stream (total : nat) (events : list event) : Prop :=
  exists translations,
    length translations = total
    /\ events = imap (fun i t => Chunk i total t) translations
                ++ [Complete total (join SPACE translations)].

(** What the text consumed by a match of a pattern looks like, whatever
    the context of the match. *)
Fixpoint shape (r : regex) (mid : str) : Prop :=
  match r with
  | REps | RBol | REol | RAhead _ _ | RBehind _ _ => mid = []
  | RLit s => mid = s
  | RRep _ lo _ k =>
      Forall (fun x => cc_match k x = true) mid /\ lo <= length mid
  | RGroup r1 => shape r1 mid
  | RSeq r1 r2 => exists m1 m2, mid = m1 ++ m2 /\ shape r1 m1 /\ shape r2 m2
  end.

(** A character that every match of the pattern contains. *)
Fixpoint requires (r : regex) (x : char) : bool :=
  match r with
  | RLit s => existsb (N.eqb x) s
  | RRep _ lo _ (CChar y) => (0 <? lo) && N.eqb x y
  | RGroup r1 => requires r1 x
  | RSeq r1 r2 => requires r1 x || requires r2 x
  | _ => false
  end.

(** Does the text have three line feeds in a row? *)
Fixpoint has_3_newlines (s : str) : bool :=
  match s with
  | [] => false
  | _ :: s' => starts_with [LF; LF; LF] s || has_3_newlines s'
  end.

(** A stripped line: no white space at either end, no line feed. *)
Definition clean (line : str) : Prop :=
  lstrip line = line /\ lstrip (rev line) = rev line /\ LF ∉ line.

(** The characters that start math or markdown syntax. *)
Definition markup : str := u "$\#*_-=`[".

Definition plain (s : str) : bool :=
  forallb (fun x => negb (existsb (N.eqb x) markup)) s.

End Notions.

(** ** Loading the model: [validate_model_path], [load_model] *)

Module Loader.
Import PyStr Executor.

Definition REQUIRED_FILES : list string :=
  ["config.json"; "tokenizer.json"; "sentencepiece.bpe.model"]%string.

Definition WEIGHT_FILES : list string :=
  ["pytorch_model.bin"; "model.safetensors"]%string.

(** What the file system answers. *)
Record disk := Disk {
  model_path_exists : bool;       (* NLLB_MODEL_PATH.exists() *)
  file_exists : string -> bool    (* (NLLB_MODEL_PATH / fname).exists() *)
}.

(** [validate_model_path()] returns [NLLB_MODEL_PATH] or raises
    [FileNotFoundError], with one of two messages. *)
Inductive validation :=
| ModelPath
| PathDoesNotExist
| MissingRequiredFiles (missing : list string).

Definition validate_model_path (d : disk) : validation :=
  if negb (model_path_exists d) then PathDoesNotExist
  else
    let missing :=
      List.filter (fun fname => negb (file_exists d fname)) REQUIRED_FILES in
    let missing :=
      if existsb (file_exists d) WEIGHT_FILES then missing
      else missing ++ ["pytorch_model.bin or model.safetensors"%string] in
    match missing with
    | [] => ModelPath
    | _ :: _ => MissingRequiredFiles missing
    end.

Inductive tokenizer_class :=
| NllbTokenizer
| AutoTokenizerFast
| AutoTokenizerSlow.

Record tokenizer := Tokenizer {
  loaded_by : tokenizer_class;
  src_lang : option string
}.

Record model := Model {
  on_device : device;
  quantized : bool;     (* INT8, through [quantize_dynamic] *)
  compiled : bool       (* through [torch.compile] *)
}.

(** What the libraries do when called: a tokenizer loader raises ([None])
    or returns a tokenizer with the [src_lang] it has; the other calls
    raise or return. *)
Record libraries := Libraries {
  nllb_tokenizer : option (option string);
  auto_tokenizer_fast : option (option string);
  auto_tokenizer_slow : option (option string);
  auto_model : bool;              (* AutoModelForSeq2SeqLM.from_pretrained *)
  cuda_available : bool;
  mps_available : bool;
  moves_to : device -> bool;      (* model.to(device), model.eval() *)
  quantizes : bool;               (* the quantization block *)
  has_compile : bool;             (* hasattr(torch, "compile") *)
  compiles : bool                 (* torch.compile(model, ...) *)
}.

(** The library calls [load_model] makes, in order. *)
Inductive load_step :=
| CheckFiles
| LoadTokenizer (cls : tokenizer_class)
| LoadModel
| MoveTo (dev : device)
| Quantize
| Compile.

Definition loaded : Type := tokenizer * model * device.

(** The three loaders, each tried when the one before raised. *)
Definition load_tokenizer (lib : libraries)
    : option tokenizer * list load_step :=
  match nllb_tokenizer lib with
  | Some lang =>
      (Some (Tokenizer NllbTokenizer lang), [LoadTokenizer NllbTokenizer])
  | None =>
      match auto_tokenizer_fast lib with
      | Some lang =>
          (Some (Tokenizer AutoTokenizerFast lang),
           [LoadTokenizer NllbTokenizer; LoadTokenizer AutoTokenizerFast])
      | None =>
          match auto_tokenizer_slow lib with
          | Some lang =>
              (Some (Tokenizer AutoTokenizerSlow lang),
               [LoadTokenizer NllbTokenizer; LoadTokenizer AutoTokenizerFast;
                LoadTokenizer AutoTokenizerSlow])
          | None =>
              (None,
               [LoadTokenizer NllbTokenizer; LoadTokenizer AutoTokenizerFast;
                LoadTokenizer AutoTokenizerSlow])
          end
      end
  end.

(** [if ... tokenizer.src_lang is None: tokenizer.src_lang = "eng_Latn"] *)
Definition ensure_src_lang (t : tokenizer) : tokenizer :=
  match src_lang t with
  | Some _ => t
  | None => Tokenizer (loaded_by t) (Some "eng_Latn"%string)
  end.

Definition select_device (lib : libraries) : device :=
  if cuda_available lib then Cuda
  else if mps_available lib then Mps
  else Cpu.

(** The CPU branch: a failure of the quantization leaves the model as it
    is. *)
Definition quantize_on_cpu (lib : libraries) (m : model)
    : model * list load_step :=
  match on_device m with
  | Cpu =>
      (if quantizes lib then Model (on_device m) true (compiled m) else m,
       [Quantize])
  | _ => (m, [])
  end.

Definition compile_on_cuda (lib : libraries) (m : model)
    : model * list load_step :=
  match on_device m with
  | Cuda =>
      if has_compile lib then
        (if compiles lib then Model (on_device m) (quantized m) true else m,
         [Compile])
      else (m, [])
  | _ => (m, [])
  end.

(** [load_model()] with the global [_model_cache] passed in and out:
    what it returns ([None] when it raises), the cache afterwards, and the
    library calls made. *)
Definition load_model (lib : libraries) (d : disk)
    (_model_cache : option loaded)
    : option loaded * option loaded * list load_step :=
  match _model_cache with
  | Some cached => (Some cached, _model_cache, [])
  | None =>
      match validate_model_path d with
      | ModelPath =>
          match load_tokenizer lib with
          | (Some t, steps) =>
              let t := ensure_src_lang t in
              if auto_model lib then
                let dev := select_device lib in
                if moves_to lib dev then
                  let m := Model dev false false in
                  let '(m, quantize) := quantize_on_cpu lib m in
                  let '(m, compile) := compile_on_cuda lib m in
                  (Some (t, m, dev), Some (t, m, dev),
                   CheckFiles :: steps ++ [LoadModel; MoveTo dev]
                   ++ quantize ++ compile)
                else
                  (None, None,
                   CheckFiles :: steps ++ [LoadModel; MoveTo dev])
              else (None, None, CheckFiles :: steps ++ [LoadModel])
          | (None, steps) => (None, None, CheckFiles :: steps)
          end
      | _ => (None, None, [CheckFiles])
      end
  end.

End Loader.

(** ** The server loop: [main] *)

Module Server.
Import PyStr Normalizer Segmenter Executor Loader.

(** What [json.loads] returns. [F] is the type of the floats. *)
#[local] Unset Elimination Schemes.
Inductive json (F : Type) :=
| JNull
| JBool (b : bool)
| JInt (n : Z)
| JFloat (x : F)
| JStr (s : str)
| JList (items : list (json F))
| JDict (items : list (str * json F)).

#[local] Set Elimination Schemes.

Arguments JNull {F}.
Arguments JBool {F} b.
Arguments JInt {F} n.
Arguments JFloat {F} x.
Arguments JStr {F} s.
Arguments JList {F} items.
Arguments JDict {F} items.

Inductive parsed (F : Type) :=
| Parsed (value : json F)
| JSONDecodeError (msg : str)
| LoadsRaised (exception : string).

Arguments Parsed {F} value.
Arguments JSONDecodeError {F} msg.
Arguments LoadsRaised {F} exception.

(** The builtins the loop applies to what it reads, where they are not
    spelled out below. *)
Record python (F : Type) := Python {
  loads : str -> parsed F;          (* json.loads(line) *)
  repr : json F -> str;             (* str(v) for a v that is not a str *)
  float_truth : F -> bool;          (* bool(x) *)
  int_of_float : F -> Z + string;   (* int(x), or the exception raised *)
  int_of_str : str -> option Z      (* int(s); None is ValueError *)
}.

Arguments loads {F} p line.
Arguments repr {F} p v.
Arguments float_truth {F} p x.
Arguments int_of_float {F} p x.
Arguments int_of_str {F} p s.

Section Values.
Context {F : Type} (py : python F).

(** [bool(v)] *)
Definition truthy (v : json F) : bool :=
  match v with
  | JNull => false
  | JBool b => b
  | JInt n => negb (n =? 0)%Z
  | JFloat x => float_truth py x
  | JStr s => nonempty s
  | JList [] => false
  | JList (_ :: _) => true
  | JDict [] => false
  | JDict (_ :: _) => true
  end.

(** [v or w] *)
Definition py_or (v w : json F) : json F := if truthy v then v else w.

(** [str(v)] *)
Definition py_str (v : json F) : str :=
  match v with
  | JStr s => s
  | _ => repr py v
  end.

(** [int(v)], or the exception raised *)
Definition py_int (v : json F) : Z + string :=
  match v with
  | JBool b => inl (if b then 1 else 0)%Z
  | JInt n => inl n
  | JFloat x => int_of_float py x
  | JStr s =>
      match int_of_str py s with
      | Some n => inl n
      | None => inr "ValueError"%string
      end
  | JNull | JList _ | JDict _ => inr "TypeError"%string
  end.

(** [req.get(key)] on a dict: [None] for a missing key. *)
Fixpoint dict_get (key : str) (req : list (str * json F)) : json F :=
  match req with
  | [] => JNull
  | (k, v) :: req' => if str_eqb k key then v else dict_get key req'
  end.

(** The fields of a request as the loop reads them. *)
Definition request_text (req : list (str * json F)) : str :=
  strip (py_str (py_or (dict_get (u "text") req) (JStr []))).

Definition request_src_lang (req : list (str * json F)) : str :=
  py_str (py_or (dict_get (u "src_lang") req) (JStr (u "eng_Latn"))).

Definition request_tgt_lang (req : list (str * json F)) : str :=
  py_str (py_or (dict_get (u "tgt_lang") req) (JStr (u "hin_Deva"))).

Definition request_stream (req : list (str * json F)) : bool :=
  truthy (py_or (dict_get (u "stream") req) (JBool false)).

Definition request_batch_size (req : list (str * json F))
    : option Z + string :=
  match dict_get (u "batch_size") req with
  | JNull => inl None
  | batch_size =>
      match py_int batch_size with
      | inl n => inl (Some n)
      | inr exception => inr exception
      end
  end.

End Values.

(** A line written to standard output. *)
Inductive reply :=
| Answer (result : response)            (* json.dumps(result) of translate *)
| Streamed (ev : event)                 (* a line of translate_stream *)
| InvalidJSON (msg : str)               (* "Invalid JSON: ..." *)
| TranslationFailed (exception : string).  (* "Translation failed: ..." *)

(** [tokenizer.get_vocab()] as an association list, and [key in vocab],
    [vocab[key]]. *)
Fixpoint vocab_get (key : str) (vocab : list (str * Z)) : option Z :=
  match vocab with
  | [] => None
  | (k, id) :: vocab' => if str_eqb k key then Some id else vocab_get key vocab'
  end.

(** The id of the target language token, as [translate] and
    [translate_stream] look it up. *)
Definition target_lang_id (vocab : list (str * Z)) (tgt_lang : str) : Z :=
  match vocab_get tgt_lang vocab with
  | Some id => id
  | None =>
      match vocab_get (u "eng_Latn") vocab with
      | Some id => id
      | None => 256068%Z
      end
  end.

(** What the requests run against: the vocabulary of the loaded
    tokenizer, the engine the tokenizer and the model make for a source
    language and a forced first token, and, for the request read at
    position [n] of the input, which executions raise and in which order
    the futures complete. *)
Record host := Host {
  cpu_count : Z;
  get_vocab : tokenizer -> list (str * Z);
  engine_with : tokenizer -> model -> str -> Z -> engine;
  crashes_in : nat -> nat -> nat -> bool;
  completion : nat -> list nat
}.

(** The engine of a request: [tokenizer.src_lang = src_lang] and
    [forced_bos_token_id = tgt_lang_id]. *)
Definition engine_for (h : host) (tok : tokenizer) (m : model)
    (src_lang tgt_lang : str) : engine :=
  engine_with h tok m src_lang (target_lang_id (get_vocab h tok) tgt_lang).

Section Loop.
Context {F : Type} (py : python F) (h : host) (cache : loaded).

(** The body of the loop for one non-blank line, trimmed. *)
Definition handle_line (n : nat) (line : str) : list reply :=
  match loads py line with
  | JSONDecodeError msg => [InvalidJSON msg]
  | LoadsRaised exception => [TranslationFailed exception]
  | Parsed (JDict req) =>
      let text := request_text py req in
      let src_lang := request_src_lang py req in
      let tgt_lang := request_tgt_lang py req in
      let stream := request_stream py req in
      match request_batch_size py req with
      | inr exception => [TranslationFailed exception]
      | inl batch_size =>
          match text with
          | [] => []
          | _ :: _ =>
              let '(tok, m, dev) := cache in
              let e := engine_for h tok m src_lang tgt_lang in
              if stream then
                let '(events, raised) :=
                  translate_stream e dev (cpu_count h) text batch_size in
                map Streamed events
                ++ match raised with
                   | Some exception => [TranslationFailed exception]
                   | None => []
                   end
              else
                match translate (World e (crashes_in h n)) dev (cpu_count h)
                        (completion h n) text batch_size with
                | Returned result => [Answer result]
                | Raised exception => [TranslationFailed exception]
                end
          end
      end
  | Parsed _ => [TranslationFailed "AttributeError"]
  end.

(** The loop over standard input: [lines] are the results of the calls
    of [readline], an empty one being the end of the input. *)
Fixpoint serve (n : nat) (lines : list str) : list reply :=
  match lines with
  | [] => []
  | line :: rest =>
      match line with
      | [] => []
      | _ :: _ =>
          match strip line with
          | [] => serve (S n) rest
          | (_ :: _) as line => handle_line n line ++ serve (S n) rest
          end
      end
  end.

End Loop.

(** [main()]: what is written to standard output, and the exit status
    ([None] when [main] returns). *)
Definition main {F : Type} (lib : libraries) (d : disk) (py : python F)
    (h : host) (lines : list str) : list reply * option Z :=
  match load_model lib d None with
  | (Some cache, _, _) => (serve py h cache 0 lines, None)
  | (None, _, _) => ([], Some 1%Z)
  end.

(** *** A parser used in the examples *)

(** Every line is read as the same request. *)
Definition reads_as (req : json unit) : python unit :=
  Python unit (fun _ => Parsed req) (fun _ => []) (fun _ => true)
    (fun _ => inr "ValueError"%string) (fun _ => None).

(** A host on which nothing raises, with the marking engine. *)
Definition quiet_host : host :=
  Host 8 (fun _ => []) (fun _ _ _ _ => marking_engine) (fun _ _ _ => false)
    (fun _ => []).

Definition cpu_cache : loaded :=
  (Tokenizer NllbTokenizer (Some "eng_Latn"%string), Model Cpu true false, Cpu).

End Server.

(** ** Notions of the further properties *)

Module Views.
Import PyStr Regex Normalizer Segmenter Executor Notions.

(** The characters of a text that are not white space, in order. *)
Definition visible (s : str) : str :=
  List.filter (fun x => negb (is_space x)) s.

(** No sentence end of the text is followed by white space. *)
Definition one_sentence (text : str) : Prop :=
  forall pre x y post,
    text = pre ++ x :: y :: post -> x ∈ u ".!?" -> is_space y = false.

(** Is some sentence end of the text followed by white space? *)
Fixpoint has_sentence_break (s : str) : bool :=
  match s with
  | x :: rest =>
      match rest with
      | y :: _ => existsb (N.eqb x) (u ".!?") && is_space y
      | [] => false
      end
      || has_sentence_break rest
  | [] => false
  end.

(** What the batch path keeps for a decoded text: the text trimmed, or
    the unit at its position when the text is blank. *)
Definition kept (translation original : str) : str :=
  if nonempty (strip translation) then strip translation else original.

(** Only the submitted execution of batch 1 raises. *)
Definition once_on (n : nat) : nat -> nat -> bool :=
  fun batch_num attempt => (batch_num =? n) && (attempt =? 0).

(** An engine that decodes only the first unit of a batch. *)
Definition first_only_engine : engine := fun call =>
  match call with
  | TranslateBatch batch _ _ =>
      Some (map (fun s => u " T:" ++ s) (take 1 batch))
  | TranslateOne sentence _ _ => Some [u "T:" ++ sentence]
  end.

(** An engine that raises on a batch and translates a single sentence. *)
Definition retry_only_engine : engine := fun call =>
  match call with
  | TranslateBatch _ _ _ => None
  | TranslateOne sentence _ _ => Some [u " T:" ++ sentence; u "more"]
  end.

Definition is_chunk (ev : event) : bool :=
  match ev with Chunk _ _ _ => true | _ => false end.

(** The texts of the chunk events, in the order written. *)
Definition chunk_texts (events : list event) : list str :=
  omap (fun ev => match ev with Chunk _ _ t => Some t | _ => None end) events.

(** The variables of the stream agree: every translation collected was
    written as a chunk, and nothing else was written. *)
Definition chunks_written (st : stream_state) : Prop :=
  forallb is_chunk (stdout st) = true
  /\ chunk_texts (stdout st) = translated_sentences st.

(** No match of the pattern starts at the character. *)
Definition cannot_start (r : regex) (x : char) : Prop :=
  forall bef aft, match_here r bef (x :: aft) = None.

End Views.

Module Placeholders.
Import PyStr Regex Normalizer Segmenter Executor Notions.

(** Does the character occur twice in a row? *)
Fixpoint adjacent (x : char) (s : str) : bool :=
  match s with
  | y :: rest =>
      match rest with
      | z :: _ => N.eqb y x && N.eqb z x
      | [] => false
      end
      || adjacent x rest
  | [] => false
  end.

(** The placeholder with a prefix and a number. *)
Definition placeholder (prefix : string) (i : nat) : str :=
  u prefix ++ decimal i ++ u "__".

(** The dict of placeholders is numbered: entry [i], in insertion order,
    has a placeholder with number [i] as its key, and the counter is the
    number of entries. *)
Definition numbered (st : math_state) : Prop :=
  length (math_placeholders st) = placeholder_counter st
  /\ forall i key formula,
       math_placeholders st !! i = Some (key, formula) ->
       key = placeholder "__LATEX_DISPLAY_" i
       \/ key = placeholder "__LATEX_INLINE_" i.

End Placeholders.

Import PyStr Regex Normalizer Segmenter Executor Notions.

(** * Properties *)

(** ** The decode tiers *)

Lemma in_tier_adaptive (chars : nat) :
  in_tier chars (adaptive_max_length (chars / 4)).
Proof.
  unfold in_tier, adaptive_max_length.
  destruct (Nat.ltb_spec (chars / 4) 50) as [H50|H50]; [left; lia|].
  destruct (Nat.ltb_spec (chars / 4) 200) as [H200|H200].
  - right; left; lia.
  - right; right; lia.
Qed.

Lemma longest_unit (batch : list str) (m : nat) :
  max_batch_length batch = Some m ->
  exists longest,
    longest ∈ batch
    /\ Forall (fun unit => length unit <= length longest) batch
    /\ length longest = m.
Proof.
  destruct batch as [|first rest]; [discriminate|].
  intros [= <-]. revert first.
  induction rest as [|second rest IH]; intros first.
  - exists first. cbn. repeat split; [left | | lia].
    constructor; [lia | constructor].
  - destruct (IH second) as (best & Hin & Hall & Hlen).
    cbn [map foldr] in *.
    destruct (Nat.le_gt_cases (length first) (length best)) as [Hle|Hgt].
    + exists best. repeat split; [by right | | lia].
      constructor; [lia | assumption].
    + exists first. repeat split; [left | | lia].
      constructor; [lia|].
      eapply Forall_impl; [exact Hall|]. cbn. intros. lia.
Qed.

Lemma stream_translations_log (batch : list str) (batch_idx total : nat)
    (translations : list str) :
  forall i st,
    engine_log (snd (stream_translations batch batch_idx total i
                       translations st))
    = engine_log st.
Proof.
  induction translations as [|t rest IH]; intros i st; cbn; [reflexivity|].
  destruct (nonempty (strip t)); [by rewrite IH|].
  destruct (batch !! i); [by rewrite IH | reflexivity].
Qed.

Lemma stream_individually_log (e : engine) (dev : device)
    (batch_idx total : nat) (sentences : list str) :
  forall i st,
    engine_log (stream_individually e dev batch_idx total i sentences st)
    = engine_log st ++ map (retry_call dev) sentences.
Proof.
  induction sentences as [|s rest IH]; intros i st; cbn.
  - by rewrite app_nil_r.
  - rewrite IH. cbn. by rewrite <- app_assoc.
Qed.

(** ** One batch *)

Lemma keep_translations_length (batch : list str) (translations : list str) :
  forall i kept,
    i + length translations <= length batch ->
    exists kept',
      keep_translations batch i translations kept = (true, kept')
      /\ length kept' = length kept + length translations.
Proof.
  induction translations as [|t rest IH]; intros i kept Hlen; cbn in *.
  - exists kept. split; [reflexivity | lia].
  - destruct (nonempty (strip t)).
    + destruct (IH (S i) (kept ++ [strip t])) as (kept' & -> & Hk); [lia|].
      exists kept'. split; [reflexivity|]. rewrite Hk, length_app. cbn. lia.
    + destruct (lookup_lt_is_Some_2 batch i) as [original ->]; [lia|].
      destruct (IH (S i) (kept ++ [original])) as (kept' & -> & Hk); [lia|].
      exists kept'. split; [reflexivity|]. rewrite Hk, length_app. cbn. lia.
Qed.

(** With an engine that answers a batch with one text per unit,
    [process_batch] returns its batch number and one text per unit,
    whatever else the engine does. *)
Lemma process_batch_cardinality (e : engine) (dev : device)
    (batch : list str) (batch_idx : nat) :
  one_per_unit e ->
  exists translations,
    snd (process_batch e dev batch batch_idx) = (batch_idx, translations)
    /\ length translations = length batch.
Proof.
  intros Hone. unfold process_batch.
  destruct (max_batch_length batch) as [m|].
  - destruct (e _) as [translations|] eqn:He.
    + apply Hone in He.
      destruct (keep_translations_length batch translations 0 [])
        as (kept & -> & Hk); [lia|].
      exists kept. split; [reflexivity|]. cbn in Hk. lia.
    + eexists. split; [reflexivity|]. cbn. by rewrite length_map.
  - eexists. split; [reflexivity|]. cbn. by rewrite length_map.
Qed.

Lemma process_batch_index (e : engine) (dev : device) (batch : list str)
    (batch_idx : nat) :
  exists translations,
    snd (process_batch e dev batch batch_idx) = (batch_idx, translations).
Proof.
  unfold process_batch.
  destruct (max_batch_length batch); [|cbn; eauto].
  destruct (e _); [|cbn; eauto].
  destruct (keep_translations _ _ _ _) as [[] kept]; cbn; eauto.
Qed.

(** C3, at the failing input. The batch raises, the retry of the one unit
    decodes to a blank: [process_batch] returns one text (the cardinality
    holds) but it is the empty string, not the unit; so it is for every
    unit of every batch with this engine. In the batch path the same
    blank is replaced by the unit. *)
Theorem blank_retry_not_replaced (dev : device) :
  snd (process_batch blank_retry_engine dev [u "Hello"] 0) = (0, [[]])
  /\ (forall batch batch_idx,
        snd (process_batch blank_retry_engine dev batch batch_idx)
        = (batch_idx, map (fun _ => []) batch))
  /\ snd (process_batch blank_batch_engine dev [u "Hello"] 0)
     = (0, [u "Hello"]).
Proof.
  split; [reflexivity|]. split; [|reflexivity].
  intros batch batch_idx. unfold process_batch.
  destruct (max_batch_length batch); reflexivity.
Qed.

(** ** The normalizer on formulas *)

(** C1, at the failing input: the placeholder of the formula is itself
    rewritten by the underscore-italic substitution, so the restoring
    [replace] finds nothing and the formula is lost. *)
Theorem formula_lost :
  fst (extract_math (u "This is $x^2+1$ math."))
  = MathState 1 [(u "__LATEX_INLINE_0__", u "$x^2+1$")]
  /\ snd (extract_math (u "This is $x^2+1$ math."))
     = u "This is __LATEX_INLINE_0__ math."
  /\ sub re_italic_underscore Group1 (u "This is __LATEX_INLINE_0__ math.")
     = u "This is _LATEXINLINE0_ math."
  /\ strip_markdown (u "This is $x^2+1$ math.")
     = u "This is _LATEXINLINE0_ math.".
Proof. repeat split; vm_compute; reflexivity. Qed.

(** ** Batches *)

Lemma batch_size_pos (p : positive) : 0 < Pos.to_nat p.
Proof. lia. Qed.

Section Batches.
Variable units : list str.
Variable p : positive.
Let b := Pos.to_nat p.
Let T := (length units + b - 1) / b.

Lemma batch_starts_pos :
  batch_starts (length units) (Zpos p) = map (fun k => k * b) (seq 0 T).
Proof. reflexivity. Qed.

Lemma batch_count_pos : batch_count units (Zpos p) = T.
Proof.
  unfold batch_count. rewrite batch_starts_pos.
  by rewrite length_map, length_seq.
Qed.

Lemma total_batches_pos :
  total_batches (length units) (Zpos p) = Z.of_nat T.
Proof.
  pose proof (batch_size_pos p) as Hb; fold b in Hb.
  unfold total_batches. subst T.
  rewrite Nat2Z.inj_div. f_equal; subst b; lia.
Qed.

(** The batches cover the units: [T] batches of [b] reach the end. *)
Lemma batches_reach_end : length units <= T * b.
Proof.
  pose proof (batch_size_pos p) as Hb; fold b in Hb. subst T.
  pose proof (Nat.div_mod (length units + b - 1) b) as Hdm.
  pose proof (Nat.mod_upper_bound (length units + b - 1) b) as Hub.
  nia.
Qed.

(** Every batch is non-empty. *)
Lemma batch_starts_inside (k : nat) : k < T -> k * b < length units.
Proof.
  pose proof (batch_size_pos p) as Hb; fold b in Hb. subst T. intros Hk.
  pose proof (Nat.div_mod (length units + b - 1) b) as Hdm.
  pose proof (Nat.mod_upper_bound (length units + b - 1) b) as Hub.
  nia.
Qed.

Lemma batch_of_length (k : nat) :
  k < T -> 0 < length (batch_of units b k).
Proof.
  intros Hk. apply batch_starts_inside in Hk.
  pose proof (batch_size_pos p) as Hb; fold b in Hb.
  unfold batch_of, slice. rewrite length_take, length_drop. lia.
Qed.

(** The batch partition: the batches, in order, are the units. *)
Lemma batches_from (count start : nat) :
  concat (map (batch_of units b) (seq start count))
  = take (count * b) (drop (start * b) units).
Proof.
  revert start. induction count as [|count IH]; intros start; cbn.
  - by rewrite take_0.
  - rewrite IH. unfold batch_of, slice.
    replace (start * b + b - start * b) with b by lia.
    replace (S start * b) with (start * b + b) by lia.
    rewrite <- drop_drop. apply take_take_drop.
Qed.

Lemma batches_partition :
  concat (map (batch_of units b) (seq 0 T)) = units.
Proof.
  rewrite batches_from. cbn. rewrite drop_0.
  apply take_ge, batches_reach_end.
Qed.

Lemma submit_lookup (k : nat) :
  k < T ->
  submit units b (batch_starts (length units) (Zpos p)) !! k
  = Some (k, batch_of units b k).
Proof.
  intros Hk. pose proof (batch_size_pos p) as Hb; fold b in Hb.
  rewrite batch_starts_pos. unfold submit.
  change (map ?f ?l) with (f <$> l). rewrite <- list_fmap_compose.
  rewrite list_lookup_fmap, lookup_seq_lt by done. cbn.
  by rewrite Nat.div_mul by lia.
Qed.

Lemma submit_lookup_ge (k : nat) :
  T <= k ->
  submit units b (batch_starts (length units) (Zpos p)) !! k = None.
Proof.
  intros Hk. apply lookup_ge_None_2.
  unfold submit. rewrite batch_starts_pos.
  by rewrite !length_map, length_seq.
Qed.
End Batches.

(** ** Sequential and concurrent execution *)

Section Execution.
Variable w : world.
Variable dev : device.
Variable units : list str.
Variable p : positive.
Let b := Pos.to_nat p.
Let T := (length units + b - 1) / b.
Let futures := submit units b (batch_starts (length units) (Zpos p)).

(** The sequential loop appends the batches' translations in index
    order, unless an execution raises. *)
Lemma run_sequential_from (count start : nat) (done : list str) :
  (forall k, start <= k < start + count -> crashes w k 0 = false) ->
  run_sequential w dev units b (map (fun k => k * b) (seq start count)) done
  = Some (done
          ++ concat (map (translations_of w dev units b) (seq start count))).
Proof.
  pose proof (batch_size_pos p) as Hb. fold b in Hb.
  revert start done. induction count as [|count IH]; intros start done Hok.
  - cbn. by rewrite app_nil_r.
  - cbn [seq map run_sequential concat].
    replace (start * b / b + 1 - 1) with start
      by (rewrite Nat.div_mul by lia; lia).
    rewrite Hok by lia.
    unfold translations_of at 1, batch_of.
    destruct (snd (process_batch _ _ _ start)) as [idx translations].
    rewrite IH by (intros; apply Hok; lia).
    cbn. by rewrite <- app_assoc.
Qed.

Lemma collect_step (pos : nat) (rest : list nat)
    (slots : list (option (list str))) :
  length slots = T ->
  collect w dev units b futures (pos :: rest) slots
  = collect w dev units b futures rest
      (if decide (pos < T) then settle w dev units b slots pos else slots).
Proof.
  intros Hlen. cbn [collect]. destruct (decide (pos < T)) as [Hpos|Hpos].
  - pose proof (submit_lookup units p pos Hpos) as Hf.
    change ((futures !! pos) = Some (pos, batch_of units b pos)) in Hf.
    rewrite Hf. unfold settle. f_equal.
    assert ((pos <? length slots) = true) as Hin
      by (apply Nat.ltb_lt; lia).
    unfold translations_of, batch_of.
    destruct (crashes w pos 0).
    + destruct (crashes w pos 1); [reflexivity|]. cbn -[Nat.ltb].
      destruct (snd (process_batch _ _ _ pos)) as [idx translations].
      by rewrite Hin.
    + cbn -[Nat.ltb]. fold (batch_of units b pos).
      destruct (process_batch_index (run w) dev (batch_of units b pos) pos)
        as [translations Heq].
      rewrite Heq. cbn -[Nat.ltb]. by rewrite Hin.
  - pose proof (submit_lookup_ge units p pos) as Hf.
    change (T <= pos -> (futures !! pos) = None) in Hf.
    by rewrite Hf by lia.
Qed.

Lemma settle_length (slots : list (option (list str))) (k : nat) :
  length (settle w dev units b slots k) = length slots.
Proof.
  unfold settle. destruct (_ && _); [reflexivity | apply length_insert].
Qed.

Lemma settle_lookup (slots : list (option (list str))) (k j : nat) :
  k < length slots ->
  settle w dev units b slots k !! j
  = if decide (j = k) then
      if crashes w k 0 && crashes w k 1 then slots !! k
      else Some (Some (translations_of w dev units b k))
    else slots !! j.
Proof.
  intros Hk. unfold settle.
  destruct (decide (j = k)) as [->|Hne].
  - destruct (_ && _); [reflexivity|]. by apply list_lookup_insert_eq.
  - destruct (_ && _); [reflexivity|]. by apply list_lookup_insert_ne.
Qed.

(** The slots after the futures of [order] have completed. *)
Lemma collect_lookup (order : list nat) :
  forall (slots : list (option (list str))) (j : nat),
    length slots = T ->
    j < T ->
    collect w dev units b futures order slots !! j
    = if decide (j ∈ order) then
        if crashes w j 0 && crashes w j 1 then slots !! j
        else Some (Some (translations_of w dev units b j))
      else slots !! j.
Proof.
  induction order as [|pos rest IH]; intros slots j Hlen Hj.
  - cbn. destruct (decide (j ∈ [])) as [Hin|]; [|reflexivity].
    by apply elem_of_nil in Hin.
  - rewrite collect_step by done.
    destruct (decide (pos < T)) as [Hpos|Hpos].
    + rewrite IH by (rewrite ?settle_length; done).
      rewrite settle_lookup by lia.
      destruct (decide (j = pos)) as [->|Hne].
      * destruct (decide (pos ∈ pos :: rest)) as [_|Hn];
          [|exfalso; apply Hn; left].
        destruct (decide (pos ∈ rest)); [|reflexivity].
        by destruct (_ && _).
      * destruct (decide (j ∈ rest)) as [Hin|Hnin].
        -- destruct (decide (j ∈ pos :: rest)) as [_|Hn];
             [reflexivity | exfalso; apply Hn; by right].
        -- destruct (decide (j ∈ pos :: rest)) as [Hin|_]; [|reflexivity].
           apply elem_of_cons in Hin as [->|Hin]; done.
    + rewrite IH by done.
      assert (j ≠ pos) as Hne by lia.
      destruct (decide (j ∈ rest)) as [Hin|Hnin].
      * destruct (decide (j ∈ pos :: rest)) as [_|Hn];
          [reflexivity | exfalso; apply Hn; by right].
      * destruct (decide (j ∈ pos :: rest)) as [Hin|_]; [|reflexivity].
        apply elem_of_cons in Hin as [->|Hin]; done.
Qed.

Lemma collect_length (order : list nat) :
  forall slots : list (option (list str)),
    length slots = T ->
    length (collect w dev units b futures order slots) = T.
Proof.
  induction order as [|pos rest IH]; intros slots Hlen; [done|].
  rewrite collect_step by done. apply IH.
  destruct (decide (pos < T)); [by rewrite settle_length | done].
Qed.

(** Once every future has completed, in whatever order, slot [k] holds
    the outcome of batch [k]. *)
Lemma collect_all (order : list nat) :
  order ≡ₚ seq 0 T ->
  collect w dev units b futures order (replicate T None)
  = map (slot_of w dev units b) (seq 0 T).
Proof.
  intros Hperm.
  apply (list_eq_same_length _ _ T).
  - by rewrite length_map, length_seq.
  - by rewrite collect_length by apply length_replicate.
  - intros j x y Hj Hx Hy.
    rewrite collect_lookup in Hx by (try apply length_replicate; done).
    change (map ?f ?l) with (f <$> l) in Hy.
    rewrite list_lookup_fmap, lookup_seq_lt in Hy by done.
    cbn in Hy. injection Hy as <-.
    destruct (decide (j ∈ order)) as [_|Hn].
    + unfold slot_of. destruct (_ && _).
      * rewrite lookup_replicate_2 in Hx by done. congruence.
      * congruence.
    + exfalso. apply Hn. rewrite Hperm. apply elem_of_seq. lia.
Qed.

Lemma combine_slots (ks : list nat) :
  combine_results (map (slot_of w dev units b) ks)
  = concat (map (fun k => default [] (slot_of w dev units b k)) ks).
Proof.
  induction ks as [|k ks IH]; [reflexivity|].
  cbn. rewrite <- IH.
  destruct (slot_of w dev units b k) as [[|first others]|]; reflexivity.
Qed.

(** The concurrent path returns the outcomes of the batches in index
    order, whatever the completion order. *)
Lemma run_parallel_outcomes (order : list nat) :
  order ≡ₚ seq 0 T ->
  run_parallel w dev units b (batch_starts (length units) (Zpos p))
    (total_batches (length units) (Zpos p)) order
  = concat (map (fun k => default [] (slot_of w dev units b k)) (seq 0 T)).
Proof.
  intros Hperm. unfold run_parallel.
  rewrite total_batches_pos, Nat2Z.id.
  fold b T futures. by rewrite collect_all, combine_slots.
Qed.
End Execution.

(** ** Requests *)

Lemma split_into_units_nonempty (text : str) : split_into_units text <> [].
Proof.
  unfold split_into_units.
  destruct (if contains LF text then line_units text else []); [|done].
  destruct (sentence_units text); done.
Qed.

(** [translate] in terms of the units of the request. *)
Lemma translate_units (w : world) (dev : device) (cpu_count : Z)
    (order : list nat) (text : str) (batch_size : option Z) :
  translate w dev cpu_count order text batch_size
  = match request_units text with
    | [] => Returned (Failure "No valid sentences found in input text")
    | first :: others =>
        let batch_size := effective_batch_size batch_size dev cpu_count in
        if (batch_size =? 0)%Z then Raised "ZeroDivisionError"
        else
          match run_batches w dev cpu_count order (first :: others) batch_size
          with
          | None => Raised "Exception"
          | Some [] => Returned (Failure all_failed)
          | Some (t :: ts) => Returned (Success (join SPACE (t :: ts)))
          end
    end.
Proof.
  unfold translate, request_units.
  pose proof (split_into_units_nonempty (strip_markdown text)) as Hne.
  destruct (split_into_units (strip_markdown text)) as [|unit units]; [done|].
  destruct (valid_units (unit :: units)) as [|first others]; [reflexivity|].
  cbv zeta. destruct (_ =? _)%Z; [reflexivity|].
  by destruct (run_batches _ _ _ _ _ _) as [[|t ts]|].
Qed.

Lemma run_batches_sequential (w : world) (dev : device) (cpu_count : Z)
    (order : list nat) (units : list str) (p : positive) :
  no_crash w ->
  order ≡ₚ seq 0 (batch_count units (Zpos p)) ->
  run_batches w dev cpu_count order units (Zpos p)
  = Some (concat (map (translations_of w dev units (Pos.to_nat p))
                      (seq 0 (batch_count units (Zpos p))))).
Proof.
  intros Hok Hperm. rewrite batch_count_pos in *.
  unfold run_batches. change (Z.to_nat (Z.pos p)) with (Pos.to_nat p).
  destruct (use_parallel_batches _ _ _).
  - f_equal. rewrite run_parallel_outcomes by done.
    f_equal. apply map_ext. intros k. unfold slot_of.
    by rewrite (Hok k 0).
  - rewrite batch_starts_pos, run_sequential_from; [done|].
    intros. apply Hok.
Qed.

(** C4. For every list of units and positive batch size, whatever the
    order in which the futures complete, the slots combined in index
    order are the list the sequential loop builds; so the answer of
    [translate] depends neither on the completion order nor on the path
    taken, which the number of CPUs decides. (No execution of
    [process_batch] raises: the sequential loop has a result. The device
    is the same on both sides: the engine calls carry its decoding
    arguments.) *)
Theorem concurrent_equals_sequential (w : world) (dev : device)
    (units : list str) (batch_size : Z) (order : list nat) :
  no_crash w ->
  (0 < batch_size)%Z ->
  order ≡ₚ seq 0 (batch_count units batch_size) ->
  run_sequential w dev units (Z.to_nat batch_size)
    (batch_starts (length units) batch_size) []
  = Some (run_parallel w dev units (Z.to_nat batch_size)
            (batch_starts (length units) batch_size)
            (total_batches (length units) batch_size) order)
  /\ (forall cpu_count,
        run_batches w dev cpu_count order units batch_size
        = run_sequential w dev units (Z.to_nat batch_size)
            (batch_starts (length units) batch_size) [])
  /\ forall text cpu_count cpu_count',
       request_units text = units ->
       translate w dev cpu_count order text (Some batch_size)
       = translate w dev cpu_count' (seq 0 (batch_count units batch_size))
           text (Some batch_size).
Proof.
  intros Hok Hpos Hperm. destruct batch_size as [|p|p]; try lia.
  change (Z.to_nat (Z.pos p)) with (Pos.to_nat p).
  assert (run_sequential w dev units (Pos.to_nat p)
            (batch_starts (length units) (Z.pos p)) []
          = Some (concat (map (translations_of w dev units (Pos.to_nat p))
                            (seq 0 (batch_count units (Z.pos p))))))
    as Hseq.
  { rewrite batch_count_pos, batch_starts_pos.
    by rewrite run_sequential_from by (intros; apply Hok). }
  split; [|split].
  - rewrite Hseq. f_equal. rewrite batch_count_pos in *.
    rewrite run_parallel_outcomes by done.
    apply (f_equal (@concat str)), map_ext. intros k. unfold slot_of.
    by rewrite (Hok k 0).
  - intros cpu_count. rewrite Hseq. by apply run_batches_sequential.
  - intros text cpu_count cpu_count' <-. rewrite !translate_units.
    destruct (request_units text) as [|first others]; [done|].
    cbn [effective_batch_size]. cbv zeta.
    by rewrite !run_batches_sequential.
Qed.

Lemma concurrent_equals_sequential_witness :
  no_crash (World marking_engine never)
  /\ (0 < 2)%Z
  /\ [2; 0; 1] ≡ₚ seq 0 (batch_count (request_units five_lines) 2)
  /\ run_sequential (World marking_engine never) Cpu
       (request_units five_lines) 2 [0; 2; 4] []
     = Some (run_parallel (World marking_engine never) Cpu
               (request_units five_lines) 2 [0; 2; 4] 3 [2; 0; 1])
  /\ translate (World marking_engine never) Cpu 8 [2; 0; 1] five_lines
       (Some 2%Z)
     = translate (World marking_engine never) Cpu 1 [0; 1; 2] five_lines
         (Some 2%Z).
Proof.
  assert (no_crash (World marking_engine never)) as Hok
    by (intros k attempt; reflexivity).
  assert ([2; 0; 1] ≡ₚ seq 0 (batch_count (request_units five_lines) 2))
    as Hperm.
  { change (seq 0 _) with [0; 1; 2].
    etransitivity; [apply perm_swap|]. apply perm_skip, perm_swap. }
  split; [exact Hok | split; [lia | split; [exact Hperm|]]].
  destruct (concurrent_equals_sequential _ Cpu (request_units five_lines) 2
              [2; 0; 1] Hok eq_refl Hperm) as (Hlists & _ & Htranslate).
  split; [exact Hlists|].
  exact (Htranslate five_lines 8%Z 1%Z eq_refl).
Defined.

(** ** An unfilled slot *)

Lemma concat_shorter (f g : nat -> list str) (ks : list nat) (n : nat) :
  Forall (fun k => length (f k) <= length (g k)) ks ->
  n ∈ ks ->
  length (f n) < length (g n) ->
  length (concat (map f ks)) < length (concat (map g ks)).
Proof.
  intros Hall Hn Hlt. induction Hall as [|k ks Hk Hall IH].
  - by apply elem_of_nil in Hn.
  - assert (length (concat (map f ks)) <= length (concat (map g ks))) as Hle.
    { clear -Hall. induction Hall as [|j js Hj _ IHj]; cbn; [lia|].
      rewrite !length_app. lia. }
    cbn. rewrite !length_app.
    apply elem_of_cons in Hn as [<-|Hn]; [lia|].
    specialize (IH Hn). lia.
Qed.

Lemma concat_covers (f : nat -> list str) (ks : list nat) (m : nat) :
  m ∈ ks -> length (f m) <= length (concat (map f ks)).
Proof.
  induction ks as [|k ks IH]; intros Hm.
  - by apply elem_of_nil in Hm.
  - cbn. rewrite length_app.
    apply elem_of_cons in Hm as [<-|Hm]; [lia|].
    specialize (IH Hm). lia.
Qed.

Lemma translations_of_length (w : world) (dev : device) (units : list str)
    (b k : nat) :
  one_per_unit (run w) ->
  length (translations_of w dev units b k) = length (batch_of units b k).
Proof.
  intros Hone. unfold translations_of.
  destruct (process_batch_cardinality (run w) dev (batch_of units b k) k Hone)
    as (translations & -> & Hlen).
  exact Hlen.
Qed.

(** C9. In the concurrent path, when the submitted execution of batch [n]
    and its inline fallback both raise, slot [n] is still [None] after all
    futures have completed and is skipped when the slots are combined:
    with another batch [m] processed, [translate] returns success and
    fewer translations than there are units. *)
Theorem unfilled_slot_is_skipped (w : world) (cpu_count batch_size : Z)
    (order : list nat) (text : str) (n m : nat) :
  (4 <= cpu_count)%Z ->
  (0 < batch_size)%Z ->
  one_per_unit (run w) ->
  order ≡ₚ seq 0 (batch_count (request_units text) batch_size) ->
  n < batch_count (request_units text) batch_size ->
  crashes w n 0 = true ->
  crashes w n 1 = true ->
  m < batch_count (request_units text) batch_size ->
  crashes w m 0 = false ->
  exists translated_sentences,
    collect w Cpu (request_units text) (Z.to_nat batch_size)
      (submit (request_units text) (Z.to_nat batch_size)
         (batch_starts (length (request_units text)) batch_size))
      order
      (replicate (batch_count (request_units text) batch_size) None) !! n
    = Some None
    /\ run_batches w Cpu cpu_count order (request_units text) batch_size
       = Some translated_sentences
    /\ translate w Cpu cpu_count order text (Some batch_size)
       = Returned (Success (join SPACE translated_sentences))
    /\ length translated_sentences < length (request_units text).
Proof.
  intros Hcpu Hpos Hone Hperm Hn Hn0 Hn1 Hm Hm0.
  destruct batch_size as [|p|p]; try lia.
  set (units := request_units text) in *.
  change (Z.to_nat (Z.pos p)) with (Pos.to_nat p).
  set (b := Pos.to_nat p).
  rewrite batch_count_pos in *. fold b in Hperm, Hn, Hm |- *.
  set (T := (length units + b - 1) / b) in *.
  set (f := fun k => default [] (slot_of w Cpu units b k)).
  assert (n ≠ m) as Hnm by (intros ->; congruence).
  assert (use_parallel_batches Cpu cpu_count
            (total_batches (length units) (Z.pos p)) = true) as Hpar.
  { unfold use_parallel_batches. rewrite total_batches_pos. fold b T.
    cbn [is_cpu andb]. apply andb_true_iff. split; [|lia].
    apply Z.ltb_lt. lia. }
  assert (run_batches w Cpu cpu_count order units (Z.pos p)
          = Some (concat (map f (seq 0 T)))) as Hrun.
  { unfold run_batches. rewrite Hpar.
    change (Z.to_nat (Z.pos p)) with (Pos.to_nat p).
    by rewrite run_parallel_outcomes. }
  assert (f n = []) as Hfn by (unfold f, slot_of; by rewrite Hn0, Hn1).
  assert (length (f m) = length (batch_of units b m)) as Hfm.
  { unfold f, slot_of. rewrite Hm0. cbn.
    by apply translations_of_length. }
  assert (0 < length (concat (map f (seq 0 T)))) as Hsome.
  { pose proof (concat_covers f (seq 0 T) m) as Hcov.
    pose proof (batch_of_length units p m Hm) as Hlen. fold b in Hlen.
    rewrite elem_of_seq in Hcov. lia. }
  exists (concat (map f (seq 0 T))). split; [|split; [|split]].
  - pose proof (collect_all w Cpu units p order Hperm) as Hall.
    fold b T in Hall. rewrite Hall.
    change (map ?h ?l) with (h <$> l).
    rewrite list_lookup_fmap, lookup_seq_lt by done. cbn.
    unfold slot_of. by rewrite Hn0, Hn1.
  - exact Hrun.
  - rewrite translate_units. fold units.
    destruct units as [|first others] eqn:Hunits.
    { exfalso. subst T. cbn in Hn. rewrite Nat.div_small in Hn; lia. }
    cbn [effective_batch_size]. cbv zeta.
    change (Z.pos p =? 0)%Z with false. cbv iota.
    rewrite Hrun.
    destruct (concat (map f (seq 0 T))); [cbn in Hsome; lia | reflexivity].
  - pose proof (batches_partition units p) as Hpart. fold b T in Hpart.
    apply (f_equal length) in Hpart. rewrite <- Hpart.
    apply (concat_shorter f (batch_of units b) (seq 0 T) n).
    + apply Forall_forall. intros k _. unfold f, slot_of.
      destruct (_ && _); cbn; [lia|].
      by rewrite translations_of_length.
    + apply elem_of_seq. lia.
    + rewrite Hfn. cbn. pose proof (batch_of_length units p n Hn). done.
Qed.

Lemma marking_engine_one_per_unit : one_per_unit marking_engine.
Proof.
  intros batch max_length args translations [= <-]. apply length_map.
Qed.

Lemma unfilled_slot_is_skipped_witness :
  (4 <= 8)%Z
  /\ (0 < 2)%Z
  /\ one_per_unit marking_engine
  /\ [2; 0; 1] ≡ₚ seq 0 (batch_count (request_units five_lines) 2)
  /\ 1 < batch_count (request_units five_lines) 2
  /\ twice_on 1 1 0 = true
  /\ twice_on 1 1 1 = true
  /\ 0 < batch_count (request_units five_lines) 2
  /\ twice_on 1 0 0 = false
  /\ exists translated_sentences,
       translate (World marking_engine (twice_on 1)) Cpu 8 [2; 0; 1]
         five_lines (Some 2%Z)
       = Returned (Success (join SPACE translated_sentences))
       /\ length translated_sentences < length (request_units five_lines).
Proof.
  assert ([2; 0; 1] ≡ₚ seq 0 (batch_count (request_units five_lines) 2))
    as Hperm.
  { change (seq 0 _) with [0; 1; 2].
    etransitivity; [apply perm_swap|]. apply perm_skip, perm_swap. }
  assert (1 < batch_count (request_units five_lines) 2) as H1
    by (vm_compute; lia).
  assert (0 < batch_count (request_units five_lines) 2) as H0
    by (vm_compute; lia).
  destruct (unfilled_slot_is_skipped (World marking_engine (twice_on 1))
              8 2 [2; 0; 1] five_lines 1 0
              ltac:(lia) ltac:(lia) marking_engine_one_per_unit Hperm
              H1 eq_refl eq_refl H0 eq_refl)
    as (translated_sentences & _ & _ & Htranslate & Hlen).
  split; [lia|]. split; [lia|]. split; [exact marking_engine_one_per_unit|].
  split; [exact Hperm|]. split; [exact H1|].
  split; [reflexivity|]. split; [reflexivity|]. split; [exact H0|].
  split; [reflexivity|]. eauto.
Defined.

(** ** Request-level failure *)

Lemma process_batch_dead (dev : device) (batch : list str) (batch_idx : nat) :
  snd (process_batch dead_engine dev batch batch_idx) = (batch_idx, batch).
Proof.
  assert (map (retry_sentence dead_engine dev) batch = batch) as Hsame.
  { induction batch as [|s rest IH]; [reflexivity|]. cbn. by rewrite IH. }
  unfold process_batch.
  destruct (max_batch_length batch); cbn; by rewrite Hsame.
Qed.

Lemma dead_engine_fell_back (unit : str) : fell_back dead_engine unit.
Proof. split; reflexivity. Qed.

(** C5, as the code has it. [translate] answers "All translation sentences
    failed" exactly when the request has a valid unit, the batch size is
    not zero and the batches contributed no text at all; without a valid
    unit the answer is "No valid sentences found in input text". A unit
    that fell back to its original text contributes that text: with an
    engine that raises on every call and a positive batch size,
    [translate] returns success with the untranslated units joined by
    spaces. *)
Theorem request_failure_condition (w : world) (dev : device) (cpu_count : Z)
    (order : list nat) (text : str) (batch_size : option Z) (p : positive) :
  (translate w dev cpu_count order text batch_size
   = Returned (Failure all_failed)
   <-> request_units text <> []
       /\ effective_batch_size batch_size dev cpu_count <> 0%Z
       /\ run_batches w dev cpu_count order (request_units text)
            (effective_batch_size batch_size dev cpu_count)
          = Some [])
  /\ (translate w dev cpu_count order text batch_size
      = Returned (Failure "No valid sentences found in input text")
      <-> request_units text = [])
  /\ translate (World dead_engine never) dev cpu_count
       (seq 0 (batch_count (request_units text) (Zpos p))) text
       (Some (Zpos p))
     = match request_units text with
       | [] => Returned (Failure "No valid sentences found in input text")
       | first :: others =>
           Returned (Success (join SPACE (first :: others)))
       end.
Proof.
  split; [|split].
  - rewrite translate_units.
    destruct (request_units text) as [|first others]; cbv zeta.
    + split; [discriminate | intros []; done].
    + destruct (Z.eqb_spec (effective_batch_size batch_size dev cpu_count) 0)
        as [Hz|Hnz].
      * split; [discriminate | intros (_ & Hne & _); done].
      * destruct (run_batches _ _ _ _ _ _) as [[|t ts]|].
        -- done.
        -- split; [discriminate | intros (_ & _ & [=])].
        -- split; [discriminate | intros (_ & _ & [=])].
  - rewrite translate_units.
    destruct (request_units text) as [|first others]; cbv zeta; [done|].
    destruct (_ =? _)%Z; [done|].
    by destruct (run_batches _ _ _ _ _ _) as [[|t ts]|].
  - rewrite translate_units.
    destruct (request_units text) as [|first others] eqn:Hunits; [done|].
    cbn [effective_batch_size]. cbv zeta.
    change (Z.pos p =? 0)%Z with false. cbv iota.
    rewrite run_batches_sequential by done.
    rewrite (map_ext _ (batch_of (first :: others) (Pos.to_nat p)))
      by (intros k; unfold translations_of; cbn [run];
          by rewrite process_batch_dead).
    rewrite batch_count_pos, batches_partition. reflexivity.
Qed.

(** Where every unit fell back the request still succeeds: the engine
    raises on every call, and the answer is the original text. *)
Lemma all_fallback_is_success :
  ~ (translate (World dead_engine never) Cpu 8 [] (u "Hello world.") None
     = Returned (Failure all_failed)
     <-> request_units (u "Hello world.") = []
         \/ Forall (fell_back dead_engine) (request_units (u "Hello world."))).
Proof.
  intros [_ Hfail].
  assert (translate (World dead_engine never) Cpu 8 [] (u "Hello world.") None
          = Returned (Success (u "Hello world."))) as Hok
    by (vm_compute; reflexivity).
  rewrite Hok in Hfail.
  discriminate Hfail. right. apply Forall_forall. intros unit _.
  apply dead_engine_fell_back.
Qed.

(** ** The stream *)

Lemma stream_translations_ok (batch : list str) (batch_idx total : nat)
    (translations : list str) :
  forall i st,
    i + length translations <= length batch ->
    exists outs,
      length outs = length translations
      /\ stream_translations batch batch_idx total i translations st
         = (true,
            StreamState
              (translated_sentences st ++ outs)
              (stdout st
               ++ imap (fun j t => Chunk (batch_idx + i + j) total t) outs)
              (engine_log st)).
Proof.
  induction translations as [|t rest IH]; intros i st Hlen; cbn in *.
  - exists []. cbn. rewrite !app_nil_r. by destruct st.
  - assert (forall x,
              exists outs,
                length outs = S (length rest)
                /\ stream_translations batch batch_idx total (S i) rest
                     (emit_chunk (batch_idx + i) total x st)
                   = (true,
                      StreamState
                        (translated_sentences st ++ outs)
                        (stdout st
                         ++ imap (fun j t => Chunk (batch_idx + i + j) total t)
                              outs)
                        (engine_log st))) as Hstep.
    { intros x.
      destruct (IH (S i) (emit_chunk (batch_idx + i) total x st))
        as (outs & Houts & ->); [lia|].
      exists (x :: outs). split; [cbn; lia|]. cbn.
      rewrite <- !app_assoc. cbn. rewrite Nat.add_0_r.
      do 3 f_equal. f_equal. apply imap_ext. intros j y _. cbn.
      f_equal. lia. }
    destruct (nonempty (strip t)); [apply Hstep|].
    destruct (lookup_lt_is_Some_2 batch i) as [original ->]; [lia|].
    apply Hstep.
Qed.

Lemma stream_individually_ok (e : engine) (dev : device)
    (batch_idx total : nat) (sentences : list str) :
  forall i st,
    exists outs,
      length outs = length sentences
      /\ translated_sentences
           (stream_individually e dev batch_idx total i sentences st)
         = translated_sentences st ++ outs
      /\ stdout (stream_individually e dev batch_idx total i sentences st)
         = stdout st
           ++ imap (fun j t => Chunk (batch_idx + i + j) total t) outs.
Proof.
  induction sentences as [|s rest IH]; intros i st; cbn.
  - exists []. cbn. by rewrite !app_nil_r.
  - destruct (IH (S i)
                (emit_chunk (batch_idx + i) total (retry_sentence e dev s)
                   (log_call (retry_call dev s) st)))
      as (outs & Houts & -> & ->).
    exists (retry_sentence e dev s :: outs). split; [cbn; lia|]. cbn.
    rewrite <- !app_assoc. cbn. rewrite Nat.add_0_r.
    split; [reflexivity|]. do 2 f_equal. apply imap_ext. intros j y _. cbn.
    f_equal. lia.
Qed.

(** One batch of the stream writes one chunk per unit of the batch, with
    the indices that follow its start. *)
Lemma stream_batch_ok (e : engine) (dev : device) (units : list str)
    (b total batch_idx : nat) (st : stream_state) :
  one_per_unit e ->
  exists outs,
    length outs = length (slice units batch_idx (batch_idx + b))
    /\ translated_sentences (stream_batch e dev units b total batch_idx st)
       = translated_sentences st ++ outs
    /\ stdout (stream_batch e dev units b total batch_idx st)
       = stdout st ++ imap (fun j t => Chunk (batch_idx + j) total t) outs.
Proof.
  intros Hone. unfold stream_batch.
  set (batch := slice units batch_idx (batch_idx + b)).
  assert (forall st',
            translated_sentences st' = translated_sentences st ->
            stdout st' = stdout st ->
            exists outs,
              length outs = length batch
              /\ translated_sentences
                   (stream_individually e dev batch_idx total 0 batch st')
                 = translated_sentences st ++ outs
              /\ stdout (stream_individually e dev batch_idx total 0 batch st')
                 = stdout st
                   ++ imap (fun j t => Chunk (batch_idx + j) total t) outs)
    as Hretry.
  { intros st' Ht Hs.
    destruct (stream_individually_ok e dev batch_idx total batch 0 st')
      as (outs & Houts & -> & ->).
    exists outs. rewrite Ht, Hs. repeat split; [done|].
    f_equal. apply imap_ext. intros j y _. cbn. f_equal. lia. }
  destruct (max_batch_length batch) as [m|]; [|by apply Hretry].
  destruct (e _) as [translations|] eqn:He; [|by apply Hretry].
  apply Hone in He.
  destruct (stream_translations_ok batch batch_idx total translations 0
              (log_call (TranslateBatch batch (adaptive_max_length (m / 4))
                           (batch_decoding dev))
                 st))
    as (outs & Houts & ->); [lia|].
  exists outs. cbn. repeat split; [lia|].
  f_equal. apply imap_ext. intros j y _. cbn. f_equal. lia.
Qed.

Section Stream.
Variable e : engine.
Variable dev : device.
Variable units : list str.
Variable p : positive.
Hypothesis engine_ok : one_per_unit e.
Let b := Pos.to_nat p.
Let T := (length units + b - 1) / b.
Let total := length units.

(** After the batches before [start], the chunks written are those of the
    translations collected, in index order. *)
Lemma stream_batches_from (count start : nat) (st : stream_state) :
  start + count <= T ->
  length (translated_sentences st) = Nat.min (start * b) (length units) ->
  stdout st = imap (fun j t => Chunk j total t) (translated_sentences st) ->
  exists translations,
    translated_sentences
      (fold_left
         (fun st batch_idx => stream_batch e dev units b total batch_idx st)
         (map (fun k => k * b) (seq start count)) st)
    = translations
    /\ stdout
         (fold_left
            (fun st batch_idx => stream_batch e dev units b total batch_idx st)
            (map (fun k => k * b) (seq start count)) st)
       = imap (fun j t => Chunk j total t) translations
    /\ length translations = Nat.min ((start + count) * b) (length units).
Proof.
  pose proof (batch_size_pos p) as Hb. fold b in Hb.
  revert start st. induction count as [|count IH]; intros start st HT Hlen Hout.
  - cbn. eexists. repeat split; [done|]. by rewrite Nat.add_0_r.
  - cbn [seq map fold_left].
    destruct (stream_batch_ok e dev units b total (start * b) st engine_ok)
      as (outs & Houts & Ht & Hs).
    pose proof (batch_starts_inside units p start) as Hin.
    fold b in Hin. fold T in Hin.
    assert (length outs = Nat.min b (length units - start * b)) as Houts'.
    { rewrite Houts. unfold slice. rewrite length_take, length_drop. lia. }
    destruct (IH (S start)
                (stream_batch e dev units b total (start * b) st))
      as (translations & Htr & Hso & Hlt).
    + lia.
    + rewrite Ht, length_app, Hlen, Houts'. nia.
    + rewrite Hs, Ht, Hout, imap_app. f_equal.
      apply imap_ext. intros j y _. cbn. f_equal. lia.
    + exists translations. repeat split; [done | done |].
      rewrite Hlt. f_equal. lia.
Qed.
End Stream.

(** C10, as the code has it. With at least one unit, a positive batch
    size and an engine that answers a batch with one text per unit,
    [translate_stream] writes one chunk per index 0, 1, ..., total-1, in
    that order, then the completion with the joined translations, and
    nothing else. *)
Theorem stream_in_index_order (e : engine) (dev : device) (cpu_count : Z)
    (text : str) (batch_size : Z) :
  one_per_unit e ->
  (0 < batch_size)%Z ->
  request_units text <> [] ->
  in_order_stream (length (request_units text))
    (fst (translate_stream e dev cpu_count text (Some batch_size)))
  /\ snd (translate_stream e dev cpu_count text (Some batch_size)) = None.
Proof.
  intros Hone Hpos Hunits. destruct batch_size as [|p|p]; try lia.
  unfold translate_stream. fold (request_units text).
  destruct (request_units text) as [|first others]; [done|].
  set (units := first :: others) in *.
  cbn [effective_batch_size]. change (Z.pos p =? 0)%Z with false. cbv iota.
  change (Z.to_nat (Z.pos p)) with (Pos.to_nat p).
  rewrite batch_starts_pos.
  destruct (stream_batches_from e dev units p Hone
              ((length units + Pos.to_nat p - 1) / Pos.to_nat p) 0
              (StreamState [] [] []))
    as (translations & Htr & Hso & Hlen); [lia | done | done |].
  rewrite Htr, Hso.
  pose proof (batches_reach_end units p) as Hend.
  rewrite Nat.add_0_l, Nat.min_r in Hlen by done.
  destruct translations as [|t ts]; [done|].
  split; [|reflexivity]. exists (t :: ts). by split.
Qed.

Lemma stream_in_index_order_witness :
  one_per_unit marking_engine
  /\ (0 < 2)%Z
  /\ request_units five_lines <> []
  /\ in_order_stream 5
       (fst (translate_stream marking_engine Cpu 8 five_lines (Some 2%Z))).
Proof.
  split; [exact marking_engine_one_per_unit|]. split; [lia|].
  assert (request_units five_lines <> []) as Hne by (vm_compute; discriminate).
  split; [exact Hne|].
  exact (proj1 (stream_in_index_order marking_engine Cpu 8 five_lines 2
                  marking_engine_one_per_unit eq_refl Hne)).
Defined.

(** With a negative batch size the range of batch starts is empty: the
    one unit of the request gets no chunk and there is no completion. *)
Lemma negative_batch_size_stream :
  request_units (u "Hello world.") = [u "Hello world."]
  /\ fst (translate_stream marking_engine Cpu 8 (u "Hello world.")
            (Some (-1)%Z))
     = [StreamError all_failed]
  /\ ~ in_order_stream (length (request_units (u "Hello world.")))
         (fst (translate_stream marking_engine Cpu 8 (u "Hello world.")
                 (Some (-1)%Z))).
Proof.
  assert (fst (translate_stream marking_engine Cpu 8 (u "Hello world.")
                 (Some (-1)%Z))
          = [StreamError all_failed]) as Hstream
    by (vm_compute; reflexivity).
  split; [vm_compute; reflexivity|]. split; [exact Hstream|].
  rewrite Hstream. intros (translations & _ & Heq).
  destruct translations as [|t ts]; [discriminate|].
  cbn in Heq. discriminate.
Qed.

(** ** Stripping *)

Lemma lstrip_suffix (s : str) :
  exists pre, s = pre ++ lstrip s /\ Forall (fun x => is_space x = true) pre.
Proof.
  induction s as [|x s (pre & Hs & Hpre)]; [by exists []|].
  cbn. destruct (is_space x) eqn:Hx.
  - exists (x :: pre). split; [cbn; congruence | by constructor].
  - by exists [].
Qed.

Lemma lstrip_length (s : str) : length (lstrip s) <= length s.
Proof.
  destruct (lstrip_suffix s) as (pre & Hs & _).
  rewrite Hs at 2. rewrite length_app. lia.
Qed.

Lemma lstrip_head (x : char) (s : str) :
  lstrip (x :: s) = x :: s <-> is_space x = false.
Proof.
  cbn. destruct (is_space x); split; try done.
  intros Heq. pose proof (lstrip_length s) as Hlen.
  rewrite Heq in Hlen. cbn in Hlen. lia.
Qed.

Lemma lstrip_idem (s : str) : lstrip (lstrip s) = lstrip s.
Proof.
  induction s as [|x s IH]; [reflexivity|].
  cbn. destruct (is_space x) eqn:Hx; [exact IH|].
  by apply lstrip_head.
Qed.

Lemma lstrip_spaces (s : str) :
  lstrip s = [] <-> Forall (fun x => is_space x = true) s.
Proof.
  induction s as [|x s IH]; [done|].
  cbn. destruct (is_space x) eqn:Hx.
  - rewrite IH. split; [by constructor | by inversion 1].
  - split; [done|]. inversion 1; congruence.
Qed.

Lemma strip_spaces (s : str) :
  strip s = [] <-> Forall (fun x => is_space x = true) s.
Proof.
  unfold strip, rstrip. rewrite <- lstrip_spaces. split.
  - intros Hnil. apply (f_equal (@rev char)) in Hnil.
    rewrite rev_involutive in Hnil. cbn in Hnil.
    apply lstrip_spaces in Hnil.
    destruct (lstrip s) as [|x rest] eqn:Hl; [done|].
    assert (is_space x = false) as Hx
      by (apply (proj1 (lstrip_head x rest)); rewrite <- Hl;
          apply lstrip_idem).
    apply Forall_rev in Hnil. rewrite rev_involutive in Hnil.
    inversion Hnil; congruence.
  - by intros ->.
Qed.

(** What is left of a stripped text starts where the text starts. *)
Lemma rstrip_keeps_lstripped (s : str) :
  lstrip s = s -> lstrip (rstrip s) = rstrip s.
Proof.
  intros Hs. unfold rstrip.
  destruct (lstrip_suffix (rev s)) as (pre & Hrev & _).
  apply (f_equal (@rev char)) in Hrev.
  rewrite rev_involutive, rev_app_distr in Hrev.
  destruct (rev (lstrip (rev s))) as [|x rest]; [reflexivity|].
  apply lstrip_head. rewrite Hrev in Hs. cbn in Hs.
  by apply lstrip_head in Hs.
Qed.

Lemma strip_fixed (s : str) :
  lstrip s = s -> lstrip (rev s) = rev s -> strip s = s.
Proof.
  intros Hl Hr. unfold strip, rstrip. by rewrite Hl, Hr, rev_involutive.
Qed.

Lemma strip_idem (s : str) : strip (strip s) = strip s.
Proof.
  apply strip_fixed.
  - unfold strip. apply rstrip_keeps_lstripped, lstrip_idem.
  - unfold strip, rstrip. rewrite rev_involutive. apply lstrip_idem.
Qed.

Lemma stripped_nonempty_spec (parts : list str) :
  Forall (fun unit => unit <> [] /\ strip unit = unit)
    (stripped_nonempty parts).
Proof.
  unfold stripped_nonempty. apply Forall_forall. intros unit Hin.
  apply list_elem_of_In, filter_In in Hin as [Hin Hne].
  apply in_map_iff in Hin as (part & <- & _).
  split; [by destruct (strip part) | apply strip_idem].
Qed.

(** A part with a character that is not white space survives. *)
Lemma stripped_nonempty_keeps (parts : list str) (part : str) (x : char) :
  part ∈ parts -> x ∈ part -> is_space x = false ->
  stripped_nonempty parts <> [].
Proof.
  intros Hpart Hx Hns Hnil.
  assert (In (strip part) (stripped_nonempty parts)) as Hin.
  { apply filter_In. split; [apply in_map; by apply list_elem_of_In|].
    destruct (strip part) eqn:Hs; [|reflexivity].
    apply strip_spaces in Hs. rewrite Forall_forall in Hs.
    specialize (Hs x Hx). congruence. }
  rewrite Hnil in Hin. destruct Hin.
Qed.

Lemma stripped_nonempty_blank (parts : list str) :
  Forall (Forall (fun x => is_space x = true)) parts ->
  stripped_nonempty parts = [].
Proof.
  induction 1 as [|part parts Hpart _ IH]; [reflexivity|].
  unfold stripped_nonempty in *. cbn.
  apply strip_spaces in Hpart. by rewrite Hpart.
Qed.

(** ** Matches *)

Lemma starts_with_prefix (p s : str) :
  starts_with p s = true -> s = p ++ drop (length p) s.
Proof.
  revert s. induction p as [|a p IH]; intros s Hs; [reflexivity|].
  destruct s as [|x s]; [discriminate|]. cbn in Hs.
  apply andb_true_iff in Hs as [Hax Hs]. apply N.eqb_eq in Hax as ->.
  cbn. f_equal. by apply IH.
Qed.

Lemma starts_with_app (p s : str) : starts_with p (p ++ s) = true.
Proof.
  induction p as [|a p IH]; [reflexivity|].
  cbn. by rewrite N.eqb_refl, IH.
Qed.

(** A quantified class consumes characters of the class, at least [lo]. *)
Lemma rep_inv (greedy : bool) (k : cclass) (g : option str)
    (cont : mstate -> option mstate) (res : mstate) :
  forall aft lo hi bef,
    rep greedy k lo hi g bef aft cont = Some res ->
    exists pre post,
      aft = pre ++ post
      /\ Forall (fun x => cc_match k x = true) pre
      /\ lo <= length pre
      /\ cont (MState (rev pre ++ bef) post g) = Some res.
Proof.
  assert (forall aft lo bef,
            match lo with O => cont (MState bef aft g) | S _ => None end
            = Some res ->
            exists pre post,
              aft = pre ++ post
              /\ Forall (fun x => cc_match k x = true) pre
              /\ lo <= length pre
              /\ cont (MState (rev pre ++ bef) post g) = Some res) as Hstop.
  { intros aft [|lo] bef Hc; [|discriminate].
    exists [], aft. repeat split; [constructor | done | done]. }
  induction aft as [|x rest IH]; intros lo hi bef Hrep.
  - destruct greedy; cbn in Hrep; [by apply Hstop|].
    apply Hstop. destruct lo; [|done].
    by destruct (cont (MState bef [] g)).
  - assert (forall r,
              (if cc_match k x && may_take hi
               then rep greedy k (pred lo) (took_one hi) g (x :: bef) rest cont
               else None) = Some r ->
              r = res ->
              exists pre post,
                x :: rest = pre ++ post
                /\ Forall (fun y => cc_match k y = true) pre
                /\ lo <= length pre
                /\ cont (MState (rev pre ++ bef) post g) = Some res) as Hmore.
    { intros r Hr ->.
      destruct (cc_match k x && may_take hi) eqn:Hx; [|discriminate].
      apply andb_true_iff in Hx as [Hx _].
      destruct (IH _ _ _ Hr) as (pre & post & -> & Hpre & Hlo & Hc).
      exists (x :: pre), post. repeat split.
      - by constructor.
      - cbn. lia.
      - cbn. by rewrite <- app_assoc. }
    destruct greedy; cbn in Hrep.
    + destruct (if cc_match k x && may_take hi then _ else None) as [r|] eqn:Hr.
      * injection Hrep as ->. by eapply Hmore.
      * by apply Hstop.
    + destruct (match lo with O => _ | S _ => None end) as [r|] eqn:Hs.
      * injection Hrep as ->. by apply Hstop.
      * by eapply Hmore.
Qed.

(** A successful match consumed a text of the pattern's shape and went on
    from right behind it. *)
Lemma rmatch_shape (r : regex) :
  forall st cont res,
    rmatch r st cont = Some res ->
    exists mid st',
      after st = mid ++ after st'
      /\ before st' = rev mid ++ before st
      /\ shape r mid
      /\ cont st' = Some res.
Proof.
  induction r as [|s|greedy lo hi k|r IH|r1 IH1 r2 IH2| | |positive ks
                  |positive ks]; intros st cont res Hm; cbn in Hm.
  - by exists [], st.
  - destruct (starts_with s (after st)) eqn:Hs; [|discriminate].
    apply starts_with_prefix in Hs.
    exists s, (MState (rev s ++ before st) (drop (length s) (after st))
                      (group1 st)).
    by repeat split.
  - apply rep_inv in Hm as (pre & post & Haft & Hpre & Hlo & Hc).
    exists pre, (MState (rev pre ++ before st) post (group1 st)).
    by repeat split.
  - apply IH in Hm as (mid & st' & Haft & Hbef & Hshape & Hc).
    exists mid, (MState (before st') (after st') (Some (captured st st'))).
    by repeat split.
  - apply IH1 in Hm as (m1 & st1 & Haft1 & Hbef1 & Hshape1 & Hm).
    apply IH2 in Hm as (m2 & st2 & Haft2 & Hbef2 & Hshape2 & Hc).
    exists (m1 ++ m2), st2. repeat split.
    + by rewrite Haft1, Haft2, app_assoc.
    + by rewrite Hbef2, Hbef1, rev_app_distr, app_assoc.
    + by exists m1, m2.
    + exact Hc.
  - exists [], st. repeat split.
    destruct (before st) as [|c ?]; [done|]. by destruct (N.eqb c LF).
  - exists [], st. repeat split.
    destruct (after st) as [|c ?]; [done|]. by destruct (N.eqb c LF).
  - exists [], st. repeat split. by destruct (eqb _ _).
  - exists [], st. repeat split. by destruct (eqb _ _).
Qed.

Lemma match_here_shape (r : regex) (bef aft : str) (n : nat) (m : found) :
  match_here r bef aft = Some (n, m) ->
  exists mid rest, aft = mid ++ rest /\ shape r mid /\ n = length mid.
Proof.
  unfold match_here.
  destruct (rmatch r (MState bef aft None) Some) as [st'|] eqn:Hm;
    [|discriminate].
  intros [= <- _].
  apply rmatch_shape in Hm as (mid & st'' & Haft & _ & Hshape & [= ->]).
  cbn in Haft. exists mid, (after st'). repeat split; [done | done |].
  rewrite Haft, length_app. lia.
Qed.

(** ** Segmentation *)

Lemma linebreak_is_space (c : char) :
  is_linebreak c = true -> is_space c = true.
Proof.
  unfold is_linebreak, is_space.
  repeat rewrite ?orb_true_iff, ?andb_true_iff, ?N.leb_le, ?N.eqb_eq.
  lia.
Qed.

(** Every character that is not a line boundary is in some line. *)
Lemma splitlines_covers (x : char) :
  forall n s,
    length s <= n -> x ∈ s -> is_linebreak x = false ->
    exists line, line ∈ splitlines s /\ x ∈ line.
Proof.
  induction n as [|n IH]; intros s Hn Hx Hnb.
  { destruct s; [by apply elem_of_nil in Hx | cbn in Hn; lia]. }
  destruct s as [|c s]; [by apply elem_of_nil in Hx|].
  cbn in Hn. cbn [splitlines].
  destruct (is_linebreak c) eqn:Hc.
  - apply elem_of_cons in Hx as [->|Hx]; [congruence|].
    assert (exists line,
              line ∈ match s with
                     | d :: s'' =>
                         if (N.eqb c CR && N.eqb d LF)%bool
                         then splitlines s'' else splitlines s
                     | [] => []
                     end /\ x ∈ line) as (line & Hline & Hin).
    { destruct s as [|d s'']; [by apply elem_of_nil in Hx|].
      destruct (N.eqb c CR && N.eqb d LF)%bool eqn:Hcrlf.
      - apply andb_true_iff in Hcrlf as [_ Hd]. apply N.eqb_eq in Hd as ->.
        apply elem_of_cons in Hx as [->|Hx]; [discriminate|].
        apply IH; [cbn in Hn; lia | done | done].
      - apply IH; [lia | done | done]. }
    exists line. split; [by right | done].
  - apply elem_of_cons in Hx as [->|Hx].
    + destruct (splitlines s) as [|l ls].
      * exists [c]. split; left.
      * exists (c :: l). split; left.
    + destruct (IH s ltac:(lia) Hx Hnb) as (line & Hline & Hin).
      destruct (splitlines s) as [|l ls]; [by apply elem_of_nil in Hline|].
      apply elem_of_cons in Hline as [->|Hline].
      * exists (c :: l). split; [left | by right].
      * exists line. split; [by right | done].
Qed.

(** The lines are made of characters of the text. *)
Lemma splitlines_chars (x : char) :
  forall n s line,
    length s <= n -> line ∈ splitlines s -> x ∈ line -> x ∈ s.
Proof.
  induction n as [|n IH]; intros s line Hn Hline Hx.
  { destruct s; [by apply elem_of_nil in Hline | cbn in Hn; lia]. }
  destruct s as [|c s]; [by apply elem_of_nil in Hline|].
  cbn in Hn. cbn [splitlines] in Hline.
  destruct (is_linebreak c) eqn:Hc.
  - apply elem_of_cons in Hline as [->|Hline]; [by apply elem_of_nil in Hx|].
    right. destruct s as [|d s'']; [by apply elem_of_nil in Hline|].
    destruct (N.eqb c CR && N.eqb d LF)%bool.
    + right. eapply IH; [|done|done]. cbn in Hn. lia.
    + eapply IH; [|done|done]. lia.
  - destruct (splitlines s) as [|l ls] eqn:Hs.
    + apply list_elem_of_singleton in Hline as ->.
      apply list_elem_of_singleton in Hx as ->. left.
    + apply elem_of_cons in Hline as [->|Hline].
      * apply elem_of_cons in Hx as [->|Hx]; [left|].
        right. eapply (IH s l); [lia | rewrite Hs; left | done].
      * right. eapply (IH s line); [lia | rewrite Hs; by right | done].
Qed.

Lemma elem_of_rev (x : char) (s : str) : x ∈ rev s <-> x ∈ s.
Proof. rewrite !list_elem_of_In. symmetry. apply in_rev. Qed.

(** The pieces of [re.split] are made of characters of the text. *)
Lemma split_scan_chars (r : regex) (x : char) :
  forall aft cur bef skip piece,
    piece ∈ split_scan r cur bef aft skip -> x ∈ piece ->
    x ∈ cur \/ x ∈ aft.
Proof.
  assert (forall cur (piece : str),
            piece ∈ [rev cur] -> x ∈ piece -> x ∈ cur) as Hlast.
  { intros cur piece Hp Hx. apply list_elem_of_singleton in Hp as ->.
    by apply (proj1 (elem_of_rev _ _)). }
  induction aft as [|c rest IH]; intros cur bef skip piece Hp Hx.
  - left. destruct skip; cbn in Hp; [|by eapply Hlast].
    destruct (match_here r bef []) as [[[|n] m]|]; by eapply Hlast.
  - assert (piece ∈ split_scan r (c :: cur) (c :: bef) rest 0 ->
            x ∈ cur \/ x ∈ c :: rest) as Hcopy.
    { intros Hp'. destruct (IH _ _ _ _ Hp' Hx) as [Hc|Hr]; [|right; by right].
      apply elem_of_cons in Hc as [->|Hc]; [right; left | by left]. }
    destruct skip as [|skip]; cbn in Hp.
    + destruct (match_here r bef (c :: rest)) as [[[|n] m]|];
        try by apply Hcopy.
      apply elem_of_cons in Hp as [->|Hp].
      * left. by apply (proj1 (elem_of_rev _ _)).
      * destruct (IH _ _ _ _ Hp Hx) as [Hc|Hr];
          [by apply elem_of_nil in Hc | right; by right].
    + destruct (IH _ _ _ _ Hp Hx) as [Hc|Hr]; [by left | right; by right].
Qed.

(** When the separators are white space, a character that is not white
    space is in some piece. *)
Lemma split_scan_covers (r : regex) (x : char) :
  (forall bef aft n m,
     match_here r bef aft = Some (n, m) ->
     Forall (fun y => is_space y = true) (take n aft)) ->
  is_space x = false ->
  forall aft cur bef skip,
    Forall (fun y => is_space y = true) (take skip aft) ->
    x ∈ cur \/ x ∈ aft ->
    exists piece, piece ∈ split_scan r cur bef aft skip /\ x ∈ piece.
Proof.
  intros Hsep Hx.
  assert (forall cur, x ∈ cur -> exists piece, piece ∈ [rev cur] /\ x ∈ piece)
    as Hlast.
  { intros cur Hc. exists (rev cur).
    split; [left | by apply (proj2 (elem_of_rev _ _))]. }
  induction aft as [|c rest IH]; intros cur bef skip Hskip Hin.
  - destruct Hin as [Hin|Hin]; [|by apply elem_of_nil in Hin].
    destruct skip; cbn; [|by apply Hlast].
    destruct (match_here r bef []) as [[[|n] m]|]; by apply Hlast.
  - assert (exists piece,
              piece ∈ split_scan r (c :: cur) (c :: bef) rest 0 /\ x ∈ piece)
      as Hcopy.
    { apply IH; [by rewrite take_0|].
      destruct Hin as [Hin|Hin]; [left; by right|].
      apply elem_of_cons in Hin as [->|Hin]; [left; left | by right]. }
    destruct skip as [|skip]; cbn.
    + destruct (match_here r bef (c :: rest)) as [[[|n] m]|] eqn:Hm;
        try exact Hcopy.
      apply Hsep in Hm. cbn in Hm. inversion Hm as [|? ? Hc Hn]; subst.
      destruct Hin as [Hin|Hin].
      * exists (rev cur). split; [left | by apply (proj2 (elem_of_rev _ _))].
      * apply elem_of_cons in Hin as [->|Hin]; [congruence|].
        destruct (IH [] (c :: bef) n Hn (or_intror Hin))
          as (piece & Hp & Hxp).
        exists piece. split; [by right | done].
    + cbn in Hskip. inversion Hskip as [|? ? Hc Hn]; subst.
      apply IH; [done|].
      destruct Hin as [Hin|Hin]; [by left|].
      apply elem_of_cons in Hin as [->|Hin]; [congruence | by right].
Qed.

Lemma sentence_end_is_space (bef aft : str) (n : nat) (m : found) :
  match_here re_sentence_end bef aft = Some (n, m) ->
  Forall (fun y => is_space y = true) (take n aft).
Proof.
  intros Hm.
  apply match_here_shape in Hm as (mid & rest & -> & Hshape & ->).
  rewrite take_app_length.
  destruct Hshape as (m1 & m2 & -> & -> & m3 & m4 & -> & [Hsp _] & ->).
  by rewrite app_nil_r.
Qed.

Lemma has_nonspace (s : str) :
  strip s <> [] -> exists y, y ∈ s /\ is_space y = false.
Proof.
  induction s as [|x s IH]; intros Hne; [done|].
  destruct (is_space x) eqn:Hx; [|exists x; split; [left | done]].
  destruct IH as (y & Hy & Hns).
  - intros Hnil. apply Hne, strip_spaces. constructor; [done|].
    by apply strip_spaces.
  - exists y. split; [by right | done].
Qed.

Lemma line_units_nonempty (text : str) :
  strip text <> [] -> line_units text <> [].
Proof.
  intros Hne. destruct (has_nonspace text Hne) as (y & Hy & Hns).
  destruct (splitlines_covers y (length text) text) as (line & Hline & Hin);
    [done | done | |].
  - destruct (is_linebreak y) eqn:Hb; [|done].
    apply linebreak_is_space in Hb. congruence.
  - by eapply stripped_nonempty_keeps.
Qed.

Lemma sentence_units_nonempty (text : str) :
  strip text <> [] -> sentence_units text <> [].
Proof.
  intros Hne. destruct (has_nonspace text Hne) as (y & Hy & Hns).
  destruct (split_scan_covers re_sentence_end y sentence_end_is_space Hns
              text [] [] 0) as (piece & Hpiece & Hin);
    [by rewrite take_0 | by right |].
  by eapply stripped_nonempty_keeps.
Qed.

Lemma blank_text_units (text : str) :
  strip text = [] -> line_units text = [] /\ sentence_units text = [].
Proof.
  intros Hnil. apply strip_spaces in Hnil. rewrite Forall_forall in Hnil.
  split; apply stripped_nonempty_blank, Forall_forall; intros part Hpart;
    apply Forall_forall; intros x Hx; apply Hnil.
  - by eapply splitlines_chars.
  - destruct (split_scan_chars _ x _ _ _ _ _ Hpart Hx) as [Hc|Ht]; [|done].
    by apply elem_of_nil in Hc.
Qed.

(** C6, as the code has it. For a text with a character that is not
    white space, the units are non-empty and trimmed, and there is at
    least one: the non-blank trimmed lines when the text has a line feed,
    the non-blank trimmed sentences otherwise. For an empty or blank text
    both paths yield nothing and the one unit is the text as it is,
    untrimmed. *)
Theorem segmentation (text : str) :
  if nonempty (strip text) then
    split_into_units text <> []
    /\ Forall (fun unit => unit <> [] /\ strip unit = unit)
         (split_into_units text)
    /\ split_into_units text
       = (if contains LF text then line_units text else sentence_units text)
  else split_into_units text = [text].
Proof.
  destruct (strip text) as [|x rest] eqn:Hstrip; cbn [nonempty].
  - destruct (blank_text_units text Hstrip) as [Hlines Hsentences].
    unfold split_into_units. rewrite Hlines, Hsentences.
    by destruct (contains LF text).
  - assert (strip text <> []) as Hne by (by rewrite Hstrip).
    pose proof (line_units_nonempty text Hne) as Hlines.
    pose proof (sentence_units_nonempty text Hne) as Hsentences.
    assert (split_into_units text
            = (if contains LF text then line_units text
               else sentence_units text)) as Heq.
    { unfold split_into_units. destruct (contains LF text).
      - by destruct (line_units text).
      - by destruct (sentence_units text). }
    split; [apply split_into_units_nonempty|]. split; [|exact Heq].
    rewrite Heq. destruct (contains LF text); apply stripped_nonempty_spec.
Qed.

(** A blank text is returned as its own single unit. *)
Lemma blank_unit :
  u " " <> []
  /\ split_into_units (u " ") = [u " "]
  /\ ~ Forall (fun unit => strip unit <> []) (split_into_units (u " ")).
Proof.
  split; [discriminate|]. split; [reflexivity|].
  intros Hall. inversion Hall as [|? ? Hunit _]. by apply Hunit.
Qed.

(** ** Substitutions that find nothing *)

Lemma existsb_elem_of (x : char) (s : str) :
  existsb (N.eqb x) s = true <-> x ∈ s.
Proof.
  rewrite existsb_exists, list_elem_of_In. split.
  - intros (y & Hy & Heq). by apply N.eqb_eq in Heq as ->.
  - intros Hx. exists x. split; [done | apply N.eqb_refl].
Qed.

Lemma requires_shape (r : regex) (x : char) :
  forall mid, requires r x = true -> shape r mid -> x ∈ mid.
Proof.
  induction r as [|s|greedy lo hi k|r IH|r1 IH1 r2 IH2| | |positive ks
                  |positive ks]; intros mid Hreq Hshape; cbn in *;
    try discriminate.
  - subst. by apply existsb_elem_of.
  - destruct k as [|y| | |]; try discriminate.
    apply andb_true_iff in Hreq as [Hlo Hxy].
    destruct lo as [|lo]; [discriminate|]. apply N.eqb_eq in Hxy as ->.
    destruct Hshape as [Hall Hlen].
    destruct mid as [|z mid]; [cbn in Hlen; lia|].
    inversion Hall as [|? ? Hz _]; subst. cbn in Hz.
    apply N.eqb_eq in Hz as ->. left.
  - by apply IH.
  - destruct Hshape as (m1 & m2 & -> & H1 & H2).
    apply elem_of_app. apply orb_true_iff in Hreq as [Hreq|Hreq].
    + left. by apply IH1.
    + right. by apply IH2.
Qed.

(** A pattern does not match where a character it requires is absent. *)
Lemma no_match_without (r : regex) (x : char) (bef aft : str) :
  requires r x = true -> x ∉ aft -> match_here r bef aft = None.
Proof.
  intros Hreq Hx.
  destruct (match_here r bef aft) as [[n m]|] eqn:Hm; [|reflexivity].
  apply match_here_shape in Hm as (mid & rest & -> & Hshape & _).
  exfalso. apply Hx, elem_of_app. left. by eapply requires_shape.
Qed.

(** A substitution whose pattern matches nowhere returns the text. *)
Lemma sub_scan_none {S : Type} (r : regex) (repl : S -> found -> S * str)
    (s : S) (keep : str -> Prop) :
  (forall x rest, keep (x :: rest) -> keep rest) ->
  (forall bef aft, keep aft -> match_here r bef aft = None) ->
  forall aft bef, keep aft -> sub_scan r repl s bef aft 0 = (s, aft).
Proof.
  intros Htail Hnone. induction aft as [|x rest IH]; intros bef Hkeep; cbn.
  - by rewrite Hnone.
  - rewrite Hnone by done. by rewrite IH by (by eapply Htail).
Qed.

Lemma sub_with_without {S : Type} (r : regex) (repl : S -> found -> S * str)
    (s : S) (x : char) (text : str) :
  requires r x = true -> x ∉ text -> sub_with r repl s text = (s, text).
Proof.
  intros Hreq Hx. unfold sub_with.
  apply (sub_scan_none r repl s (fun aft => x ∉ aft)); [| |done].
  - intros y rest Hy Hin. apply Hy. by right.
  - intros bef aft. by apply no_match_without.
Qed.

Lemma sub_without (r : regex) (t : template) (x : char) (text : str) :
  requires r x = true -> x ∉ text -> sub r t text = text.
Proof.
  intros Hreq Hx. unfold sub. by rewrite (sub_with_without _ _ _ x).
Qed.

Lemma plain_without (text : str) (x : char) :
  plain text = true -> x ∈ markup -> x ∉ text.
Proof.
  unfold plain. rewrite forallb_forall. intros Hplain Hx Hin.
  apply list_elem_of_In, Hplain, negb_true_iff in Hin.
  apply existsb_elem_of in Hx. congruence.
Qed.

(** [x] is absent from a plain text, for a markup character [x]. *)
Ltac absent_markup :=
  apply plain_without; [assumption | by apply existsb_elem_of].

(** Without markup characters nothing is extracted and nothing removed. *)
Lemma plain_extract_math (text : str) :
  plain text = true -> extract_math text = (MathState 0 [], text).
Proof.
  intros Hplain. unfold extract_math.
  rewrite (sub_with_without re_display_math _ _ (c "$"));
    [|reflexivity|absent_markup].
  rewrite (sub_with_without re_latex_display_math _ _ (c "\"));
    [|reflexivity|absent_markup].
  rewrite (sub_with_without re_inline_math _ _ (c "$"));
    [|reflexivity|absent_markup].
  apply (sub_with_without _ _ _ (c "\")); [reflexivity|absent_markup].
Qed.

Lemma plain_remove_markdown (text : str) :
  plain text = true -> remove_markdown text = text.
Proof.
  intros Hplain. unfold remove_markdown.
  rewrite (sub_without re_header _ (c "#")); [|reflexivity|absent_markup].
  rewrite (sub_without re_bold _ (c "*")); [|reflexivity|absent_markup].
  rewrite (sub_without re_italic _ (c "*")); [|reflexivity|absent_markup].
  rewrite (sub_without re_bold_underscore _ (c "_"));
    [|reflexivity|absent_markup].
  rewrite (sub_without re_italic_underscore _ (c "_"));
    [|reflexivity|absent_markup].
  rewrite (sub_without re_rule_dash _ (c "-")); [|reflexivity|absent_markup].
  rewrite (sub_without re_rule_equals _ (c "=")); [|reflexivity|absent_markup].
  rewrite (sub_without re_code_block _ (c "`")); [|reflexivity|absent_markup].
  rewrite (sub_without re_code_span _ (c "`")); [|reflexivity|absent_markup].
  apply (sub_without _ _ (c "[")); [reflexivity|absent_markup].
Qed.

Lemma has_3_newlines_tail (x : char) (rest : str) :
  has_3_newlines (x :: rest) = false -> has_3_newlines rest = false.
Proof.
  cbn [has_3_newlines]. intros H. by apply orb_false_iff in H as [_ ?].
Qed.

Lemma no_blank_run_match (bef aft : str) :
  has_3_newlines aft = false -> match_here re_blank_lines bef aft = None.
Proof.
  intros Hno.
  destruct (match_here re_blank_lines bef aft) as [[n m]|] eqn:Hm;
    [|reflexivity].
  apply match_here_shape in Hm as (mid & rest & -> & [Hall Hlen] & _).
  destruct mid as [|x1 [|x2 [|x3 mid]]]; cbn in Hlen; try lia.
  inversion Hall as [|? ? H1 Hall1]; subst.
  inversion Hall1 as [|? ? H2 Hall2]; subst.
  inversion Hall2 as [|? ? H3 _]; subst.
  cbn in H1, H2, H3.
  apply N.eqb_eq in H1 as ->. apply N.eqb_eq in H2 as ->.
  apply N.eqb_eq in H3 as ->. discriminate Hno.
Qed.

Lemma collapse_without_run (text : str) :
  has_3_newlines text = false ->
  sub re_blank_lines (Const [LF; LF]) text = text.
Proof.
  intros Hno. unfold sub, sub_with.
  rewrite (sub_scan_none _ _ _ (fun aft => has_3_newlines aft = false));
    [done | apply has_3_newlines_tail | | done].
  intros bef aft. apply no_blank_run_match.
Qed.

(** ** Where the characters of the output come from *)

Lemma lstrip_chars (x : char) (s : str) : x ∈ lstrip s -> x ∈ s.
Proof.
  intros Hx. destruct (lstrip_suffix s) as (pre & Hs & _).
  rewrite Hs. apply elem_of_app. by right.
Qed.

Lemma strip_chars (x : char) (s : str) : x ∈ strip s -> x ∈ s.
Proof.
  unfold strip, rstrip. intros Hx.
  apply (proj1 (elem_of_rev _ _)), lstrip_chars in Hx.
  apply (proj1 (elem_of_rev _ _)) in Hx. by apply lstrip_chars.
Qed.

Lemma split_chars (sep x : char) (s line : str) :
  line ∈ split sep s -> x ∈ line -> x ∈ s.
Proof.
  revert line. induction s as [|y s IH]; intros line Hline Hx; cbn in Hline.
  - apply list_elem_of_singleton in Hline as ->. done.
  - destruct (N.eqb y sep).
    + apply elem_of_cons in Hline as [->|Hline];
        [by apply elem_of_nil in Hx|].
      right. by eapply IH.
    + destruct (split sep s) as [|l ls].
      * apply list_elem_of_singleton in Hline as ->.
        apply list_elem_of_singleton in Hx as ->. left.
      * apply elem_of_cons in Hline as [->|Hline].
        -- apply elem_of_cons in Hx as [->|Hx]; [left|].
           right. apply (IH l); [left | done].
        -- right. apply (IH line); [by right | done].
Qed.

Lemma split_free (sep : char) (s line : str) :
  line ∈ split sep s -> sep ∉ line.
Proof.
  revert line. induction s as [|y s IH]; intros line Hline Hsep; cbn in Hline.
  - apply list_elem_of_singleton in Hline as ->. by apply elem_of_nil in Hsep.
  - destruct (N.eqb_spec y sep) as [->|Hne].
    + apply elem_of_cons in Hline as [->|Hline];
        [by apply elem_of_nil in Hsep | by eapply IH].
    + destruct (split sep s) as [|l ls].
      * apply list_elem_of_singleton in Hline as ->.
        apply list_elem_of_singleton in Hsep. congruence.
      * apply elem_of_cons in Hline as [->|Hline].
        -- apply elem_of_cons in Hsep as [Heq|Hsep]; [congruence|].
           apply (IH l); [left | done].
        -- apply (IH line); [by right | done].
Qed.

Lemma join_chars (sep : str) (x : char) (parts : list str) :
  x ∈ join sep parts -> x ∈ sep \/ exists part, part ∈ parts /\ x ∈ part.
Proof.
  induction parts as [|part parts IH]; intros Hx; cbn in Hx.
  - by apply elem_of_nil in Hx.
  - destruct parts as [|next parts].
    + right. exists part. split; [left | done].
    + apply elem_of_app in Hx as [Hx|Hx].
      * right. exists part. split; [left | done].
      * apply elem_of_app in Hx as [Hx|Hx]; [by left|].
        destruct (IH Hx) as [Hs|(p & Hp & Hxp)]; [by left|].
        right. exists p. split; [by right | done].
Qed.

Lemma strip_lines_chars (x : char) (text : str) :
  x ∈ strip_lines text -> x = LF \/ x ∈ text.
Proof.
  unfold strip_lines. intros Hx.
  apply join_chars in Hx as [Hx|(part & Hpart & Hx)].
  - left. by apply list_elem_of_singleton in Hx.
  - right. apply list_elem_of_In, in_map_iff in Hpart as (line & <- & Hline).
    apply strip_chars in Hx. eapply split_chars; [|done].
    by apply list_elem_of_In.
Qed.

(** A substitution with a fixed replacement writes characters of the text
    and of the replacement. *)
Lemma sub_scan_chars (r : regex) (t : str) (x : char) :
  forall aft bef skip,
    x ∈ snd (sub_scan r (fun (_ : unit) _ => (tt, t)) tt bef aft skip) ->
    x ∈ aft \/ x ∈ t.
Proof.
  induction aft as [|y rest IH]; intros bef skip Hx.
  - destruct skip; cbn in Hx; [|by apply elem_of_nil in Hx].
    destruct (match_here r bef []) as [[n m]|]; cbn in Hx;
      [by right | by apply elem_of_nil in Hx].
  - destruct skip as [|skip]; cbn in Hx.
    + destruct (match_here r bef (y :: rest)) as [[[|n] m]|].
      * destruct (sub_scan _ _ tt (y :: bef) rest 0) as [[] o] eqn:Hscan.
        cbn in Hx. apply elem_of_app in Hx as [Hx|Hx]; [by right|].
        apply elem_of_cons in Hx as [->|Hx]; [left; left|].
        destruct (IH (y :: bef) 0) as [Hr|Ht];
          [by rewrite Hscan | left; by right | by right].
      * destruct (sub_scan _ _ tt (y :: bef) rest n) as [[] o] eqn:Hscan.
        cbn in Hx. apply elem_of_app in Hx as [Hx|Hx]; [by right|].
        destruct (IH (y :: bef) n) as [Hr|Ht];
          [by rewrite Hscan | left; by right | by right].
      * destruct (sub_scan _ _ tt (y :: bef) rest 0) as [[] o] eqn:Hscan.
        cbn in Hx. apply elem_of_cons in Hx as [->|Hx]; [left; left|].
        destruct (IH (y :: bef) 0) as [Hr|Ht];
          [by rewrite Hscan | left; by right | by right].
    + destruct (IH _ _ Hx) as [Hr|Ht]; [left; by right | by right].
Qed.

(** On a text without markup characters [strip_markdown] only works on
    the white space, and its result has no markup characters either. *)
Lemma plain_strip_markdown (text : str) :
  plain text = true ->
  strip_markdown text
  = strip (strip_lines (sub re_blank_lines (Const [LF; LF]) text))
  /\ plain (strip_markdown text) = true.
Proof.
  intros Hplain.
  assert (strip_markdown text
          = strip (strip_lines (sub re_blank_lines (Const [LF; LF]) text)))
    as Heq.
  { unfold strip_markdown. rewrite plain_extract_math by done.
    by rewrite plain_remove_markdown. }
  split; [exact Heq|]. rewrite Heq.
  unfold plain in *. rewrite forallb_forall in *. intros x Hx.
  apply list_elem_of_In, strip_chars, strip_lines_chars in Hx as [->|Hx];
    [reflexivity|].
  change (sub re_blank_lines (Const [LF; LF]) text)
    with (snd (sub_scan re_blank_lines (fun (_ : unit) _ => (tt, [LF; LF]))
                 tt [] text 0)) in Hx.
  apply sub_scan_chars in Hx as [Hx|Hx].
  - by apply Hplain, list_elem_of_In.
  - apply elem_of_cons in Hx as [->|Hx]; [reflexivity|].
    apply list_elem_of_singleton in Hx as ->. reflexivity.
Qed.

(** ** Lines *)

Lemma clean_strip (line : str) : LF ∉ line -> clean (strip line).
Proof.
  intros Hfree. repeat split.
  - unfold strip. apply rstrip_keeps_lstripped, lstrip_idem.
  - unfold strip, rstrip. rewrite rev_involutive. apply lstrip_idem.
  - intros Hin. by apply Hfree, strip_chars.
Qed.

Lemma clean_rev (line : str) : clean line -> clean (rev line).
Proof.
  intros (Hl & Hr & Hfree). repeat split; [done | by rewrite rev_involutive|].
  intros Hin. by apply Hfree, elem_of_rev.
Qed.

Lemma clean_fixed (line : str) : clean line -> strip line = line.
Proof. intros (Hl & Hr & _). by apply strip_fixed. Qed.

Lemma join_snoc (sep : str) (parts : list str) (last : str) :
  parts <> [] -> join sep (parts ++ [last]) = join sep parts ++ sep ++ last.
Proof.
  induction parts as [|part parts IH]; intros Hne; [done|].
  destruct parts as [|next parts]; [reflexivity|].
  change (join sep ((part :: next :: parts) ++ [last]))
    with (part ++ sep ++ join sep ((next :: parts) ++ [last])).
  rewrite IH by done. cbn [join]. by rewrite <- !app_assoc.
Qed.

Lemma rev_join (parts : list str) :
  rev (join [LF] parts) = join [LF] (map (@rev char) (rev parts)).
Proof.
  induction parts as [|part parts IH]; [reflexivity|].
  destruct parts as [|next parts]; [reflexivity|].
  change (join [LF] (part :: next :: parts))
    with (part ++ [LF] ++ join [LF] (next :: parts)).
  change (rev (part :: next :: parts)) with (rev (next :: parts) ++ [part]).
  assert (map (@rev char) (rev (next :: parts)) <> []) as Hne.
  { intros Hnil. apply (f_equal (@length str)) in Hnil.
    rewrite length_map, length_rev in Hnil. discriminate Hnil. }
  rewrite map_app. cbn [map]. rewrite join_snoc by done.
  rewrite !rev_app_distr. cbn [rev app]. rewrite <- app_assoc.
  f_equal. exact IH.
Qed.

(** Stripping a text of clean lines drops blank lines at its ends. *)
Lemma lstrip_join (parts : list str) :
  Forall clean parts ->
  exists parts',
    Forall clean parts' /\ lstrip (join [LF] parts) = join [LF] parts'.
Proof.
  induction 1 as [|part parts Hpart Hparts IH]; [by exists []|].
  destruct parts as [|next parts].
  - exists [part]. split; [by constructor | apply Hpart].
  - change (join [LF] (part :: next :: parts))
      with (part ++ [LF] ++ join [LF] (next :: parts)).
    destruct part as [|x part].
    + destruct IH as (parts' & Hclean & Heq). by exists parts'.
    + exists ((x :: part) :: next :: parts). split; [by constructor|].
      destruct Hpart as (Hl & _). apply lstrip_head in Hl.
      cbn. by rewrite Hl.
Qed.

Lemma strip_join (parts : list str) :
  Forall clean parts ->
  exists parts',
    Forall clean parts' /\ strip (join [LF] parts) = join [LF] parts'.
Proof.
  intros Hclean. unfold strip, rstrip.
  destruct (lstrip_join parts Hclean) as (parts1 & Hclean1 & ->).
  rewrite rev_join.
  destruct (lstrip_join (map (@rev char) (rev parts1)))
    as (parts2 & Hclean2 & ->).
  { apply Forall_forall. intros line Hline.
    apply list_elem_of_In, in_map_iff in Hline as (line' & <- & Hin).
    apply clean_rev. rewrite Forall_forall in Hclean1.
    apply Hclean1, list_elem_of_In. by apply in_rev. }
  rewrite rev_join. eexists. split; [|reflexivity].
  apply Forall_forall. intros line Hline.
  apply list_elem_of_In, in_map_iff in Hline as (line' & <- & Hin).
  apply clean_rev. rewrite Forall_forall in Hclean2.
  apply Hclean2, list_elem_of_In. by apply in_rev.
Qed.

Lemma split_app (sep : char) (line rest : str) :
  sep ∉ line -> split sep (line ++ sep :: rest) = line :: split sep rest.
Proof.
  induction line as [|x line IH]; intros Hfree; cbn.
  - by rewrite N.eqb_refl.
  - destruct (N.eqb_spec x sep) as [->|Hne]; [exfalso; apply Hfree; left|].
    rewrite IH; [done|]. intros Hin. apply Hfree. by right.
Qed.

Lemma split_line (sep : char) (line : str) :
  sep ∉ line -> split sep line = [line].
Proof.
  induction line as [|x line IH]; intros Hfree; [reflexivity|]. cbn.
  destruct (N.eqb_spec x sep) as [->|Hne]; [exfalso; apply Hfree; left|].
  rewrite IH; [done|]. intros Hin. apply Hfree. by right.
Qed.

Lemma split_join (sep : char) (parts : list str) :
  Forall (fun line => sep ∉ line) parts ->
  parts <> [] ->
  split sep (join [sep] parts) = parts.
Proof.
  induction 1 as [|part parts Hpart Hparts IH]; intros Hne; [done|].
  destruct parts as [|next parts]; [by apply split_line|].
  change (join [sep] (part :: next :: parts))
    with (part ++ sep :: join [sep] (next :: parts)).
  rewrite split_app by done. by rewrite IH.
Qed.

Lemma strip_lines_join (parts : list str) :
  Forall clean parts -> strip_lines (join [LF] parts) = join [LF] parts.
Proof.
  intros Hclean.
  assert (map strip parts = parts) as Hmap.
  { induction Hclean as [|line rest Hline _ IH]; [done|].
    cbn. by rewrite clean_fixed, IH. }
  destruct parts as [|part parts]; [reflexivity|].
  unfold strip_lines. rewrite split_join; [by rewrite Hmap | | done].
  eapply Forall_impl; [exact Hclean|]. by intros line (_ & _ & Hfree).
Qed.

(** What [strip_markdown] returns for a plain text is not changed by
    stripping its lines again. *)
Lemma strip_lines_stable (text : str) :
  strip_lines (strip (strip_lines text)) = strip (strip_lines text).
Proof.
  destruct (strip_join (map strip (split LF text))) as (parts & Hclean & Heq).
  - apply Forall_forall. intros line Hline.
    apply list_elem_of_In, in_map_iff in Hline as (line' & <- & Hin).
    apply clean_strip. eapply split_free. by apply list_elem_of_In.
  - unfold strip_lines at 2 3. rewrite Heq. by apply strip_lines_join.
Qed.

(** ** Normalizing twice *)

(** C2, at the failing input: a text with a math span. The first pass
    loses the formula and leaves the mangled placeholder, which is itself
    markdown for the second pass and loses its last underscores: the two
    passes differ. *)
Theorem formula_not_idempotent :
  strip_markdown (u "$x$") = u "_LATEXINLINE0_"
  /\ strip_markdown (strip_markdown (u "$x$")) = u "LATEXINLINE0"
  /\ strip_markdown (strip_markdown (u "$x$")) <> strip_markdown (u "$x$").
Proof.
  assert (strip_markdown (u "$x$") = u "_LATEXINLINE0_") as H1
    by (vm_compute; reflexivity).
  assert (strip_markdown (strip_markdown (u "$x$")) = u "LATEXINLINE0") as H2
    by (vm_compute; reflexivity).
  split; [exact H1|]. split; [exact H2|]. rewrite H2, H1. discriminate.
Qed.

(** Without any markup, lines of white space stripped to nothing leave
    three line feeds in a row, which only a second pass collapses: the
    runs of line feeds are collapsed before the lines are stripped. *)
Lemma blank_lines_not_idempotent :
  plain (join [LF] [u "a"; u " "; u " "; u "b"]) = true
  /\ strip_markdown (join [LF] [u "a"; u " "; u " "; u "b"])
     = join [LF] [u "a"; []; []; u "b"]
  /\ strip_markdown (strip_markdown (join [LF] [u "a"; u " "; u " "; u "b"]))
     = join [LF] [u "a"; []; u "b"].
Proof. repeat split; vm_compute; reflexivity. Qed.

(** * Further properties *)

Import Views Placeholders.


(** ** The ends of a stripped text *)

Lemma strip_lstripped (s : str) : lstrip (strip s) = strip s.
Proof. unfold strip. apply rstrip_keeps_lstripped, lstrip_idem. Qed.

Lemma strip_rstripped (s : str) : lstrip (rev (strip s)) = rev (strip s).
Proof. unfold strip, rstrip. rewrite rev_involutive. apply lstrip_idem. Qed.

Lemma lstripped_head (s : str) :
  lstrip s = s ->
  match s with [] => True | first :: _ => is_space first = false end.
Proof. destruct s as [|x s]; [done|]. apply lstrip_head. Qed.

(** X1. What [strip_markdown] returns is trimmed, whatever the text: it
    neither starts nor ends with white space, and trimming it changes nothing.
    *)
Theorem normalized_text_is_trimmed (text : str) :
  strip (strip_markdown text) = strip_markdown text
  /\ match strip_markdown text with
     | [] => True
     | first :: _ => is_space first = false
     end
  /\ match rev (strip_markdown text) with
     | [] => True
     | last :: _ => is_space last = false
     end.
Proof.
  unfold strip_markdown. destruct (extract_math text) as [st text'].
  split; [apply strip_idem|]. split.
  - apply lstripped_head, strip_lstripped.
  - apply lstripped_head, strip_rstripped.
Qed.

(** X2. A text without math or markdown characters goes through
    [strip_markdown] unchanged when it is trimmed, its lines are trimmed, and
    it has no three line feeds in a row. *)
Theorem plain_trimmed_lines_unchanged (text : str) :
  plain text = true ->
  has_3_newlines text = false ->
  strip_lines text = text ->
  strip text = text ->
  strip_markdown text = text.
Proof.
  intros Hplain Hrun Hlines Htext.
  destruct (plain_strip_markdown text Hplain) as [-> _].
  by rewrite collapse_without_run, Hlines.
Qed.

Lemma plain_trimmed_lines_unchanged_witness :
  plain (join [LF] [u "Dear all,"; []; u "see you at 10:30."]) = true
  /\ has_3_newlines (join [LF] [u "Dear all,"; []; u "see you at 10:30."])
     = false
  /\ strip_lines (join [LF] [u "Dear all,"; []; u "see you at 10:30."])
     = join [LF] [u "Dear all,"; []; u "see you at 10:30."]
  /\ strip_markdown (join [LF] [u "Dear all,"; []; u "see you at 10:30."])
     = join [LF] [u "Dear all,"; []; u "see you at 10:30."].
Proof.
  split; [reflexivity|]. split; [reflexivity|]. split; [reflexivity|].
  apply plain_trimmed_lines_unchanged; reflexivity.
Defined.

(** ** What segmentation keeps *)

Lemma visible_app (s t : str) : visible (s ++ t) = visible s ++ visible t.
Proof. apply List.filter_app. Qed.

Lemma visible_spaces (s : str) :
  Forall (fun x => is_space x = true) s -> visible s = [].
Proof.
  induction 1 as [|x s Hx _ IH]; [reflexivity|].
  cbn. rewrite Hx. exact IH.
Qed.

Lemma visible_lstrip (s : str) : visible (lstrip s) = visible s.
Proof.
  destruct (lstrip_suffix s) as (pre & Hs & Hpre).
  rewrite Hs at 2. by rewrite visible_app, (visible_spaces pre) by done.
Qed.

Lemma visible_rev (s : str) : visible (rev s) = rev (visible s).
Proof.
  induction s as [|x s IH]; [reflexivity|].
  cbn [rev]. rewrite visible_app, IH. cbn.
  destruct (is_space x); cbn; [by rewrite app_nil_r | reflexivity].
Qed.

Lemma visible_strip (s : str) : visible (strip s) = visible s.
Proof.
  unfold strip, rstrip.
  by rewrite visible_rev, visible_lstrip, visible_rev, rev_involutive,
    visible_lstrip.
Qed.

Lemma visible_stripped_nonempty (parts : list str) :
  visible (concat (stripped_nonempty parts)) = visible (concat parts).
Proof.
  unfold stripped_nonempty.
  induction parts as [|part parts IH]; [reflexivity|].
  cbn [map List.filter concat].
  rewrite (visible_app part), <- IH, <- (visible_strip part).
  destruct (strip part); cbn [nonempty]; [reflexivity|].
  cbn [concat]. by rewrite visible_app.
Qed.

Lemma visible_head (x : char) (ls : list str) (l : str) :
  visible (concat ((x :: l) :: ls)) = visible [x] ++ visible (concat (l :: ls)).
Proof. cbn [concat]. by rewrite <- visible_app. Qed.

Lemma visible_splitlines :
  forall n s, length s <= n -> visible (concat (splitlines s)) = visible s.
Proof.
  induction n as [|n IH]; intros s Hn.
  { destruct s; [reflexivity | cbn in Hn; lia]. }
  destruct s as [|c s]; [reflexivity|].
  cbn in Hn. cbn [splitlines].
  destruct (is_linebreak c) eqn:Hc.
  - apply linebreak_is_space in Hc.
    change (visible (c :: s)) with (visible ([c] ++ s)).
    rewrite visible_app, (visible_spaces [c]) by (by constructor).
    cbn [concat app].
    destruct s as [|d s'']; [reflexivity|].
    destruct (N.eqb c CR && N.eqb d LF)%bool eqn:Hcrlf.
    + apply andb_true_iff in Hcrlf as [_ Hd]. apply N.eqb_eq in Hd as ->.
      rewrite IH by (cbn in Hn; lia).
      change (visible (LF :: s'')) with (visible ([LF] ++ s'')).
      by rewrite visible_app.
    + apply IH. lia.
  - change (visible (c :: s)) with (visible ([c] ++ s)).
    rewrite visible_app, <- (IH s) by lia.
    destruct (splitlines s) as [|l ls].
    + cbn [concat]. by rewrite visible_app.
    + apply visible_head.
Qed.

Lemma visible_split_scan (r : regex) :
  (forall bef aft n m,
     match_here r bef aft = Some (n, m) ->
     Forall (fun y => is_space y = true) (take n aft)) ->
  forall aft cur bef skip,
    Forall (fun y => is_space y = true) (take skip aft) ->
    visible (concat (split_scan r cur bef aft skip))
    = visible (rev cur) ++ visible aft.
Proof.
  intros Hsep.
  assert (forall cur : str,
            visible (concat [rev cur]) = visible (rev cur) ++ visible [])
    as Hlast.
  { intros cur. cbn [concat]. by rewrite visible_app. }
  induction aft as [|c rest IH]; intros cur bef skip Hskip.
  - destruct skip; cbn [split_scan]; [|apply Hlast].
    destruct (match_here r bef []) as [[[|n] m]|]; apply Hlast.
  - assert (visible (concat (split_scan r (c :: cur) (c :: bef) rest 0))
            = visible (rev cur) ++ visible (c :: rest)) as Hcopy.
    { rewrite IH by (by rewrite take_0). cbn [rev].
      rewrite visible_app, <- app_assoc. f_equal.
      change (c :: rest) with ([c] ++ rest). by rewrite visible_app. }
    destruct skip as [|skip]; cbn [split_scan].
    + destruct (match_here r bef (c :: rest)) as [[[|n] m]|] eqn:Hm;
        try exact Hcopy.
      apply Hsep in Hm. cbn in Hm. inversion Hm as [|? ? Hc Hn]; subst.
      cbn [concat]. rewrite visible_app, IH by done. cbn [rev app].
      f_equal. change (c :: rest) with ([c] ++ rest).
      by rewrite visible_app, (visible_spaces [c]) by (by constructor).
    + cbn in Hskip. inversion Hskip as [|? ? Hc Hn]; subst.
      rewrite IH by done. f_equal.
      change (c :: rest) with ([c] ++ rest).
      by rewrite visible_app, (visible_spaces [c]) by (by constructor).
Qed.

Lemma visible_line_units (text : str) :
  visible (concat (line_units text)) = visible text.
Proof.
  unfold line_units.
  by rewrite visible_stripped_nonempty, (visible_splitlines (length text)).
Qed.

Lemma visible_sentence_units (text : str) :
  visible (concat (sentence_units text)) = visible text.
Proof.
  unfold sentence_units, re_split.
  rewrite visible_stripped_nonempty.
  rewrite (visible_split_scan _ sentence_end_is_space) by (by rewrite take_0).
  reflexivity.
Qed.

Lemma visible_split_into_units (text : str) :
  visible (concat (split_into_units text)) = visible text.
Proof.
  unfold split_into_units.
  pose proof (visible_line_units text) as Hlines.
  pose proof (visible_sentence_units text) as Hsentences.
  destruct (contains LF text).
  - destruct (line_units text) as [|unit units]; [|exact Hlines].
    destruct (sentence_units text) as [|unit units]; [|exact Hsentences].
    cbn [concat]. by rewrite app_nil_r.
  - destruct (sentence_units text) as [|unit units]; [|exact Hsentences].
    cbn [concat]. by rewrite app_nil_r.
Qed.

(** X3. Segmentation moves no character and loses only white space: the units
    of a text, one after the other, have the characters of the text that are
    not white space, in the order of the text; so have the units a request is
    translated from, with respect to the normalized text. *)
Theorem units_keep_visible_text (text : str) :
  visible (concat (split_into_units text)) = visible text
  /\ visible (concat (request_units text)) = visible (strip_markdown text).
Proof.
  split; [apply visible_split_into_units|].
  unfold request_units, valid_units.
  by rewrite visible_stripped_nonempty, visible_split_into_units.
Qed.

(** A line of [splitlines] has no line boundary in it. *)
Lemma splitlines_lines (x : char) :
  forall n s line,
    length s <= n -> line ∈ splitlines s -> x ∈ line ->
    is_linebreak x = false.
Proof.
  induction n as [|n IH]; intros s line Hn Hline Hx.
  { destruct s; [by apply elem_of_nil in Hline | cbn in Hn; lia]. }
  destruct s as [|c s]; [by apply elem_of_nil in Hline|].
  cbn in Hn. cbn [splitlines] in Hline.
  destruct (is_linebreak c) eqn:Hc.
  - apply elem_of_cons in Hline as [->|Hline]; [by apply elem_of_nil in Hx|].
    destruct s as [|d s'']; [by apply elem_of_nil in Hline|].
    destruct (N.eqb c CR && N.eqb d LF)%bool.
    + eapply IH; [|done|done]. cbn in Hn. lia.
    + eapply IH; [|done|done]. lia.
  - destruct (splitlines s) as [|l ls] eqn:Hs.
    + apply list_elem_of_singleton in Hline as ->.
      by apply list_elem_of_singleton in Hx as ->.
    + apply elem_of_cons in Hline as [->|Hline].
      * apply elem_of_cons in Hx as [->|Hx]; [done|].
        eapply (IH s l); [lia | rewrite Hs; left | done].
      * eapply (IH s line); [lia | rewrite Hs; by right | done].
Qed.

(** X4. One line, one unit: when the text has a line feed and a character that
    is not white space, every unit lies within one line: it has no line
    boundary in it, whichever of the boundaries of [splitlines]. *)
Theorem unit_is_within_one_line (text unit : str) (x : char) :
  contains LF text = true ->
  strip text <> [] ->
  unit ∈ split_into_units text ->
  x ∈ unit ->
  is_linebreak x = false.
Proof.
  intros HLF Hne Hunit Hx. unfold split_into_units in Hunit.
  rewrite HLF in Hunit.
  pose proof (line_units_nonempty text Hne) as Hlines.
  destruct (line_units text) as [|first others] eqn:Heq; [done|].
  rewrite <- Heq in Hunit. unfold line_units, stripped_nonempty in Hunit.
  apply list_elem_of_In, filter_In in Hunit as [Hunit _].
  apply in_map_iff in Hunit as (line & <- & Hline).
  apply strip_chars in Hx.
  eapply (splitlines_lines x (length text)); [done | | done].
  by apply list_elem_of_In.
Qed.

Lemma unit_is_within_one_line_witness :
  contains LF (u "Title" ++ [CR; LF] ++ u "Body text.") = true
  /\ strip (u "Title" ++ [CR; LF] ++ u "Body text.") <> []
  /\ split_into_units (u "Title" ++ [CR; LF] ++ u "Body text.")
     = [u "Title"; u "Body text."]
  /\ forall unit x,
       unit ∈ split_into_units (u "Title" ++ [CR; LF] ++ u "Body text.") ->
       x ∈ unit -> is_linebreak x = false.
Proof.
  split; [reflexivity|]. split; [discriminate|]. split; [reflexivity|].
  intros unit x.
  apply (unit_is_within_one_line (u "Title" ++ [CR; LF] ++ u "Body text."));
    [reflexivity | discriminate].
Defined.

(** ** A text of one sentence *)

Lemma sentence_end_needs_break (bef aft : str) :
  one_sentence (rev bef ++ aft) -> match_here re_sentence_end bef aft = None.
Proof.
  intros Hone. unfold match_here, re_sentence_end. cbn [cat foldr rmatch].
  cbn [before after group1 rev app].
  destruct bef as [|x bef]; [reflexivity|].
  cbn [look]. rewrite andb_true_r.
  destruct (cc_match (COneOf (u ".!?")) x) eqn:Hx; [|reflexivity].
  cbn [eqb]. apply existsb_elem_of in Hx.
  destruct aft as [|y rest]; [reflexivity|].
  assert (is_space y = false) as Hy.
  { apply (Hone (rev bef) x y rest); [|done].
    cbn [rev]. by rewrite <- app_assoc. }
  unfold plus. cbn [rmatch rep cc_match before after group1]. by rewrite Hy.
Qed.

Lemma split_scan_one_sentence :
  forall aft cur bef,
    one_sentence (rev bef ++ aft) ->
    split_scan re_sentence_end cur bef aft 0 = [rev cur ++ aft].
Proof.
  induction aft as [|x rest IH]; intros cur bef Hone.
  - cbn [split_scan]. rewrite sentence_end_needs_break by done.
    by rewrite app_nil_r.
  - cbn [split_scan]. rewrite sentence_end_needs_break by done.
    rewrite IH; [cbn [rev]; by rewrite <- app_assoc|].
    cbn [rev]. by rewrite <- app_assoc.
Qed.

Lemma no_sentence_break (text : str) :
  has_sentence_break text = false -> one_sentence text.
Proof.
  intros Hno pre. revert text Hno.
  induction pre as [|z pre IH]; intros text Hno x y post -> Hx.
  - cbn [app has_sentence_break] in Hno.
    apply orb_false_iff in Hno as [Hno _].
    apply existsb_elem_of in Hx. rewrite Hx in Hno. exact Hno.
  - refine (IH (pre ++ x :: y :: post) _ x y post eq_refl Hx).
    cbn [app has_sentence_break] in Hno.
    by apply orb_false_iff in Hno as [_ Hno].
Qed.

(** X5. A text without a line feed in which no full stop, exclamation mark or
    question mark is followed by white space is one unit: the text, trimmed
    (and as it is when it is blank). *)
Theorem one_sentence_is_one_unit (text : str) :
  contains LF text = false ->
  has_sentence_break text = false ->
  split_into_units text
  = [if nonempty (strip text) then strip text else text].
Proof.
  intros HLF Hone. apply no_sentence_break in Hone.
  unfold split_into_units. rewrite HLF.
  unfold sentence_units, re_split.
  rewrite split_scan_one_sentence by done.
  unfold stripped_nonempty. cbn [rev app map List.filter].
  by destruct (strip text).
Qed.

Lemma one_sentence_is_one_unit_witness :
  contains LF (u " Is version 2.5 out?") = false
  /\ has_sentence_break (u " Is version 2.5 out?") = false
  /\ split_into_units (u " Is version 2.5 out?") = [u "Is version 2.5 out?"].
Proof.
  split; [reflexivity|]. split; [reflexivity|].
  exact (one_sentence_is_one_unit (u " Is version 2.5 out?") eq_refl eq_refl).
Defined.

(** ** Requests without units *)

Lemma stripped_nonempty_fixed (units : list str) :
  Forall (fun unit => unit <> [] /\ strip unit = unit) units ->
  stripped_nonempty units = units.
Proof.
  unfold stripped_nonempty.
  induction 1 as [|unit units [Hne Hfix] _ IH]; [reflexivity|].
  cbn [map List.filter]. rewrite Hfix, IH. by destruct unit.
Qed.

Lemma split_into_units_trimmed (text : str) :
  strip text <> [] ->
  Forall (fun unit => unit <> [] /\ strip unit = unit) (split_into_units text).
Proof.
  intros Hne. unfold split_into_units.
  pose proof (line_units_nonempty text Hne) as Hlines.
  pose proof (sentence_units_nonempty text Hne) as Hsentences.
  destruct (contains LF text).
  - destruct (line_units text) as [|unit units] eqn:Heq; [done|].
    rewrite <- Heq. apply stripped_nonempty_spec.
  - destruct (sentence_units text) as [|unit units] eqn:Heq; [done|].
    rewrite <- Heq. apply stripped_nonempty_spec.
Qed.

Lemma strip_markdown_trimmed (text : str) :
  strip (strip_markdown text) = strip_markdown text.
Proof.
  unfold strip_markdown. destruct (extract_math text) as [st text'].
  apply strip_idem.
Qed.

(** Filtering the units again, as [translate] does, changes nothing
    unless the normalized text is empty, and then removes the only unit. *)
Lemma request_units_cases (text : str) :
  request_units text
  = match strip_markdown text with
    | [] => []
    | _ :: _ => split_into_units (strip_markdown text)
    end.
Proof.
  unfold request_units. pose proof (strip_markdown_trimmed text) as Htrim.
  destruct (strip_markdown text) as [|x rest] eqn:Heq; [reflexivity|].
  apply stripped_nonempty_fixed, split_into_units_trimmed.
  by rewrite Htrim.
Qed.

Lemma request_units_nil (text : str) :
  request_units text = [] <-> strip_markdown text = [].
Proof.
  rewrite request_units_cases.
  destruct (strip_markdown text) as [|x rest] eqn:Heq; [done|].
  split; [|done]. intros Hnil.
  by apply split_into_units_nonempty in Hnil.
Qed.

(** X6. A request is without units exactly when normalizing leaves nothing of
    its text; otherwise its units are the units of the normalized text and
    filtering them again changes nothing. [translate] then answers "No valid
    sentences found in input text", never "No sentences found in input text";
    [translate_stream] writes one error event, with the latter text. *)
Theorem no_unit_iff_nothing_left (w : world) (dev : device) (cpu_count : Z)
    (order : list nat) (text : str) (batch_size : option Z) :
  request_units text
  = match strip_markdown text with
    | [] => []
    | _ :: _ => split_into_units (strip_markdown text)
    end
  /\ (translate w dev cpu_count order text batch_size
      = Returned (Failure "No valid sentences found in input text")
      <-> strip_markdown text = [])
  /\ translate w dev cpu_count order text batch_size
     <> Returned (Failure "No sentences found in input text")
  /\ (translate_stream (run w) dev cpu_count text batch_size
      = ([StreamError "No sentences found in input text"], None)
      <-> strip_markdown text = []).
Proof.
  split; [apply request_units_cases|].
  rewrite <- request_units_nil. split; [|split].
  - rewrite translate_units.
    destruct (request_units text) as [|first others]; cbv zeta; [done|].
    destruct (_ =? _)%Z; [done|].
    by destruct (run_batches _ _ _ _ _ _) as [[|t ts]|].
  - rewrite translate_units.
    destruct (request_units text) as [|first others]; cbv zeta; [done|].
    destruct (_ =? _)%Z; [done|].
    by destruct (run_batches _ _ _ _ _ _) as [[|t ts]|].
  - unfold translate_stream. fold (request_units text).
    destruct (request_units text) as [|first others]; [done|].
    destruct (_ =? _)%Z; [done|]. cbv zeta.
    destruct (translated_sentences _) as [|t ts].
    + split; [|done]. intros [= Heq].
      destruct (stdout _); [discriminate Heq|].
      by destruct l.
    + split; [|done]. intros [= Heq].
      destruct (stdout _); [discriminate Heq|].
      by destruct l.
Qed.

(** ** The batches of a request *)

Lemma submit_batches (units : list str) (p : positive) :
  submit units (Pos.to_nat p) (batch_starts (length units) (Zpos p))
  = map (fun k => (k, batch_of units (Pos.to_nat p) k))
      (seq 0 (batch_count units (Zpos p))).
Proof.
  pose proof (batch_size_pos p) as Hb.
  rewrite batch_count_pos, batch_starts_pos. unfold submit.
  rewrite map_map. apply map_ext. intros k.
  by rewrite Nat.div_mul by lia.
Qed.

(** X7. The batches submitted for a positive batch size are numbered 0, 1, ...
    in order, none is empty, none has more units than the batch size, and one
    after the other they are the units: every unit is in exactly one batch, at
    its place. There are as many result slots as batches. *)
Theorem batches_cover_units (units : list str) (batch_size : Z) :
  (0 < batch_size)%Z ->
  concat (map snd (submit units (Z.to_nat batch_size)
                     (batch_starts (length units) batch_size)))
  = units
  /\ map fst (submit units (Z.to_nat batch_size)
                (batch_starts (length units) batch_size))
     = seq 0 (batch_count units batch_size)
  /\ Forall (fun batch => 0 < length batch <= Z.to_nat batch_size)
       (map snd (submit units (Z.to_nat batch_size)
                   (batch_starts (length units) batch_size)))
  /\ total_batches (length units) batch_size
     = Z.of_nat (batch_count units batch_size).
Proof.
  intros Hpos. destruct batch_size as [|p|p]; try lia.
  change (Z.to_nat (Z.pos p)) with (Pos.to_nat p).
  rewrite submit_batches, !map_map. cbn [fst snd].
  split; [|split; [|split]].
  - rewrite batch_count_pos. apply batches_partition.
  - apply map_id.
  - apply Forall_forall. intros batch Hin.
    apply list_elem_of_In, in_map_iff in Hin as (k & <- & Hk).
    apply in_seq in Hk. rewrite batch_count_pos in Hk. split.
    + apply batch_of_length. lia.
    + unfold batch_of, slice. rewrite length_take. lia.
  - by rewrite batch_count_pos, total_batches_pos.
Qed.

Lemma batches_cover_units_witness :
  (0 < 2)%Z
  /\ map snd (submit (request_units five_lines) 2
                (batch_starts (length (request_units five_lines)) 2))
     = [[u "a"; u "b"]; [u "c"; u "d"]; [u "e"]]
  /\ concat (map snd (submit (request_units five_lines) 2
                        (batch_starts (length (request_units five_lines)) 2)))
     = request_units five_lines.
Proof.
  split; [lia|]. split; [reflexivity|].
  exact (proj1 (batches_cover_units (request_units five_lines) 2 eq_refl)).
Defined.

(** X8. A request with no more units than the batch size is one batch with all
    the units, processed inline on every device. *)
Theorem small_request_is_one_batch (w : world) (dev : device) (cpu_count : Z)
    (order : list nat) (units : list str) (batch_size : Z) :
  0 < length units ->
  (Z.of_nat (length units) <= batch_size)%Z ->
  batch_starts (length units) batch_size = [0]
  /\ slice units 0 (0 + Z.to_nat batch_size) = units
  /\ use_parallel_batches dev cpu_count
       (total_batches (length units) batch_size) = false
  /\ run_batches w dev cpu_count order units batch_size
     = if crashes w 0 0 then None
       else Some (snd (snd (process_batch (run w) dev units 0))).
Proof.
  intros Hsome Hfit. destruct batch_size as [|p|p]; try lia.
  pose proof (batch_size_pos p) as Hb.
  assert ((length units + Pos.to_nat p - 1) / Pos.to_nat p = 1) as Hone.
  { symmetry. apply (Nat.div_unique _ _ 1 (length units - 1)); lia. }
  assert (batch_starts (length units) (Z.pos p) = [0]) as Hstarts
    by (by rewrite batch_starts_pos, Hone).
  assert (slice units 0 (0 + Z.to_nat (Z.pos p)) = units) as Hslice.
  { unfold slice. rewrite drop_0. apply take_ge. lia. }
  assert (use_parallel_batches dev cpu_count
            (total_batches (length units) (Z.pos p)) = false) as Hpar.
  { rewrite total_batches_pos, Hone. unfold use_parallel_batches.
    by rewrite andb_false_r. }
  split; [exact Hstarts|]. split; [exact Hslice|]. split; [exact Hpar|].
  unfold run_batches. rewrite Hpar, Hstarts. cbn [run_sequential].
  rewrite Hslice, Nat.Div0.div_0_l.
  cbn [Nat.add Nat.sub app].
  destruct (crashes w 0 0); [reflexivity|].
  by destruct (snd (process_batch (run w) dev units 0)).
Qed.

Lemma small_request_is_one_batch_witness :
  0 < length (request_units five_lines)
  /\ (Z.of_nat (length (request_units five_lines)) <= 6)%Z
  /\ run_batches (World marking_engine never) Cpu 8 []
       (request_units five_lines) 6
     = Some (map (fun s => u "T:" ++ s) (request_units five_lines)).
Proof.
  assert (0 < length (request_units five_lines)) as Hsome
    by (vm_compute; lia).
  assert (Z.of_nat (length (request_units five_lines)) <= 6)%Z as Hfit
    by (vm_compute; discriminate).
  split; [exact Hsome|]. split; [exact Hfit|].
  destruct (small_request_is_one_batch (World marking_engine never) Cpu 8 []
              (request_units five_lines) 6 Hsome Hfit) as (_ & _ & _ & ->).
  reflexivity.
Defined.

(** ** A negative batch size *)

Lemma collect_nothing (w : world) (dev : device) (units : list str) (b : nat)
    (order : list nat) (slots : list (option (list str))) :
  collect w dev units b [] order slots = slots.
Proof. induction order as [|pos rest IH]; [reflexivity | exact IH]. Qed.

Lemma combine_unfilled (n : nat) : combine_results (replicate n None) = [].
Proof. induction n as [|n IH]; [reflexivity | exact IH]. Qed.

Lemma run_batches_negative (w : world) (dev : device) (cpu_count : Z)
    (order : list nat) (units : list str) (p : positive) :
  run_batches w dev cpu_count order units (Zneg p) = Some [].
Proof.
  unfold run_batches. cbn [batch_starts].
  destruct (use_parallel_batches _ _ _); [|reflexivity].
  unfold run_parallel. cbn [submit map].
  by rewrite collect_nothing, combine_unfilled.
Qed.

(** X9. With a negative batch size the range of batch starts is empty on
    either path: no unit is sent to the engine, and a request that has units
    is answered "All translation sentences failed" by [translate] and by
    [translate_stream], whatever the engine and the device. *)
Theorem negative_batch_size_fails (w : world) (dev : device) (cpu_count : Z)
    (order : list nat) (text : str) (batch_size : Z) :
  (batch_size < 0)%Z ->
  request_units text <> [] ->
  translate w dev cpu_count order text (Some batch_size)
  = Returned (Failure all_failed)
  /\ translate_stream (run w) dev cpu_count text (Some batch_size)
     = ([StreamError all_failed], None).
Proof.
  intros Hneg Hunits. destruct batch_size as [|p|p]; try lia. split.
  - rewrite translate_units.
    destruct (request_units text) as [|first others]; [done|].
    cbn [effective_batch_size]. cbv zeta.
    change (Z.neg p =? 0)%Z with false. cbv iota.
    by rewrite run_batches_negative.
  - unfold translate_stream. fold (request_units text).
    by destruct (request_units text) as [|first others].
Qed.

Lemma negative_batch_size_fails_witness :
  (-3 < 0)%Z
  /\ request_units five_lines <> []
  /\ translate (World marking_engine never) Cpu 8 [] five_lines (Some (-3)%Z)
     = Returned (Failure all_failed).
Proof.
  assert (request_units five_lines <> []) as Hne by (vm_compute; discriminate).
  split; [lia|]. split; [exact Hne|].
  exact (proj1 (negative_batch_size_fails (World marking_engine never) Cpu 8
                  [] five_lines (-3) eq_refl Hne)).
Defined.

(** ** Executions that raise *)

Lemma run_sequential_crash (w : world) (dev : device) (units : list str)
    (p : positive)
    (k : nat) :
  crashes w k 0 = true ->
  forall count start done,
    start <= k < start + count ->
    run_sequential w dev units (Pos.to_nat p)
      (map (fun k => k * Pos.to_nat p) (seq start count)) done
    = None.
Proof.
  intros Hk. pose proof (batch_size_pos p) as Hb.
  induction count as [|count IH]; intros start done Hin; [lia|].
  cbn [seq map run_sequential].
  replace (start * Pos.to_nat p / Pos.to_nat p + 1 - 1) with start
    by (rewrite Nat.div_mul by lia; lia).
  destruct (crashes w start 0) eqn:Hstart; [reflexivity|].
  destruct (snd (process_batch _ _ _ start)) as [idx translations].
  apply IH. destruct (decide (k = start)) as [->|Hne]; [congruence | lia].
Qed.

(** X10. The sequential loop has no second attempt: when an execution of
    [process_batch] raises there, the exception ends [translate]. *)
Theorem sequential_crash_aborts (w : world) (dev : device) (cpu_count : Z)
    (order : list nat) (text : str) (batch_size : Z) (k : nat) :
  (0 < batch_size)%Z ->
  use_parallel_batches dev cpu_count
    (total_batches (length (request_units text)) batch_size) = false ->
  k < batch_count (request_units text) batch_size ->
  crashes w k 0 = true ->
  translate w dev cpu_count order text (Some batch_size) = Raised "Exception".
Proof.
  intros Hpos Hpar Hk Hcrash. destruct batch_size as [|p|p]; try lia.
  rewrite translate_units.
  destruct (request_units text) as [|first others] eqn:Hunits.
  { pose proof (batch_size_pos p). rewrite batch_count_pos in Hk.
    cbn [length] in Hk. rewrite Nat.div_small in Hk; lia. }
  cbn [effective_batch_size]. cbv zeta.
  change (Z.pos p =? 0)%Z with false. cbv iota.
  unfold run_batches. rewrite Hpar.
  change (Z.to_nat (Z.pos p)) with (Pos.to_nat p).
  rewrite batch_starts_pos, (run_sequential_crash w dev _ p k Hcrash); [done|].
  rewrite batch_count_pos in Hk. lia.
Qed.

Lemma sequential_crash_aborts_witness :
  (0 < 2)%Z
  /\ use_parallel_batches Cuda 8
       (total_batches (length (request_units five_lines)) 2) = false
  /\ 1 < batch_count (request_units five_lines) 2
  /\ once_on 1 1 0 = true
  /\ translate (World marking_engine (once_on 1)) Cuda 8 [] five_lines
       (Some 2%Z)
     = Raised "Exception".
Proof.
  assert (1 < batch_count (request_units five_lines) 2) as Hk
    by (vm_compute; lia).
  split; [lia|]. split; [reflexivity|]. split; [exact Hk|].
  split; [reflexivity|].
  exact (sequential_crash_aborts (World marking_engine (once_on 1)) Cuda 8 []
           five_lines 2 1 eq_refl eq_refl Hk eq_refl).
Defined.

(** X11. In the concurrent path a batch whose submitted execution raised is
    processed again inline: as long as no batch raises both times, the slots
    combined are the translations of all the batches in order, as if nothing
    had raised, and so is the answer of [translate]. *)
Theorem fallback_rerun_masks_failure (w : world) (dev : device)
    (cpu_count : Z) (order : list nat) (units : list str) (batch_size : Z) :
  (0 < batch_size)%Z ->
  use_parallel_batches dev cpu_count
    (total_batches (length units) batch_size) = true ->
  order ≡ₚ seq 0 (batch_count units batch_size) ->
  (forall k, k < batch_count units batch_size ->
             crashes w k 0 && crashes w k 1 = false) ->
  run_batches w dev cpu_count order units batch_size
  = Some (concat (map (translations_of w dev units (Z.to_nat batch_size))
                      (seq 0 (batch_count units batch_size))))
  /\ run_batches w dev cpu_count order units batch_size
     = run_batches (World (run w) never) dev cpu_count order units batch_size
  /\ forall text,
       request_units text = units ->
       translate w dev cpu_count order text (Some batch_size)
       = translate (World (run w) never) dev cpu_count order text
           (Some batch_size).
Proof.
  intros Hpos Hpar Hperm Hok. destruct batch_size as [|p|p]; try lia.
  change (Z.to_nat (Z.pos p)) with (Pos.to_nat p).
  assert (run_batches w dev cpu_count order units (Z.pos p)
          = Some (concat (map (translations_of w dev units (Pos.to_nat p))
                            (seq 0 (batch_count units (Z.pos p))))))
    as Hrun.
  { unfold run_batches. rewrite Hpar.
    change (Z.to_nat (Z.pos p)) with (Pos.to_nat p).
    rewrite batch_count_pos in *.
    rewrite run_parallel_outcomes by done. do 2 f_equal.
    apply map_ext_in. intros k Hk. apply in_seq in Hk.
    unfold slot_of. by rewrite Hok by lia. }
  assert (run_batches w dev cpu_count order units (Z.pos p)
          = run_batches (World (run w) never) dev cpu_count order units
              (Z.pos p)) as Hsame.
  { rewrite (run_batches_sequential (World (run w) never) dev cpu_count
               order units p); [exact Hrun | by intros k attempt | done]. }
  split; [exact Hrun|]. split; [exact Hsame|].
  intros text <-. rewrite !translate_units.
  destruct (request_units text) as [|first others]; [done|].
  cbn [effective_batch_size]. cbv zeta. by rewrite Hsame.
Qed.

Lemma fallback_rerun_masks_failure_witness :
  (0 < 2)%Z
  /\ use_parallel_batches Cpu 8
       (total_batches (length (request_units five_lines)) 2) = true
  /\ [2; 0; 1] ≡ₚ seq 0 (batch_count (request_units five_lines) 2)
  /\ (forall k, k < batch_count (request_units five_lines) 2 ->
                once_on 1 k 0 && once_on 1 k 1 = false)
  /\ translate (World marking_engine (once_on 1)) Cpu 8 [2; 0; 1] five_lines
       (Some 2%Z)
     = translate (World marking_engine never) Cpu 8 [2; 0; 1] five_lines
         (Some 2%Z).
Proof.
  assert ([2; 0; 1] ≡ₚ seq 0 (batch_count (request_units five_lines) 2))
    as Hperm.
  { change (seq 0 _) with [0; 1; 2].
    etransitivity; [apply perm_swap|]. apply perm_skip, perm_swap. }
  assert (forall k, k < batch_count (request_units five_lines) 2 ->
                    once_on 1 k 0 && once_on 1 k 1 = false) as Hok.
  { intros k _. unfold once_on. cbn. by rewrite andb_false_r, andb_false_r. }
  split; [lia|]. split; [reflexivity|]. split; [exact Hperm|].
  split; [exact Hok|].
  destruct (fallback_rerun_masks_failure (World marking_engine (once_on 1))
              Cpu 8 [2; 0; 1] (request_units five_lines) 2
              eq_refl eq_refl Hperm Hok) as (_ & _ & Htranslate).
  exact (Htranslate five_lines eq_refl).
Defined.

(** ** One translation per unit *)

Lemma concat_lengths (f g : nat -> list str) (ks : list nat) :
  (forall k, length (f k) = length (g k)) ->
  length (concat (map f ks)) = length (concat (map g ks)).
Proof.
  intros Hfg. induction ks as [|k ks IH]; [reflexivity|].
  cbn. by rewrite !length_app, Hfg, IH.
Qed.

(** X12. With an engine that answers a batch with one text per unit and no
    execution raising, a request with units succeeds on either path: the
    list [translate] builds is the texts [process_batch] returns for the
    batches in order, it has exactly one text per unit, and the answer is
    this list joined by spaces. *)
Theorem one_translation_per_unit (w : world) (dev : device) (cpu_count : Z)
    (order : list nat) (text : str) (batch_size : Z) :
  one_per_unit (run w) ->
  no_crash w ->
  (0 < batch_size)%Z ->
  order ≡ₚ seq 0 (batch_count (request_units text) batch_size) ->
  request_units text <> [] ->
  exists translated_sentences,
    run_batches w dev cpu_count order (request_units text) batch_size
    = Some translated_sentences
    /\ translated_sentences
       = concat (map (translations_of w dev (request_units text)
                        (Z.to_nat batch_size))
                     (seq 0 (batch_count (request_units text) batch_size)))
    /\ (forall k,
          length (translations_of w dev (request_units text)
                    (Z.to_nat batch_size) k)
          = length (batch_of (request_units text) (Z.to_nat batch_size) k))
    /\ length translated_sentences = length (request_units text)
    /\ translate w dev cpu_count order text (Some batch_size)
       = Returned (Success (join SPACE translated_sentences)).
Proof.
  intros Hone Hok Hpos Hperm Hunits. destruct batch_size as [|p|p]; try lia.
  change (Z.to_nat (Z.pos p)) with (Pos.to_nat p).
  exists (concat (map (translations_of w dev (request_units text)
                         (Pos.to_nat p))
                    (seq 0 (batch_count (request_units text) (Z.pos p))))).
  assert (length (concat (map (translations_of w dev (request_units text)
                                 (Pos.to_nat p))
                            (seq 0 (batch_count (request_units text)
                                      (Z.pos p)))))
          = length (request_units text)) as Hlen.
  { rewrite (concat_lengths _ (batch_of (request_units text) (Pos.to_nat p)))
      by (intros k; by apply translations_of_length).
    by rewrite batch_count_pos, batches_partition. }
  split; [by apply run_batches_sequential|].
  split; [reflexivity|].
  split; [intros k; by apply translations_of_length|].
  split; [exact Hlen|].
  rewrite translate_units.
  destruct (request_units text) as [|first others] eqn:Heq; [done|].
  cbn [effective_batch_size]. cbv zeta.
  change (Z.pos p =? 0)%Z with false. cbv iota.
  rewrite run_batches_sequential by done.
  destruct (concat _) as [|t ts]; [discriminate Hlen | reflexivity].
Qed.

Lemma one_translation_per_unit_witness :
  one_per_unit marking_engine
  /\ no_crash (World marking_engine never)
  /\ (0 < 2)%Z
  /\ [2; 0; 1] ≡ₚ seq 0 (batch_count (request_units five_lines) 2)
  /\ request_units five_lines <> []
  /\ exists translated_sentences,
       run_batches (World marking_engine never) Cpu 8 [2; 0; 1]
         (request_units five_lines) 2
       = Some translated_sentences
       /\ length translated_sentences = length (request_units five_lines)
       /\ translate (World marking_engine never) Cpu 8 [2; 0; 1] five_lines
            (Some 2%Z)
          = Returned (Success (join SPACE translated_sentences)).
Proof.
  assert (no_crash (World marking_engine never)) as Hok
    by (intros k attempt; reflexivity).
  assert ([2; 0; 1] ≡ₚ seq 0 (batch_count (request_units five_lines) 2))
    as Hperm.
  { change (seq 0 _) with [0; 1; 2].
    etransitivity; [apply perm_swap|]. apply perm_skip, perm_swap. }
  assert (request_units five_lines <> []) as Hne by (vm_compute; discriminate).
  split; [exact marking_engine_one_per_unit|]. split; [exact Hok|].
  split; [lia|]. split; [exact Hperm|]. split; [exact Hne|].
  destruct (one_translation_per_unit (World marking_engine never) Cpu 8
              [2; 0; 1] five_lines 2 marking_engine_one_per_unit Hok eq_refl
              Hperm Hne)
    as (translated_sentences & Hrun & _ & _ & Hlen & Htranslate).
  exists translated_sentences. auto.
Defined.

(** ** One text per unit of a batch *)

Lemma retry_sentence_each (e : engine) (dev : device) (batch : list str) :
  Forall2
    (fun unit text =>
       match e (TranslateOne unit (adaptive_max_length (length unit / 4))
                  (retry_decoding dev)) with
       | Some (first :: _) => text = strip first
       | _ => text = unit
       end)
    batch (map (retry_sentence e dev) batch).
Proof.
  induction batch as [|unit batch IH]; [constructor|].
  cbn [map]. constructor; [|exact IH].
  unfold retry_sentence, retry_call.
  by destruct (e _) as [[|first others]|].
Qed.

(** X13. [process_batch] returns the batch number it was given, and one text
    per unit of the batch when the engine answers a batch with one text per
    unit or raises on the batch. When the batch call raises, every unit is
    sent to the engine alone, with the decode length of its own tier: its
    text is the first text decoded for it, trimmed, when there is one, and
    the unit itself when that call raises or decodes nothing. *)
Theorem process_batch_returns_one_text_per_unit (e : engine) (dev : device)
    (batch : list str) (batch_idx : nat) :
  one_per_unit e ->
  fst (snd (process_batch e dev batch batch_idx)) = batch_idx
  /\ length (snd (snd (process_batch e dev batch batch_idx))) = length batch
  /\ ((forall max_length,
         e (TranslateBatch batch max_length (batch_decoding dev)) = None) ->
      Forall2
        (fun unit text =>
           match e (TranslateOne unit (adaptive_max_length (length unit / 4))
                      (retry_decoding dev)) with
           | Some (first :: _) => text = strip first
           | _ => text = unit
           end)
        batch (snd (snd (process_batch e dev batch batch_idx)))).
Proof.
  intros Hone.
  destruct (process_batch_cardinality e dev batch batch_idx Hone)
    as (translations & Heq & Hlen).
  rewrite Heq. cbn [fst snd]. split; [reflexivity|]. split; [exact Hlen|].
  intros Hraises.
  assert (translations = map (retry_sentence e dev) batch) as ->.
  { unfold process_batch in Heq.
    destruct (max_batch_length batch) as [m|].
    - rewrite Hraises in Heq. cbn in Heq. by injection Heq as <-.
    - cbn in Heq. by injection Heq as <-. }
  apply retry_sentence_each.
Qed.

Lemma process_batch_returns_one_text_per_unit_witness :
  one_per_unit retry_only_engine
  /\ length (snd (snd (process_batch retry_only_engine Cuda
                         [u "a"; u "b"] 3)))
     = 2
  /\ snd (process_batch retry_only_engine Cuda [u "a"; u "b"] 3)
     = (3, [u "T:a"; u "T:b"]).
Proof.
  assert (one_per_unit retry_only_engine) as Hone by (intros ? ? ? ? [=]).
  split; [exact Hone|].
  split; [|reflexivity].
  exact (proj1 (proj2 (process_batch_returns_one_text_per_unit
                         retry_only_engine Cuda [u "a"; u "b"] 3 Hone))).
Defined.

(** ** The batch path, position by position *)

Lemma keep_translations_zip (batch : list str) (translations : list str) :
  forall i so_far,
    i + length translations <= length batch ->
    keep_translations batch i translations so_far
    = (true, so_far ++ zip_with kept translations (drop i batch)).
Proof.
  induction translations as [|t rest IH]; intros i so_far Hlen.
  - cbn. by rewrite app_nil_r.
  - cbn [length] in Hlen.
    destruct (lookup_lt_is_Some_2 batch i) as [original Horiginal]; [lia|].
    rewrite (drop_S _ _ _ Horiginal). cbn [keep_translations zip_with].
    rewrite Horiginal. unfold kept at 1.
    destruct (nonempty (strip t));
      rewrite IH by lia; by rewrite <- app_assoc.
Qed.

(** X14. When the engine answers the batch call with no more texts than the
    batch has units, [process_batch] makes this one call and returns, for each
    text in order, the text trimmed, or, when the text is blank, the unit at
    the same position; so it returns as many texts as the engine decoded, and
    the units beyond them are not in the result. *)
Theorem batch_path_is_positional (e : engine) (dev : device)
    (batch : list str) (batch_idx m : nat) (translations : list str) :
  max_batch_length batch = Some m ->
  e (TranslateBatch batch (adaptive_max_length (m / 4)) (batch_decoding dev))
  = Some translations ->
  length translations <= length batch ->
  process_batch e dev batch batch_idx
  = ([TranslateBatch batch (adaptive_max_length (m / 4))
        (batch_decoding dev)],
     (batch_idx, zip_with kept translations batch))
  /\ length (snd (snd (process_batch e dev batch batch_idx)))
     = length translations.
Proof.
  intros Hmax He Hlen.
  assert (process_batch e dev batch batch_idx
          = ([TranslateBatch batch (adaptive_max_length (m / 4))
                (batch_decoding dev)],
             (batch_idx, zip_with kept translations batch))) as Heq.
  { unfold process_batch. rewrite Hmax, He.
    by rewrite keep_translations_zip, drop_0 by done. }
  split; [exact Heq|]. rewrite Heq. cbn [snd].
  rewrite length_zip_with. lia.
Qed.

Lemma batch_path_is_positional_witness :
  max_batch_length [u "a"; u "b"] = Some 1
  /\ first_only_engine (TranslateBatch [u "a"; u "b"]
                          (adaptive_max_length (1 / 4)) (batch_decoding Cpu))
     = Some [u " T:a"]
  /\ length [u " T:a"] <= length [u "a"; u "b"]
  /\ process_batch first_only_engine Cpu [u "a"; u "b"] 0
     = ([TranslateBatch [u "a"; u "b"] 256 (batch_decoding Cpu)],
        (0, [u "T:a"])).
Proof.
  split; [reflexivity|]. split; [reflexivity|]. split; [cbn; lia|].
  exact (proj1 (batch_path_is_positional first_only_engine Cpu
                  [u "a"; u "b"] 0 1 [u " T:a"] eq_refl eq_refl
                  ltac:(cbn; lia))).
Defined.

(** ** What the stream writes *)

Lemma emit_chunk_written (idx total : nat) (translated : str)
    (st : stream_state) :
  chunks_written st -> chunks_written (emit_chunk idx total translated st).
Proof.
  intros [Hall Htexts]. split; cbn [emit_chunk stdout translated_sentences].
  - by rewrite forallb_app, Hall.
  - unfold chunk_texts in *. by rewrite omap_app, Htexts.
Qed.

Lemma stream_translations_written (batch : list str) (batch_idx total : nat)
    (translations : list str) :
  forall i st,
    chunks_written st ->
    chunks_written
      (snd (stream_translations batch batch_idx total i translations st)).
Proof.
  induction translations as [|t rest IH]; intros i st Hst; [done|].
  cbn [stream_translations].
  destruct (nonempty (strip t)); [by apply IH, emit_chunk_written|].
  destruct (batch !! i); [by apply IH, emit_chunk_written | done].
Qed.

Lemma stream_individually_written (e : engine) (dev : device)
    (batch_idx total : nat) (sentences : list str) :
  forall i st,
    chunks_written st ->
    chunks_written (stream_individually e dev batch_idx total i sentences st).
Proof.
  induction sentences as [|s rest IH]; intros i st Hst; [done|].
  cbn [stream_individually]. by apply IH, emit_chunk_written.
Qed.

Lemma stream_batch_written (e : engine) (dev : device) (units : list str)
    (b total batch_idx : nat) (st : stream_state) :
  chunks_written st ->
  chunks_written (stream_batch e dev units b total batch_idx st).
Proof.
  intros Hst. unfold stream_batch.
  destruct (max_batch_length _) as [m|];
    [|by apply stream_individually_written].
  destruct (e _) as [translations|];
    [|by apply stream_individually_written].
  pose proof (stream_translations_written
                (slice units batch_idx (batch_idx + b)) batch_idx total
                translations 0
                (log_call (TranslateBatch
                             (slice units batch_idx (batch_idx + b))
                             (adaptive_max_length (m / 4))
                             (batch_decoding dev)) st) Hst)
    as Hloop.
  destruct (stream_translations _ _ _ _ _ _) as [[] st'];
    [exact Hloop | by apply stream_individually_written].
Qed.

Lemma stream_batches_written (e : engine) (dev : device) (units : list str)
    (b total : nat) (starts : list nat) :
  forall st,
    chunks_written st ->
    chunks_written
      (fold_left
         (fun st batch_idx => stream_batch e dev units b total batch_idx st)
         starts st).
Proof.
  induction starts as [|batch_idx rest IH]; intros st Hst; [done|].
  cbn [fold_left]. by apply IH, stream_batch_written.
Qed.

Lemma chunk_texts_nil (events : list event) :
  forallb is_chunk events = true -> chunk_texts events = [] -> events = [].
Proof. by destruct events as [|[] rest]. Qed.

(** X15. Every call of [translate_stream] that returns has written chunk
    events and then exactly one final event: the completion, whose text is the
    texts of the chunks joined by spaces and whose total is the number of
    units, when at least one chunk was written; an error event otherwise. This
    holds for every engine and every batch size. A call that raises (a batch
    size of zero) has written nothing. *)
Theorem stream_ends_with_one_final_event (e : engine) (dev : device)
    (cpu_count : Z) (text : str) (batch_size : option Z) :
  match snd (translate_stream e dev cpu_count text batch_size) with
  | Some _ => fst (translate_stream e dev cpu_count text batch_size) = []
  | None =>
      exists chunks,
        forallb is_chunk chunks = true
        /\ fst (translate_stream e dev cpu_count text batch_size)
           = chunks
             ++ [match chunk_texts chunks with
                 | [] =>
                     StreamError
                       match request_units text with
                       | [] => "No sentences found in input text"
                       | _ :: _ => all_failed
                       end
                 | (_ :: _) as texts =>
                     Complete (length (request_units text))
                       (join SPACE texts)
                 end]
  end.
Proof.
  unfold translate_stream. fold (request_units text).
  destruct (request_units text) as [|first others].
  { by exists []. }
  destruct (_ =? _)%Z; [reflexivity|]. cbv zeta.
  match goal with
  | |- context [fold_left ?f ?starts ?st0] =>
      pose proof (stream_batches_written e dev (first :: others)
                    (Z.to_nat (effective_batch_size batch_size dev cpu_count))
                    (length (first :: others)) starts st0) as Hst;
      destruct (fold_left f starts st0) as [sentences out log]
  end.
  destruct Hst as [Hall Htexts]; [by split|].
  cbn [stdout translated_sentences] in *.
  destruct sentences as [|t ts]; cbn [fst snd].
  - exists []. split; [reflexivity|].
    by rewrite (chunk_texts_nil out Hall Htexts).
  - exists out. split; [exact Hall|]. by rewrite Htexts.
Qed.

(** ** The stream and the single answer *)

Lemma stream_translations_sentences (batch : list str)
    (batch_idx total : nat) (translations : list str) :
  forall i st so_far pre,
    translated_sentences st = pre ++ so_far ->
    fst (stream_translations batch batch_idx total i translations st)
    = fst (keep_translations batch i translations so_far)
    /\ translated_sentences
         (snd (stream_translations batch batch_idx total i translations st))
       = pre ++ snd (keep_translations batch i translations so_far).
Proof.
  induction translations as [|t rest IH]; intros i st so_far pre Hst; [done|].
  cbn [stream_translations keep_translations].
  destruct (nonempty (strip t)).
  - apply IH. cbn. by rewrite Hst, <- app_assoc.
  - destruct (batch !! i) as [original|]; [|done].
    apply IH. cbn. by rewrite Hst, <- app_assoc.
Qed.

Lemma stream_individually_sentences (e : engine) (dev : device)
    (batch_idx total : nat) (sentences : list str) :
  forall i st,
    translated_sentences
      (stream_individually e dev batch_idx total i sentences st)
    = translated_sentences st ++ map (retry_sentence e dev) sentences.
Proof.
  induction sentences as [|s rest IH]; intros i st; cbn.
  - by rewrite app_nil_r.
  - rewrite IH. cbn. by rewrite <- app_assoc.
Qed.

(** One batch of the stream collects what [process_batch] returns for
    the batch. *)
Lemma stream_batch_sentences (e : engine) (dev : device) (units : list str)
    (b total batch_idx k : nat) (st : stream_state) :
  translated_sentences (stream_batch e dev units b total batch_idx st)
  = translated_sentences st
    ++ snd (snd (process_batch e dev
                   (slice units batch_idx (batch_idx + b)) k)).
Proof.
  unfold stream_batch, process_batch.
  set (batch := slice units batch_idx (batch_idx + b)).
  destruct (max_batch_length batch) as [m|];
    [|by rewrite stream_individually_sentences].
  destruct (e _) as [translations|];
    [|by rewrite stream_individually_sentences].
  destruct (stream_translations_sentences batch batch_idx total translations
              0 (log_call (TranslateBatch batch (adaptive_max_length (m / 4))
                             (batch_decoding dev))
                   st) [] (translated_sentences st))
    as [Hok Hsentences]; [by rewrite app_nil_r|].
  destruct (stream_translations _ _ _ _ _ _) as [ok st'].
  destruct (keep_translations _ _ _ _) as [ok' so_far].
  cbn [fst snd] in *. subst ok'. destruct ok; cbn [snd]; [exact Hsentences|].
  by rewrite stream_individually_sentences, Hsentences, <- app_assoc.
Qed.

Lemma stream_batches_sentences (e : engine) (dev : device)
    (crashed : nat -> nat -> bool)
    (units : list str) (p : positive) (total : nat) :
  forall count start st,
    translated_sentences
      (fold_left
         (fun st batch_idx =>
            stream_batch e dev units (Pos.to_nat p) total batch_idx st)
         (map (fun k => k * Pos.to_nat p) (seq start count)) st)
    = translated_sentences st
      ++ concat (map (translations_of (World e crashed) dev units
                        (Pos.to_nat p))
                     (seq start count)).
Proof.
  induction count as [|count IH]; intros start st.
  - cbn. by rewrite app_nil_r.
  - cbn [seq map fold_left concat].
    rewrite IH, (stream_batch_sentences _ _ _ _ _ _ start), <- app_assoc.
    reflexivity.
Qed.

(** X16. Streaming and not streaming agree on the text: the two functions
    cut the same batches and send the engine the same calls, with the same
    decode lengths and decoding arguments. For a positive batch size, when no
    execution raises, [translate] returns a translation exactly when the
    stream ends with the completion event carrying the same text, and reports
    "All translation sentences failed" exactly when the stream is that one
    error event; for every engine, on the device both run on. *)
Theorem stream_completes_with_the_answer (w : world) (dev : device)
    (cpu_count : Z) (order : list nat) (text : str) (batch_size : Z) :
  no_crash w ->
  (0 < batch_size)%Z ->
  order ≡ₚ seq 0 (batch_count (request_units text) batch_size) ->
  (forall translated,
     translate w dev cpu_count order text (Some batch_size)
     = Returned (Success translated)
     <-> last (fst (translate_stream (run w) dev cpu_count text
                      (Some batch_size)))
         = Some (Complete (length (request_units text)) translated))
  /\ (translate w dev cpu_count order text (Some batch_size)
      = Returned (Failure all_failed)
      <-> fst (translate_stream (run w) dev cpu_count text
                 (Some batch_size))
          = [StreamError all_failed]).
Proof.
  intros Hok Hpos Hperm. destruct batch_size as [|p|p]; try lia.
  rewrite translate_units. unfold translate_stream.
  fold (request_units text).
  destruct (request_units text) as [|first others] eqn:Hunits.
  { split; [intros translated|]; split; discriminate. }
  cbn [effective_batch_size]. cbv zeta.
  change (Z.pos p =? 0)%Z with false. cbv iota.
  rewrite run_batches_sequential by done.
  change (Z.to_nat (Z.pos p)) with (Pos.to_nat p).
  rewrite batch_starts_pos, <- batch_count_pos.
  pose proof (stream_batches_sentences (run w) dev (crashes w)
                (first :: others) p
                (length (first :: others))
                (batch_count (first :: others) (Z.pos p)) 0
                (StreamState [] [] [])) as Hsentences.
  pose proof (stream_batches_written (run w) dev (first :: others)
                (Pos.to_nat p)
                (length (first :: others))
                (map (fun k => k * Pos.to_nat p)
                   (seq 0 (batch_count (first :: others) (Z.pos p))))
                (StreamState [] [] [])) as Hwritten.
  destruct (fold_left _ _ _) as [sentences out log].
  destruct Hwritten as [Hall Htexts]; [by split|].
  cbn [translated_sentences stdout app] in *.
  replace (concat (map (translations_of w dev (first :: others)
                          (Pos.to_nat p))
                     (seq 0 (batch_count (first :: others) (Z.pos p)))))
    with sentences by (rewrite Hsentences; by destruct w).
  destruct sentences as [|t ts]; cbn [fst].
  - rewrite (chunk_texts_nil out Hall Htexts). cbn [app].
    split; [intros translated|]; split; done.
  - rewrite last_snoc. split; [intros translated|]; split.
    + by intros [= <-].
    + by intros [= <-].
    + discriminate.
    + intros Heq. destruct out as [|ev [|ev' out]]; discriminate.
Qed.

Lemma stream_completes_with_the_answer_witness :
  no_crash (World marking_engine never)
  /\ (0 < 2)%Z
  /\ [2; 0; 1] ≡ₚ seq 0 (batch_count (request_units five_lines) 2)
  /\ (forall translated,
        translate (World marking_engine never) Cpu 8 [2; 0; 1] five_lines
          (Some 2%Z)
        = Returned (Success translated)
        <-> last (fst (translate_stream marking_engine Cpu 8 five_lines
                         (Some 2%Z)))
            = Some (Complete (length (request_units five_lines)) translated)).
Proof.
  assert (no_crash (World marking_engine never)) as Hok
    by (intros k attempt; reflexivity).
  assert ([2; 0; 1] ≡ₚ seq 0 (batch_count (request_units five_lines) 2))
    as Hperm.
  { change (seq 0 _) with [0; 1; 2].
    etransitivity; [apply perm_swap|]. apply perm_skip, perm_swap. }
  split; [exact Hok|]. split; [lia|]. split; [exact Hperm|].
  exact (proj1 (stream_completes_with_the_answer (World marking_engine never)
                  Cpu 8 [2; 0; 1] five_lines 2 Hok eq_refl Hperm)).
Defined.

(** ** The decode length in use *)

Lemma in_tier_unique (chars m1 m2 : nat) :
  in_tier chars m1 -> in_tier chars m2 -> m1 = m2.
Proof. unfold in_tier. cbv zeta. lia. Qed.

Lemma stream_translations_out (batch : list str) (batch_idx total : nat)
    (translations : list str) :
  forall i st,
    exists chunks,
      stdout (snd (stream_translations batch batch_idx total i translations st))
      = stdout st ++ chunks
      /\ forallb is_chunk chunks = true
      /\ translated_sentences
           (snd (stream_translations batch batch_idx total i translations st))
         = translated_sentences st ++ chunk_texts chunks.
Proof.
  induction translations as [|t rest IH]; intros i st.
  - exists []. cbn. by rewrite !app_nil_r.
  - cbn [stream_translations].
    destruct (nonempty (strip t)).
    + destruct (IH (S i) (emit_chunk (batch_idx + i) total (strip t) st))
        as (chunks & Hout & Hall & Htexts).
      exists (Chunk (batch_idx + i) total (strip t) :: chunks).
      rewrite Hout, Htexts. cbn. by rewrite <- !app_assoc.
    + destruct (batch !! i) as [original|].
      * destruct (IH (S i) (emit_chunk (batch_idx + i) total original st))
          as (chunks & Hout & Hall & Htexts).
        exists (Chunk (batch_idx + i) total original :: chunks).
        rewrite Hout, Htexts. cbn. by rewrite <- !app_assoc.
      * exists []. cbn. by rewrite !app_nil_r.
Qed.

Lemma stream_individually_out (e : engine) (dev : device)
    (batch_idx total : nat) (sentences : list str) :
  forall i st,
    exists chunks,
      stdout (stream_individually e dev batch_idx total i sentences st)
      = stdout st ++ chunks
      /\ forallb is_chunk chunks = true
      /\ translated_sentences
           (stream_individually e dev batch_idx total i sentences st)
         = translated_sentences st ++ chunk_texts chunks.
Proof.
  induction sentences as [|s rest IH]; intros i st.
  - exists []. cbn. by rewrite !app_nil_r.
  - cbn [stream_individually].
    destruct (IH (S i) (emit_chunk (batch_idx + i) total
                          (retry_sentence e dev s)
                          (log_call (retry_call dev s) st)))
      as (chunks & Hout & Hall & Htexts).
    exists (Chunk (batch_idx + i) total (retry_sentence e dev s) :: chunks).
    rewrite Hout, Htexts. cbn. by rewrite <- !app_assoc.
Qed.

(** One batch of the stream writes chunks only, one per text it
    collects. *)
Lemma stream_batch_out (e : engine) (dev : device) (units : list str)
    (b total batch_idx : nat) (st : stream_state) :
  exists chunks,
    stdout (stream_batch e dev units b total batch_idx st)
    = stdout st ++ chunks
    /\ forallb is_chunk chunks = true
    /\ translated_sentences (stream_batch e dev units b total batch_idx st)
       = translated_sentences st ++ chunk_texts chunks.
Proof.
  unfold stream_batch.
  set (batch := slice units batch_idx (batch_idx + b)).
  destruct (max_batch_length batch) as [m|];
    [|apply stream_individually_out].
  set (st1 := log_call _ st).
  destruct (e _) as [translations|];
    [|apply (stream_individually_out e dev batch_idx total batch 0 st1)].
  destruct (stream_translations_out batch batch_idx total translations 0 st1)
    as (chunks & Hout & Hall & Htexts).
  destruct (stream_translations _ _ _ _ _ _) as [[] st2];
    cbn [snd] in Hout, Htexts.
  - by exists chunks.
  - destruct (stream_individually_out e dev batch_idx total batch 0 st2)
      as (chunks' & Hout' & Hall' & Htexts').
    exists (chunks ++ chunks').
    rewrite Hout', Hout, Htexts', Htexts, forallb_app, Hall, Hall'.
    unfold chunk_texts. rewrite omap_app, <- !app_assoc. done.
Qed.

(** One batch of the stream sends the engine the calls [process_batch]
    sends it for the batch. *)
Lemma stream_batch_log (e : engine) (dev : device) (units : list str)
    (b total batch_idx k : nat) (st : stream_state) :
  engine_log (stream_batch e dev units b total batch_idx st)
  = engine_log st
    ++ fst (process_batch e dev (slice units batch_idx (batch_idx + b)) k).
Proof.
  unfold stream_batch, process_batch.
  set (batch := slice units batch_idx (batch_idx + b)).
  destruct (max_batch_length batch) as [m|];
    [|by rewrite stream_individually_log].
  set (call := TranslateBatch _ _ _).
  destruct (e call) as [translations|];
    [|rewrite stream_individually_log; cbn; by rewrite <- app_assoc].
  destruct (stream_translations_sentences batch batch_idx total translations
              0 (log_call call st) [] (translated_sentences st))
    as [Hok _]; [by rewrite app_nil_r|].
  pose proof (stream_translations_log batch batch_idx total translations 0
                (log_call call st)) as Hlog.
  destruct (stream_translations _ _ _ _ _ _) as [ok st'].
  destruct (keep_translations _ _ _ _) as [ok' so_far].
  cbn [fst snd] in *. subst ok'. destruct ok; cbn [fst].
  - exact Hlog.
  - rewrite stream_individually_log, Hlog. cbn. by rewrite <- app_assoc.
Qed.

(** C7. The engine receives every batch with the decode length of the
    tier of its longest unit, and every single sentence of the retry with
    the tier of the sentence: the estimate is [length // 4], and under 50
    it gives 256, under 200 it gives 512, otherwise 1024. What
    [process_batch] returns is what the engine answers to exactly these
    calls: the texts decoded for the batch, position by position, or, when
    the batch call raises, for each unit the first text decoded for it
    alone. The loop body of [translate_stream] sends the same calls as
    [process_batch] for the batch, collects the same texts, and writes
    them as its chunks. An empty batch is not sent. *)
Theorem decode_length_tiers (e : engine) (dev : device)
    (units batch : list str) (batch_idx b total k : nat)
    (st : stream_state) :
  match batch with
  | [] => process_batch e dev batch batch_idx = ([], (batch_idx, []))
  | _ :: _ =>
      exists longest max_length,
        longest ∈ batch
        /\ Forall (fun unit => length unit <= length longest) batch
        /\ in_tier (length longest) max_length
        /\ (exists later,
              fst (process_batch e dev batch batch_idx)
              = TranslateBatch batch max_length (batch_decoding dev) :: later)
        /\ (forall translations,
              e (TranslateBatch batch max_length (batch_decoding dev))
              = Some translations ->
              length translations <= length batch ->
              process_batch e dev batch batch_idx
              = ([TranslateBatch batch max_length (batch_decoding dev)],
                 (batch_idx, zip_with kept translations batch)))
        /\ (e (TranslateBatch batch max_length (batch_decoding dev)) = None ->
            process_batch e dev batch batch_idx
            = (TranslateBatch batch max_length (batch_decoding dev)
               :: map (retry_call dev) batch,
               (batch_idx, map (retry_sentence e dev) batch)))
  end
  /\ (forall sentence,
        exists max_length,
          in_tier (length sentence) max_length
          /\ retry_call dev sentence
             = TranslateOne sentence max_length (retry_decoding dev)
          /\ retry_sentence e dev sentence
             = match e (TranslateOne sentence max_length (retry_decoding dev))
               with
               | Some (first :: _) => strip first
               | _ => sentence
               end)
  /\ engine_log (stream_batch e dev units b total batch_idx st)
     = engine_log st
       ++ fst (process_batch e dev (slice units batch_idx (batch_idx + b)) k)
  /\ translated_sentences (stream_batch e dev units b total batch_idx st)
     = translated_sentences st
       ++ snd (snd (process_batch e dev
                      (slice units batch_idx (batch_idx + b)) k))
  /\ exists chunks,
       stdout (stream_batch e dev units b total batch_idx st)
       = stdout st ++ chunks
       /\ forallb is_chunk chunks = true
       /\ chunk_texts chunks
          = snd (snd (process_batch e dev
                        (slice units batch_idx (batch_idx + b)) k)).
Proof.
  split; [|split; [|split; [|split]]].
  - destruct batch as [|first rest] eqn:Hbatch; [reflexivity|].
    rewrite <- Hbatch.
    assert (exists m, max_batch_length batch = Some m) as [m Hmax]
      by (rewrite Hbatch; cbn; eauto).
    destruct (longest_unit batch m Hmax) as (longest & Hin & Hall & Hlen).
    exists longest, (adaptive_max_length (m / 4)).
    split; [exact Hin|]. split; [exact Hall|].
    split; [rewrite Hlen; apply in_tier_adaptive|].
    unfold process_batch. rewrite Hmax.
    split; [|split].
    + destruct (e _) as [translations|]; [|cbn; eauto].
      destruct (keep_translations _ _ _ _) as [[] so_far]; cbn; eauto.
    + intros translations -> Hshort.
      by rewrite keep_translations_zip, drop_0 by done.
    + by intros ->.
  - intros sentence. exists (adaptive_max_length (length sentence / 4)).
    split; [apply in_tier_adaptive|]. split; [reflexivity|].
    unfold retry_sentence, retry_call.
    by destruct (e _) as [[|first others]|].
  - apply stream_batch_log.
  - apply stream_batch_sentences.
  - destruct (stream_batch_out e dev units b total batch_idx st)
      as (chunks & Hout & Hall & Htexts).
    exists chunks. split; [exact Hout|]. split; [exact Hall|].
    rewrite (stream_batch_sentences e dev units b total batch_idx k st)
      in Htexts.
    by apply app_inv_head in Htexts.
Qed.

(** ** The batch size in use *)

Lemma run_batches_texts (w : world) (dev : device) (cpu_count : Z)
    (order : list nat) (units : list str) (batch_size : Z) :
  no_crash w ->
  order ≡ₚ seq 0 (batch_count units batch_size) ->
  batch_size <> 0%Z ->
  run_batches w dev cpu_count order units batch_size
  = Some (batch_texts w dev units batch_size).
Proof.
  intros Hok Hperm Hsize. destruct batch_size as [|p|p]; [done| |].
  - by apply run_batches_sequential.
  - by rewrite run_batches_negative.
Qed.

Lemma stream_batches_texts (w : world) (dev : device) (units : list str)
    (batch_size : Z) (total : nat) :
  batch_size <> 0%Z ->
  exists chunks,
    forallb is_chunk chunks = true
    /\ chunk_texts chunks = batch_texts w dev units batch_size
    /\ fold_left
         (fun st batch_idx =>
            stream_batch (run w) dev units (Z.to_nat batch_size) total
              batch_idx st)
         (batch_starts (length units) batch_size) (StreamState [] [] [])
       = StreamState (batch_texts w dev units batch_size) chunks
           (engine_log
              (fold_left
                 (fun st batch_idx =>
                    stream_batch (run w) dev units (Z.to_nat batch_size)
                      total batch_idx st)
                 (batch_starts (length units) batch_size)
                 (StreamState [] [] []))).
Proof.
  intros Hsize. destruct batch_size as [|p|p]; [done| |].
  - unfold batch_texts. change (Z.to_nat (Z.pos p)) with (Pos.to_nat p).
    rewrite batch_starts_pos, <- batch_count_pos.
    pose proof (stream_batches_sentences (run w) dev (crashes w) units p total
                  (batch_count units (Z.pos p)) 0 (StreamState [] [] []))
      as Hsentences.
    pose proof (stream_batches_written (run w) dev units (Pos.to_nat p) total
                  (map (fun k => k * Pos.to_nat p)
                     (seq 0 (batch_count units (Z.pos p))))
                  (StreamState [] [] [])) as Hwritten.
    destruct (fold_left _ _ _) as [sentences out log].
    destruct Hwritten as [Hall Htexts]; [by split|].
    cbn [translated_sentences stdout engine_log app] in *.
    exists out. rewrite Htexts, Hsentences. by destruct w.
  - exists []. by cbn.
Qed.

(** C8. A batch size given by the caller is used as it is; without one the
    CPU gets [min(10, max(6, cpu_count // 2))], which lies between 6 and 10
    for every [cpu_count], and a GPU gets 12. [translate] and
    [translate_stream] cut the units into batches of exactly that size:
    [translate] answers from the batches run with it, and the chunks of
    [translate_stream] carry the texts [process_batch] returns for the
    batches [units[k * size : k * size + size]], in order; so does the
    answer of [translate] when no execution of [process_batch] raises and
    every future completes. *)
Theorem batch_size_selection (w : world) (dev : device) (cpu_count : Z)
    (order : list nat) (text : str) (batch_size : option Z) :
  (forall given, effective_batch_size (Some given) dev cpu_count = given)
  /\ effective_batch_size None Cpu cpu_count
     = Z.min 10 (Z.max 6 (cpu_count / 2))
  /\ (6 <= effective_batch_size None Cpu cpu_count <= 10)%Z
  /\ effective_batch_size None Cuda cpu_count = 12%Z
  /\ effective_batch_size None Mps cpu_count = 12%Z
  /\ translate w dev cpu_count order text batch_size
     = match request_units text with
       | [] => Returned (Failure "No valid sentences found in input text")
       | _ :: _ =>
           if (effective_batch_size batch_size dev cpu_count =? 0)%Z
           then Raised "ZeroDivisionError"
           else
             match run_batches w dev cpu_count order (request_units text)
                     (effective_batch_size batch_size dev cpu_count)
             with
             | None => Raised "Exception"
             | Some [] => Returned (Failure all_failed)
             | Some ((_ :: _) as translated_sentences) =>
                 Returned (Success (join SPACE translated_sentences))
             end
       end
  /\ (no_crash w ->
      order ≡ₚ seq 0 (batch_count (request_units text)
                        (effective_batch_size batch_size dev cpu_count)) ->
      effective_batch_size batch_size dev cpu_count <> 0%Z ->
      run_batches w dev cpu_count order (request_units text)
        (effective_batch_size batch_size dev cpu_count)
      = Some (batch_texts w dev (request_units text)
                (effective_batch_size batch_size dev cpu_count)))
  /\ match request_units text with
     | [] =>
         translate_stream (run w) dev cpu_count text batch_size
         = ([StreamError "No sentences found in input text"], None)
     | _ :: _ =>
         if (effective_batch_size batch_size dev cpu_count =? 0)%Z
         then translate_stream (run w) dev cpu_count text batch_size
              = ([], Some "ValueError"%string)
         else
           exists chunks,
             forallb is_chunk chunks = true
             /\ chunk_texts chunks
                = batch_texts w dev (request_units text)
                    (effective_batch_size batch_size dev cpu_count)
             /\ translate_stream (run w) dev cpu_count text batch_size
                = (chunks
                   ++ [match batch_texts w dev (request_units text)
                               (effective_batch_size batch_size dev cpu_count)
                       with
                       | [] => StreamError all_failed
                       | (_ :: _) as translated_sentences =>
                           Complete (length (request_units text))
                             (join SPACE translated_sentences)
                       end],
                   None)
     end.
Proof.
  split; [reflexivity|]. split; [reflexivity|].
  split; [cbn; lia|]. split; [reflexivity|]. split; [reflexivity|].
  set (size := effective_batch_size batch_size dev cpu_count) in *.
  split; [|split].
  - rewrite translate_units. fold size.
    destruct (request_units text) as [|first others]; [reflexivity|].
    cbv zeta. destruct (size =? 0)%Z; [reflexivity|].
    by destruct (run_batches _ _ _ _ _ _) as [[|t ts]|].
  - intros Hok Hperm Hsize. by apply run_batches_texts.
  - unfold translate_stream. fold (request_units text). fold size.
    destruct (request_units text) as [|first others] eqn:Hunits;
      [reflexivity|].
    destruct (Z.eqb_spec size 0) as [Hzero|Hsize]; [reflexivity|].
    destruct (stream_batches_texts w dev (first :: others) size
                (length (first :: others)) Hsize)
      as (chunks & Hall & Htexts & ->).
    exists chunks. split; [exact Hall|]. split; [exact Htexts|].
    cbn [translated_sentences stdout].
    by destruct (batch_texts _ _ _ _).
Qed.

Lemma batch_size_selection_witness :
  no_crash (World marking_engine never)
  /\ [1; 0] ≡ₚ seq 0 (batch_count (request_units seven_lines)
                        (effective_batch_size None Cpu 8))
  /\ effective_batch_size None Cpu 8 = 6%Z
  /\ run_batches (World marking_engine never) Cpu 8 [1; 0]
       (request_units seven_lines) (effective_batch_size None Cpu 8)
     = Some (batch_texts (World marking_engine never) Cpu
               (request_units seven_lines) (effective_batch_size None Cpu 8))
  /\ translate (World marking_engine never) Cpu 8 [1; 0] seven_lines None
     = Returned (Success (u "T:a T:b T:c T:d T:e T:f T:g")).
Proof.
  assert (no_crash (World marking_engine never)) as Hok
    by (intros k attempt; reflexivity).
  assert ([1; 0] ≡ₚ seq 0 (batch_count (request_units seven_lines)
                              (effective_batch_size None Cpu 8)))
    as Hperm by (change (seq 0 _) with [0; 1]; apply perm_swap).
  destruct (batch_size_selection (World marking_engine never) Cpu 8 [1; 0]
              seven_lines None)
    as (_ & _ & _ & _ & _ & Htranslate & Hrun & _).
  split; [exact Hok|]. split; [exact Hperm|]. split; [reflexivity|].
  split; [apply Hrun; [exact Hok | exact Hperm | discriminate]|].
  refine (eq_trans Htranslate _). vm_compute. reflexivity.
Defined.

(** ** Substitutions that find one match *)

Lemma sub_scan_skip {S : Type} (r : regex) (repl : S -> found -> S * str)
    (s : S) :
  forall mid bef rest,
    sub_scan r repl s bef (mid ++ rest) (length mid)
    = sub_scan r repl s (rev mid ++ bef) rest 0.
Proof.
  induction mid as [|x mid IH]; intros bef rest; [reflexivity|].
  cbn [length app sub_scan rev]. by rewrite IH, <- app_assoc.
Qed.

Lemma sub_scan_copy {S : Type} (r : regex) (repl : S -> found -> S * str)
    (s : S) :
  forall pre bef rest,
    Forall (cannot_start r) pre ->
    sub_scan r repl s bef (pre ++ rest) 0
    = (fst (sub_scan r repl s (rev pre ++ bef) rest 0),
       pre ++ snd (sub_scan r repl s (rev pre ++ bef) rest 0)).
Proof.
  induction pre as [|x pre IH]; intros bef rest Hpre.
  - cbn [app rev]. by destruct (sub_scan r repl s bef rest 0).
  - inversion Hpre as [|? ? Hx Hrest]; subst.
    cbn [app sub_scan rev]. rewrite Hx, IH by done.
    by rewrite <- app_assoc.
Qed.

Lemma sub_scan_rest {S : Type} (r : regex) (repl : S -> found -> S * str)
    (s : S) (post bef : str) :
  (forall bef, match_here r bef [] = None) ->
  Forall (cannot_start r) post ->
  sub_scan r repl s bef post 0 = (s, post).
Proof.
  intros Hend Hpost.
  rewrite <- (app_nil_r post) at 1. rewrite sub_scan_copy by done.
  cbn [sub_scan]. rewrite Hend. cbn [fst snd]. by rewrite app_nil_r.
Qed.

(** A substitution whose pattern matches once, at [mid]: the rest of the
    text is copied. *)
Lemma sub_once (r : regex) (t : template) (pre mid post : str) (m : found) :
  Forall (cannot_start r) pre ->
  Forall (cannot_start r) post ->
  (forall bef, match_here r bef [] = None) ->
  mid <> [] ->
  match_here r (rev pre) (mid ++ post) = Some (length mid, m) ->
  sub r t (pre ++ mid ++ post) = pre ++ expand t m ++ post.
Proof.
  intros Hpre Hpost Hend Hmid Hm. unfold sub, sub_with.
  rewrite sub_scan_copy by done. cbn [snd]. f_equal.
  rewrite app_nil_r. destruct mid as [|x mid]; [done|].
  cbn [app sub_scan]. cbn [app length] in Hm. rewrite Hm.
  rewrite sub_scan_skip, sub_scan_rest by done. reflexivity.
Qed.

Lemma cannot_start_lit (a x : char) (s : str) (r : regex) :
  x <> a -> cannot_start (RSeq (RLit (a :: s)) r) x.
Proof.
  intros Hne bef aft. unfold match_here. cbn [rmatch after starts_with].
  destruct (N.eqb_spec a x) as [->|_]; [done | reflexivity].
Qed.

(** A greedy quantifier takes the whole run when the pattern goes on
    from there. *)
Lemma rep_greedy_take (k : cclass) (g : option str)
    (cont : mstate -> option mstate) (res : mstate) (rest : str) :
  match rest with [] => True | y :: _ => cc_match k y = false end ->
  forall taken lo hi bef,
    Forall (fun x => cc_match k x = true) taken ->
    match hi with None => True | Some h => length taken <= h end ->
    lo <= length taken ->
    cont (MState (rev taken ++ bef) rest g) = Some res ->
    rep true k lo hi g bef (taken ++ rest) cont = Some res.
Proof.
  intros Hrest.
  induction taken as [|x taken IH]; intros lo hi bef Htaken Hhi Hlo Hc.
  - cbn [length] in Hlo. assert (lo = 0) as -> by lia. cbn [app rev] in *.
    destruct rest as [|y rest]; cbn [rep]; [exact Hc|].
    by rewrite Hrest.
  - inversion Htaken as [|? ? Hx Htaken']; subst. cbn [app rep].
    assert (may_take hi = true) as ->.
    { destruct hi as [[|h]|]; cbn in *; [lia | done | done]. }
    rewrite Hx. cbn [andb].
    rewrite (IH (pred lo) (took_one hi) (x :: bef)); [done | done | | | ].
    + destruct hi as [h|]; cbn in *; [lia | done].
    + cbn [length] in Hlo. lia.
    + cbn [rev] in Hc. by rewrite <- app_assoc in Hc.
Qed.

(** The match of [opening ([^d]+) closing] on a text delimited so. *)
Lemma match_delimited (opening closing t post bef : str) (d : char) :
  t <> [] ->
  d ∉ t ->
  match closing with [] => False | y :: _ => y = d end ->
  match_here (cat [RLit opening; RGroup (plus (CNoneOf [d])); RLit closing])
    bef (opening ++ t ++ closing ++ post)
  = Some (length (opening ++ t ++ closing),
          Found (opening ++ t ++ closing) t).
Proof.
  intros Hne Hfree Hclose.
  assert (rmatch (cat [RLit opening; RGroup (plus (CNoneOf [d]));
                      RLit closing])
            (MState bef (opening ++ t ++ closing ++ post) None) Some
          = Some (MState (rev closing ++ rev t ++ rev opening ++ bef) post
                    (Some t))) as Hm.
  { cbn [cat foldr rmatch before after group1].
    rewrite starts_with_app, drop_app_length. unfold plus.
    cbn [rmatch before after group1].
    apply rep_greedy_take.
    - destruct closing as [|y closing]; [done|]. subst y. cbn [app cc_match].
      cbn. by rewrite N.eqb_refl.
    - apply Forall_forall. intros x Hx. cbn.
      destruct (N.eqb_spec x d) as [->|_]; done.
    - done.
    - destruct t; [done | cbn; lia].
    - cbn [before after]. unfold captured. cbn [after].
      rewrite length_app, Nat.add_sub, take_app_length.
      by rewrite starts_with_app, drop_app_length. }
  unfold match_here. rewrite Hm. cbn [after group1 default].
  rewrite !app_assoc, length_app, Nat.add_sub, take_app_length.
  by rewrite <- !app_assoc.
Qed.

Lemma plain_app (s t : str) : plain (s ++ t) = plain s && plain t.
Proof. apply forallb_app. Qed.

Lemma absent_around (x : char) (pre a t b post : str) :
  x ∉ pre -> x ∉ a -> x ∉ t -> x ∉ b -> x ∉ post ->
  x ∉ pre ++ a ++ t ++ b ++ post.
Proof. rewrite !elem_of_app. tauto. Qed.

Lemma absent_literal (x : char) (s : str) :
  existsb (N.eqb x) s = false -> x ∉ s.
Proof. intros Hno Hin. apply existsb_elem_of in Hin. congruence. Qed.

Lemma extract_math_without (text : str) :
  c "$" ∉ text -> c "\" ∉ text -> extract_math text = (MathState 0 [], text).
Proof.
  intros Hdollar Hslash. unfold extract_math.
  rewrite (sub_with_without re_display_math _ _ (c "$")) by done.
  rewrite (sub_with_without re_latex_display_math _ _ (c "\")) by done.
  rewrite (sub_with_without re_inline_math _ _ (c "$")) by done.
  by apply (sub_with_without _ _ _ (c "\")).
Qed.

Lemma plain_cannot_start (r : regex) (a : char) (s : str) (text : str) :
  a ∈ markup -> plain text = true ->
  Forall (cannot_start (RSeq (RLit (a :: s)) r)) text.
Proof.
  intros Ha Hplain. apply Forall_forall. intros x Hx.
  apply cannot_start_lit. intros ->. by apply (plain_without text a).
Qed.

Lemma bold_stars_removed (pre t post : str) :
  plain pre = true -> plain t = true -> plain post = true -> t <> [] ->
  sub re_bold Group1 (pre ++ u "**" ++ t ++ u "**" ++ post) = pre ++ t ++ post
  /\ strip_markdown (pre ++ u "**" ++ t ++ u "**" ++ post)
     = strip_markdown (pre ++ t ++ post).
Proof.
  intros Hpre Ht Hpost Hne.
  assert (plain (pre ++ t ++ post) = true) as Hplain
    by (by rewrite !plain_app, Hpre, Ht, Hpost).
  assert (forall x, x ∈ markup -> existsb (N.eqb x) (u "**") = false ->
                    x ∉ pre ++ u "**" ++ t ++ u "**" ++ post) as Habsent.
  { intros x Hx Hstar.
    apply absent_around;
      (by apply plain_without) || by apply absent_literal. }
  assert (sub re_bold Group1 (pre ++ u "**" ++ t ++ u "**" ++ post)
          = pre ++ t ++ post) as Hbold.
  { replace (pre ++ u "**" ++ t ++ u "**" ++ post)
      with (pre ++ (u "**" ++ t ++ u "**") ++ post)
      by (by rewrite <- !app_assoc).
    rewrite (sub_once re_bold Group1 pre (u "**" ++ t ++ u "**") post
               (Found (u "**" ++ t ++ u "**") t)); [reflexivity | | | | | ].
    - apply plain_cannot_start; [by apply existsb_elem_of | done].
    - apply plain_cannot_start; [by apply existsb_elem_of | done].
    - reflexivity.
    - discriminate.
    - rewrite <- !app_assoc.
      apply (match_delimited (u "**") (u "**") t post (rev pre) (c "*"));
        [done | by apply plain_without; [|apply existsb_elem_of]
        | reflexivity]. }
  split; [exact Hbold|].
  pose proof (plain_remove_markdown _ Hplain) as Hid.
  unfold strip_markdown.
  rewrite extract_math_without;
    [|by apply Habsent; [apply existsb_elem_of|]
     |by apply Habsent; [apply existsb_elem_of|]].
  rewrite plain_extract_math, Hid by done. do 3 f_equal.
  unfold remove_markdown in *.
  rewrite (sub_without re_header _ (c "#")) in Hid;
    [|reflexivity|absent_markup].
  rewrite (sub_without re_bold _ (c "*")) in Hid;
    [|reflexivity|absent_markup].
  rewrite (sub_without re_header _ (c "#"));
    [|reflexivity|by apply Habsent; [apply existsb_elem_of|]].
  by rewrite Hbold.
Qed.

Lemma bold_underscores_removed (pre t post : str) :
  plain pre = true -> plain t = true -> plain post = true -> t <> [] ->
  sub re_bold_underscore Group1 (pre ++ u "__" ++ t ++ u "__" ++ post)
  = pre ++ t ++ post
  /\ strip_markdown (pre ++ u "__" ++ t ++ u "__" ++ post)
     = strip_markdown (pre ++ t ++ post).
Proof.
  intros Hpre Ht Hpost Hne.
  assert (plain (pre ++ t ++ post) = true) as Hplain
    by (by rewrite !plain_app, Hpre, Ht, Hpost).
  assert (forall x, x ∈ markup -> existsb (N.eqb x) (u "__") = false ->
                    x ∉ pre ++ u "__" ++ t ++ u "__" ++ post) as Habsent.
  { intros x Hx Hstar.
    apply absent_around;
      (by apply plain_without) || by apply absent_literal. }
  assert (sub re_bold_underscore Group1
            (pre ++ u "__" ++ t ++ u "__" ++ post)
          = pre ++ t ++ post) as Hbold.
  { replace (pre ++ u "__" ++ t ++ u "__" ++ post)
      with (pre ++ (u "__" ++ t ++ u "__") ++ post)
      by (by rewrite <- !app_assoc).
    rewrite (sub_once re_bold_underscore Group1 pre (u "__" ++ t ++ u "__")
               post (Found (u "__" ++ t ++ u "__") t));
      [reflexivity | | | | | ].
    - apply plain_cannot_start; [by apply existsb_elem_of | done].
    - apply plain_cannot_start; [by apply existsb_elem_of | done].
    - reflexivity.
    - discriminate.
    - rewrite <- !app_assoc.
      apply (match_delimited (u "__") (u "__") t post (rev pre) (c "_"));
        [done | by apply plain_without; [|apply existsb_elem_of]
        | reflexivity]. }
  split; [exact Hbold|].
  pose proof (plain_remove_markdown _ Hplain) as Hid.
  unfold strip_markdown.
  rewrite extract_math_without;
    [|by apply Habsent; [apply existsb_elem_of|]
     |by apply Habsent; [apply existsb_elem_of|]].
  rewrite plain_extract_math, Hid by done. do 3 f_equal.
  unfold remove_markdown in *.
  rewrite (sub_without re_header _ (c "#")) in Hid;
    [|reflexivity|absent_markup].
  rewrite (sub_without re_bold _ (c "*")) in Hid;
    [|reflexivity|absent_markup].
  rewrite (sub_without re_italic _ (c "*")) in Hid;
    [|reflexivity|absent_markup].
  rewrite (sub_without re_bold_underscore _ (c "_")) in Hid;
    [|reflexivity|absent_markup].
  rewrite (sub_without re_header _ (c "#"));
    [|reflexivity|by apply Habsent; [apply existsb_elem_of|]].
  rewrite (sub_without re_bold _ (c "*"));
    [|reflexivity|by apply Habsent; [apply existsb_elem_of|]].
  rewrite (sub_without re_italic _ (c "*"));
    [|reflexivity|by apply Habsent; [apply existsb_elem_of|]].
  by rewrite Hbold.
Qed.

(** X17. Bold markers, of either kind, around a text without markup are
    removed and the text is kept, whatever stands before and after it:
    [strip_markdown] returns what it returns for the text without the markers.
    *)
Theorem bold_markers_are_removed (pre t post : str) :
  plain pre = true -> plain t = true -> plain post = true -> t <> [] ->
  sub re_bold Group1 (pre ++ u "**" ++ t ++ u "**" ++ post) = pre ++ t ++ post
  /\ strip_markdown (pre ++ u "**" ++ t ++ u "**" ++ post)
     = strip_markdown (pre ++ t ++ post)
  /\ sub re_bold_underscore Group1 (pre ++ u "__" ++ t ++ u "__" ++ post)
     = pre ++ t ++ post
  /\ strip_markdown (pre ++ u "__" ++ t ++ u "__" ++ post)
     = strip_markdown (pre ++ t ++ post).
Proof.
  intros Hpre Ht Hpost Hne.
  destruct (bold_stars_removed pre t post) as [Hsub Hstars]; try done.
  destruct (bold_underscores_removed pre t post) as [Hsub' Hunder]; done.
Qed.

Lemma bold_markers_are_removed_witness :
  plain (u "Read ") = true
  /\ plain (u "this") = true
  /\ plain (u " first.") = true
  /\ u "this" <> []
  /\ strip_markdown (u "Read " ++ u "**" ++ u "this" ++ u "**" ++ u " first.")
     = strip_markdown (u "Read " ++ u "this" ++ u " first.").
Proof.
  split; [reflexivity|]. split; [reflexivity|]. split; [reflexivity|].
  split; [discriminate|].
  exact (proj1 (proj2 (bold_markers_are_removed (u "Read ") (u "this")
                         (u " first.") eq_refl eq_refl eq_refl
                         ltac:(discriminate)))).
Defined.

(** ** Headers *)

Lemma header_cannot_start (x : char) : x <> c "#" -> cannot_start re_header x.
Proof.
  intros Hne bef aft. unfold match_here, re_header.
  cbn [cat foldr rmatch before after group1 rep cc_match].
  destruct (N.eqb_spec x (c "#")) as [->|_]; [done|]. cbn [andb].
  destruct bef as [|y bef]; [reflexivity|]. by destruct (N.eqb y LF).
Qed.

Lemma header_not_at_end (bef : str) : match_here re_header bef [] = None.
Proof.
  unfold match_here, re_header. cbn [cat foldr rmatch before after group1].
  destruct bef as [|y bef]; [reflexivity|]. by destruct (N.eqb y LF).
Qed.

Lemma match_header (bef t : str) (n : nat) :
  match bef with [] => True | x :: _ => x = LF end ->
  lstrip t = t ->
  1 <= n <= 6 ->
  match_here re_header bef (replicate n (c "#") ++ u " " ++ t)
  = Some (length (replicate n (c "#") ++ u " "),
          Found (replicate n (c "#") ++ u " ") []).
Proof.
  intros Hbol Ht Hn.
  assert (rmatch re_header
            (MState bef (replicate n (c "#") ++ u " " ++ t) None) Some
          = Some (MState (rev (u " ") ++ rev (replicate n (c "#")) ++ bef) t
                    None)) as Hm.
  { unfold re_header. cbn [cat foldr rmatch before after group1].
    assert (forall (X : option mstate),
              match bef with
              | [] => X
              | x :: _ => if N.eqb x LF then X else None
              end = X) as ->.
    { intros X. destruct bef as [|x bef]; [done|]. by rewrite Hbol. }
    apply rep_greedy_take.
    - reflexivity.
    - apply Forall_forall. intros x Hx.
      apply elem_of_replicate in Hx as [-> _]. reflexivity.
    - rewrite length_replicate. lia.
    - rewrite length_replicate. lia.
    - unfold plus. cbn [rmatch before after group1].
      apply (rep_greedy_take CSpace None _ _ t).
      + destruct t as [|y t]; [done|]. by apply (proj1 (lstrip_head y t)).
      + by constructor.
      + done.
      + cbn. lia.
      + reflexivity. }
  unfold match_here. rewrite Hm. cbn [after group1 default].
  rewrite !app_assoc, length_app, Nat.add_sub, take_app_length.
  reflexivity.
Qed.

(** X18. A header marker (one to six number signs and a space) at the start of
    a line is removed and the title kept: [strip_markdown] returns what it
    returns for the text without the marker. *)
Theorem header_marker_is_removed (above t : str) (n : nat) :
  plain above = true ->
  plain t = true ->
  match rev above with [] => True | x :: _ => x = LF end ->
  lstrip t = t ->
  1 <= n <= 6 ->
  sub re_header (Const []) (above ++ replicate n (c "#") ++ u " " ++ t)
  = above ++ t
  /\ strip_markdown (above ++ replicate n (c "#") ++ u " " ++ t)
     = strip_markdown (above ++ t).
Proof.
  intros Habove Ht Hbol Hlstrip Hn.
  assert (plain (above ++ t) = true) as Hplain
    by (by rewrite plain_app, Habove, Ht).
  assert (forall x, x ∈ markup -> x <> c "#" ->
                    x ∉ above ++ replicate n (c "#") ++ u " " ++ t)
    as Habsent.
  { intros x Hx Hhash. rewrite !elem_of_app.
    intros [Hin|[Hin|[Hin|Hin]]].
    - by apply (plain_without above x).
    - by apply elem_of_replicate in Hin as [-> _].
    - apply list_elem_of_singleton in Hin as ->. by apply existsb_elem_of in Hx.
    - by apply (plain_without t x). }
  assert (forall text, plain text = true ->
                       Forall (cannot_start re_header) text)
    as Hcopy.
  { intros text Htext. apply Forall_forall. intros x Hx.
    apply header_cannot_start. intros ->.
    by apply (plain_without text (c "#")); [|apply existsb_elem_of|]. }
  assert (sub re_header (Const [])
            (above ++ replicate n (c "#") ++ u " " ++ t)
          = above ++ t) as Hheader.
  { replace (above ++ replicate n (c "#") ++ u " " ++ t)
      with (above ++ (replicate n (c "#") ++ u " ") ++ t)
      by (by rewrite <- !app_assoc).
    rewrite (sub_once re_header (Const []) above
               (replicate n (c "#") ++ u " ") t
               (Found (replicate n (c "#") ++ u " ") []));
      [reflexivity | by apply Hcopy | by apply Hcopy
       | apply header_not_at_end | | ].
    - destruct n; [lia | discriminate].
    - rewrite <- app_assoc. by apply match_header. }
  split; [exact Hheader|].
  unfold strip_markdown.
  rewrite extract_math_without;
    [|by apply Habsent; [apply existsb_elem_of|]
     |by apply Habsent; [apply existsb_elem_of|]].
  rewrite plain_extract_math by done.
  do 3 f_equal. unfold remove_markdown. rewrite Hheader.
  by rewrite (sub_without re_header _ (c "#") (above ++ t));
    [|reflexivity|absent_markup].
Qed.

Lemma header_marker_is_removed_witness :
  plain (u "Intro" ++ [LF]) = true
  /\ plain (u "Next steps") = true
  /\ match rev (u "Intro" ++ [LF]) with [] => True | x :: _ => x = LF end
  /\ lstrip (u "Next steps") = u "Next steps"
  /\ 1 <= 2 <= 6
  /\ strip_markdown (u "Intro" ++ [LF] ++ u "## Next steps")
     = strip_markdown (u "Intro" ++ [LF] ++ u "Next steps").
Proof.
  split; [reflexivity|]. split; [reflexivity|]. split; [reflexivity|].
  split; [reflexivity|]. split; [lia|].
  exact (proj2 (header_marker_is_removed (u "Intro" ++ [LF]) (u "Next steps")
                  2 eq_refl eq_refl eq_refl eq_refl ltac:(lia))).
Defined.

(** ** Links *)

Lemma match_link (bef t url post : str) :
  t <> [] -> url <> [] -> c "]" ∉ t -> c ")" ∉ url ->
  match_here re_link bef (u "[" ++ t ++ u "](" ++ url ++ u ")" ++ post)
  = Some (length (u "[" ++ t ++ u "](" ++ url ++ u ")"),
          Found (u "[" ++ t ++ u "](" ++ url ++ u ")") t).
Proof.
  intros Ht Hurl Hclose Hparen.
  assert (forall (d : char) (s : str),
            d ∉ s -> Forall (fun x => cc_match (CNoneOf [d]) x = true) s)
    as Hclass.
  { intros d s Hd. apply Forall_forall. intros x Hx. cbn.
    destruct (N.eqb_spec x d) as [->|_]; done. }
  assert (rmatch re_link
            (MState bef (u "[" ++ t ++ u "](" ++ url ++ u ")" ++ post) None)
            Some
          = Some (MState (rev (u ")") ++ rev url ++ rev (u "](") ++ rev t
                          ++ rev (u "[") ++ bef) post (Some t))) as Hm.
  { unfold re_link. cbn [cat foldr rmatch before after group1 lit].
    rewrite starts_with_app, drop_app_length. unfold plus.
    cbn [rmatch before after group1].
    apply rep_greedy_take; [reflexivity | by apply Hclass | done | | ].
    { destruct t; [done | cbn; lia]. }
    cbn [before after]. unfold captured. cbn [after].
    rewrite length_app, Nat.add_sub, take_app_length.
    rewrite starts_with_app, drop_app_length. cbn [before after group1].
    apply rep_greedy_take; [reflexivity | by apply Hclass | done | | ].
    { destruct url; [done | cbn; lia]. }
    cbn [rmatch before after group1].
    by rewrite starts_with_app, drop_app_length. }
  unfold match_here. rewrite Hm. cbn [after group1 default].
  replace (u "[" ++ t ++ u "](" ++ url ++ u ")" ++ post)
    with ((u "[" ++ t ++ u "](" ++ url ++ u ")") ++ post)
    by (by rewrite <- !app_assoc).
  by rewrite length_app, Nat.add_sub, take_app_length.
Qed.

(** X19. A link keeps its text and loses its target: for a link text and a
    target without markup characters, [strip_markdown] returns what it returns
    for the surrounding text with the link text alone. *)
Theorem link_keeps_its_text (pre t url post : str) :
  plain pre = true -> plain t = true -> plain url = true ->
  plain post = true ->
  t <> [] -> url <> [] -> c "]" ∉ t -> c ")" ∉ url ->
  sub re_link Group1 (pre ++ u "[" ++ t ++ u "](" ++ url ++ u ")" ++ post)
  = pre ++ t ++ post
  /\ strip_markdown (pre ++ u "[" ++ t ++ u "](" ++ url ++ u ")" ++ post)
     = strip_markdown (pre ++ t ++ post).
Proof.
  intros Hpre Ht Hurl Hpost Hne Hne' Hclose Hparen.
  assert (plain (pre ++ t ++ post) = true) as Hplain
    by (by rewrite !plain_app, Hpre, Ht, Hpost).
  assert (forall x, x ∈ markup -> x <> c "[" ->
                    x ∉ pre ++ u "[" ++ t ++ u "](" ++ url ++ u ")" ++ post)
    as Habsent.
  { intros x Hx Hbracket. rewrite !elem_of_app.
    intros [Hin|[Hin|[Hin|[Hin|[Hin|[Hin|Hin]]]]]].
    - by apply (plain_without pre x).
    - by apply list_elem_of_singleton in Hin.
    - by apply (plain_without t x).
    - apply existsb_elem_of in Hx.
      apply elem_of_cons in Hin as [->|Hin]; [done|].
      by apply list_elem_of_singleton in Hin as ->.
    - by apply (plain_without url x).
    - apply existsb_elem_of in Hx.
      by apply list_elem_of_singleton in Hin as ->.
    - by apply (plain_without post x). }
  assert (sub re_link Group1
            (pre ++ u "[" ++ t ++ u "](" ++ url ++ u ")" ++ post)
          = pre ++ t ++ post) as Hlink.
  { replace (pre ++ u "[" ++ t ++ u "](" ++ url ++ u ")" ++ post)
      with (pre ++ (u "[" ++ t ++ u "](" ++ url ++ u ")") ++ post)
      by (by rewrite <- !app_assoc).
    rewrite (sub_once re_link Group1 pre
               (u "[" ++ t ++ u "](" ++ url ++ u ")") post
               (Found (u "[" ++ t ++ u "](" ++ url ++ u ")") t));
      [reflexivity | | | | | ].
    - apply plain_cannot_start; [by apply existsb_elem_of | done].
    - apply plain_cannot_start; [by apply existsb_elem_of | done].
    - reflexivity.
    - discriminate.
    - rewrite <- !app_assoc. by apply match_link. }
  split; [exact Hlink|].
  unfold strip_markdown.
  rewrite extract_math_without;
    [|by apply Habsent; [apply existsb_elem_of|]
     |by apply Habsent; [apply existsb_elem_of|]].
  rewrite (plain_extract_math (pre ++ t ++ post)),
    (plain_remove_markdown (pre ++ t ++ post)) by done.
  do 3 f_equal. unfold remove_markdown.
  rewrite (sub_without re_header _ (c "#"));
    [|reflexivity|by apply Habsent; [apply existsb_elem_of|]].
  rewrite (sub_without re_bold _ (c "*"));
    [|reflexivity|by apply Habsent; [apply existsb_elem_of|]].
  rewrite (sub_without re_italic _ (c "*"));
    [|reflexivity|by apply Habsent; [apply existsb_elem_of|]].
  rewrite (sub_without re_bold_underscore _ (c "_"));
    [|reflexivity|by apply Habsent; [apply existsb_elem_of|]].
  rewrite (sub_without re_italic_underscore _ (c "_"));
    [|reflexivity|by apply Habsent; [apply existsb_elem_of|]].
  rewrite (sub_without re_rule_dash _ (c "-"));
    [|reflexivity|by apply Habsent; [apply existsb_elem_of|]].
  rewrite (sub_without re_rule_equals _ (c "="));
    [|reflexivity|by apply Habsent; [apply existsb_elem_of|]].
  rewrite (sub_without re_code_block _ (c "`"));
    [|reflexivity|by apply Habsent; [apply existsb_elem_of|]].
  rewrite (sub_without re_code_span _ (c "`"));
    [|reflexivity|by apply Habsent; [apply existsb_elem_of|]].
  exact Hlink.
Qed.

Lemma link_keeps_its_text_witness :
  plain (u "See ") = true
  /\ plain (u "the guide") = true
  /\ plain (u "https://example.org/guide") = true
  /\ plain (u " today.") = true
  /\ strip_markdown
       (u "See " ++ u "[" ++ u "the guide" ++ u "]("
        ++ u "https://example.org/guide" ++ u ")" ++ u " today.")
     = strip_markdown (u "See " ++ u "the guide" ++ u " today.").
Proof.
  split; [reflexivity|]. split; [reflexivity|]. split; [reflexivity|].
  split; [reflexivity|].
  refine (proj2 (link_keeps_its_text (u "See ") (u "the guide")
                   (u "https://example.org/guide") (u " today.")
                   eq_refl eq_refl eq_refl eq_refl _ _ _ _));
    try discriminate;
    by apply absent_literal.
Defined.

(** ** One step of a substitution *)

Lemma sub_scan_step_none {S : Type} (r : regex) (repl : S -> found -> S * str)
    (s : S) (bef rest : str) (x : char) :
  match_here r bef (x :: rest) = None ->
  sub_scan r repl s bef (x :: rest) 0
  = (fst (sub_scan r repl s (x :: bef) rest 0),
     x :: snd (sub_scan r repl s (x :: bef) rest 0)).
Proof.
  intros Hm. cbn [sub_scan]. rewrite Hm.
  by destruct (sub_scan r repl s (x :: bef) rest 0).
Qed.

Lemma sub_scan_step_match {S : Type} (r : regex)
    (repl : S -> found -> S * str) (s : S) (bef mid rest : str) (m : found) :
  mid <> [] ->
  match_here r bef (mid ++ rest) = Some (length mid, m) ->
  sub_scan r repl s bef (mid ++ rest) 0
  = (fst (sub_scan r repl (fst (repl s m)) (rev mid ++ bef) rest 0),
     snd (repl s m)
     ++ snd (sub_scan r repl (fst (repl s m)) (rev mid ++ bef) rest 0)).
Proof.
  intros Hmid Hm. destruct mid as [|x mid]; [done|].
  cbn [app sub_scan]. cbn [app length] in Hm. rewrite Hm.
  destruct (repl s m) as [s1 out]. cbn [fst snd].
  rewrite sub_scan_skip. cbn [rev]. rewrite <- app_assoc. cbn [app].
  by destruct (sub_scan r repl s1 (rev mid ++ x :: bef) rest 0).
Qed.

(** ** Lazy quantifiers *)

(** A lazy quantifier goes on as long as the rest of the pattern fails. *)
Lemma rep_lazy_take (k : cclass) (g : option str)
    (cont : mstate -> option mstate) (res : mstate) (rest : str) :
  forall taken lo bef,
    Forall (fun x => cc_match k x = true) taken ->
    lo <= length taken ->
    (forall b x a, x ∈ taken -> cont (MState b (x :: a) g) = None) ->
    cont (MState (rev taken ++ bef) rest g) = Some res ->
    rep false k lo None g bef (taken ++ rest) cont = Some res.
Proof.
  induction taken as [|x taken IH]; intros lo bef Htaken Hlo Hfail Hc.
  - cbn [length] in Hlo. assert (lo = 0) as -> by lia. cbn [app rev] in *.
    destruct rest as [|y rest]; cbn [rep]; by rewrite Hc.
  - inversion Htaken as [|? ? Hx Htaken']; subst. cbn [app rep].
    assert (match lo with
            | 0 => cont (MState bef (x :: taken ++ rest) g)
            | S _ => None
            end = None) as ->.
    { destruct lo; [|done]. apply Hfail. left. }
    rewrite Hx. cbn [andb may_take took_one].
    apply IH; [done | cbn [length] in Hlo; lia | |].
    + intros b y a Hy. apply Hfail. by right.
    + cbn [rev] in Hc. by rewrite <- app_assoc in Hc.
Qed.

(** ** Pairs of a character *)

Lemma adjacent_tail (x y : char) (s : str) :
  adjacent x (y :: s) = false -> adjacent x s = false.
Proof. cbn [adjacent]. intros H. by apply orb_false_iff in H as [_ ?]. Qed.

Lemma adjacent_absent (x : char) (s t : str) :
  x ∉ s -> adjacent x (s ++ t) = adjacent x t.
Proof.
  induction s as [|y s IH]; intros Hx; [reflexivity|].
  cbn [app adjacent]. rewrite IH by (intros Hin; apply Hx; by right).
  destruct (N.eqb_spec y x) as [->|_]; [exfalso; apply Hx; left|].
  cbn [andb]. by destruct (s ++ t).
Qed.

Lemma adjacent_single (x : char) (s : str) :
  x ∉ s -> adjacent x (x :: s) = false.
Proof.
  intros Hx. cbn [adjacent].
  rewrite <- (app_nil_r s) at 2. rewrite adjacent_absent by done.
  destruct s as [|y s]; [reflexivity|].
  destruct (N.eqb_spec y x) as [->|_]; [exfalso; apply Hx; left|].
  by rewrite andb_false_r.
Qed.

Lemma no_pair_no_start (x : char) (s : str) :
  adjacent x s = false -> starts_with [x; x] s = false.
Proof.
  destruct s as [|y [|z s]]; [done | |].
  - cbn. by rewrite andb_false_r.
  - cbn [adjacent starts_with]. intros H. apply orb_false_iff in H as [H _].
    rewrite andb_true_r, (N.eqb_sym x y), (N.eqb_sym x z). exact H.
Qed.

(** ** An inline formula *)

Lemma display_math_needs_pair (bef aft : str) :
  adjacent (c "$") aft = false -> match_here re_display_math bef aft = None.
Proof.
  intros Hno. apply no_pair_no_start in Hno.
  unfold match_here, re_display_math, lit.
  cbn [cat foldr rmatch after].
  change (u "$$") with [c "$"; c "$"]. by rewrite Hno.
Qed.

Lemma no_display_math (text : str) (st : math_state) :
  adjacent (c "$") text = false ->
  sub_with re_display_math replace_display_math st text = (st, text).
Proof.
  intros Hno. unfold sub_with.
  apply (sub_scan_none _ _ _ (fun aft => adjacent (c "$") aft = false));
    [apply adjacent_tail | | done].
  intros bef aft. apply display_math_needs_pair.
Qed.

Lemma inline_math_cannot_start (x : char) :
  x <> c "$" -> cannot_start re_inline_math x.
Proof.
  intros Hne bef aft. unfold match_here, re_inline_math, lit.
  cbn [cat foldr rmatch before after group1 starts_with].
  change (u "$") with [c "$"]. cbn [starts_with].
  destruct (N.eqb_spec (c "$") x) as [<-|_]; [done|]. cbn [andb].
  by destruct (eqb _ _).
Qed.

Lemma inline_math_not_at_end (bef : str) :
  match_here re_inline_math bef [] = None.
Proof.
  unfold match_here, re_inline_math, lit.
  cbn [cat foldr rmatch before after group1 starts_with].
  by destruct (eqb _ _).
Qed.

Lemma match_inline_math (bef f post : str) :
  match bef with [] => True | y :: _ => y <> c "$" end ->
  match post with [] => True | y :: _ => y <> c "$" end ->
  f <> [] -> c "$" ∉ f -> LF ∉ f ->
  match_here re_inline_math bef (u "$" ++ f ++ u "$" ++ post)
  = Some (length (u "$" ++ f ++ u "$"), Found (u "$" ++ f ++ u "$") f).
Proof.
  intros Hbef Hpost Hne Hdollar HLF.
  assert (forall s : str,
            match s with [] => True | y :: _ => y <> c "$" end ->
            look (chars "$") s = false) as Hlook.
  { intros [|y s] Hs; [reflexivity|].
    change (chars "$") with [CChar (c "$")]. cbn [look cc_match].
    destruct (N.eqb_spec y (c "$")); done. }
  assert (rmatch re_inline_math
            (MState bef (u "$" ++ f ++ u "$" ++ post) None) Some
          = Some (MState (rev (u "$") ++ rev f ++ rev (u "$") ++ bef) post
                    (Some f))) as Hm.
  { unfold re_inline_math, lit.
    cbn [cat foldr rmatch before after group1].
    change (rev (chars "$")) with (chars "$").
    rewrite (Hlook bef) by done. cbn [eqb].
    rewrite starts_with_app, drop_app_length. cbn [before after group1].
    rewrite (Hlook (f ++ u "$" ++ post)).
    2:{ destruct f as [|y f]; [done|]. intros ->. apply Hdollar. left. }
    cbn [eqb]. unfold lazy_plus. cbn [rmatch before after group1].
    apply rep_lazy_take.
    - apply Forall_forall. intros x Hx. cbn [cc_match existsb].
      destruct (N.eqb_spec x (c "$")) as [->|_]; [done|].
      destruct (N.eqb_spec x LF) as [->|_]; done.
    - destruct f; [done | cbn; lia].
    - intros b x a Hx. cbn [before after starts_with].
      change (u "$") with [c "$"]. cbn [starts_with].
      destruct (N.eqb_spec (c "$") x) as [<-|_]; done.
    - cbn [before after]. unfold captured. cbn [after].
      rewrite length_app, Nat.add_sub, take_app_length.
      rewrite starts_with_app, drop_app_length. cbn [before after group1].
      by rewrite (Hlook post) by done. }
  unfold match_here. rewrite Hm. cbn [after group1 default].
  replace (u "$" ++ f ++ u "$" ++ post)
    with ((u "$" ++ f ++ u "$") ++ post) by (by rewrite <- !app_assoc).
  by rewrite length_app, Nat.add_sub, take_app_length.
Qed.

Lemma plain_head (x : char) (s : str) :
  x ∈ markup -> plain s = true ->
  match s with [] => True | y :: _ => y <> x end.
Proof.
  intros Hx Hplain. destruct s as [|y s]; [done|]. intros ->.
  apply (plain_without (x :: s) x); [done | done | left].
Qed.

Lemma plain_rev (s : str) : plain s = true -> plain (rev s) = true.
Proof.
  unfold plain. rewrite !forallb_forall. intros Hs x Hx.
  by apply Hs, in_rev.
Qed.

(** What [extract_math] does to a text with one inline formula. *)
Lemma extract_inline_formula (pre f post : str) :
  plain pre = true -> plain post = true ->
  f <> [] -> c "$" ∉ f -> c "\" ∉ f -> LF ∉ f ->
  extract_math (pre ++ u "$" ++ f ++ u "$" ++ post)
  = (MathState 1 [(u "__LATEX_INLINE_0__", u "$" ++ f ++ u "$")],
     pre ++ u "__LATEX_INLINE_0__" ++ post).
Proof.
  intros Hpre Hpost Hne Hdollar Hslash HLF.
  assert (c "$" ∈ markup) as Hmd by (by apply existsb_elem_of).
  assert (c "\" ∈ markup) as Hms by (by apply existsb_elem_of).
  assert (c "$" ∉ post) as Hpd by (by apply plain_without).
  unfold extract_math.
  rewrite no_display_math.
  2:{ rewrite adjacent_absent by (by apply plain_without).
      change (u "$" ++ f ++ u "$" ++ post)
        with (c "$" :: (f ++ c "$" :: post)).
      cbn [adjacent]. rewrite adjacent_absent by done.
      rewrite adjacent_single by done.
      destruct f as [|y f]; [done|]. cbn [app].
      destruct (N.eqb_spec y (c "$")) as [->|_];
        [exfalso; apply Hdollar; left|].
      by rewrite andb_false_r. }
  rewrite (sub_with_without re_latex_display_math _ _ (c "\"));
    [|reflexivity|].
  2:{ apply absent_around; try done; try (by apply plain_without);
        by apply absent_literal. }
  assert (sub_with re_inline_math replace_inline_math (MathState 0 [])
            (pre ++ u "$" ++ f ++ u "$" ++ post)
          = (MathState 1 [(u "__LATEX_INLINE_0__", u "$" ++ f ++ u "$")],
             pre ++ u "__LATEX_INLINE_0__" ++ post)) as ->.
  { assert (forall text, plain text = true ->
                         Forall (cannot_start re_inline_math) text) as Hcopy.
    { intros text Htext. apply Forall_forall. intros x Hx.
      apply inline_math_cannot_start. intros ->.
      by apply (plain_without text (c "$")). }
    unfold sub_with. rewrite sub_scan_copy by (by apply Hcopy).
    replace (u "$" ++ f ++ u "$" ++ post)
      with ((u "$" ++ f ++ u "$") ++ post) by (by rewrite <- !app_assoc).
    rewrite (sub_scan_step_match _ _ _ _ _ _
               (Found (u "$" ++ f ++ u "$") f)); [|done|].
    2:{ rewrite <- !app_assoc, app_nil_r. apply match_inline_math; try done.
        - pose proof (plain_head (c "$") (rev pre) Hmd) as Hhead.
          by apply Hhead, plain_rev.
        - by apply plain_head. }
    rewrite sub_scan_rest;
      [reflexivity | apply inline_math_not_at_end | by apply Hcopy]. }
  apply (sub_with_without _ _ _ (c "\")); [reflexivity|].
  rewrite !elem_of_app. intros [Hin|[Hin|Hin]].
  - by apply (plain_without pre (c "\")).
  - by apply existsb_elem_of in Hin.
  - by apply (plain_without post (c "\")).
Qed.

(** ** What becomes of the placeholder *)

Lemma look_absent (x : char) (ks : list cclass) :
  CChar x ∈ ks -> forall s, x ∉ s -> look ks s = false.
Proof.
  induction ks as [|k ks IH]; intros Hk s Hx.
  - by apply elem_of_nil in Hk.
  - destruct s as [|y s]; [reflexivity|]. cbn [look].
    apply elem_of_cons in Hk as [<-|Hk].
    + cbn [cc_match]. destruct (N.eqb_spec y x) as [->|_]; [|done].
      exfalso. apply Hx. left.
    + rewrite IH; [apply andb_false_r | done |].
      intros Hin. apply Hx. by right.
Qed.

Lemma italic_underscore_cannot_start (x : char) :
  x <> c "_" -> cannot_start re_italic_underscore x.
Proof.
  intros Hne bef aft. unfold match_here, re_italic_underscore, lit.
  cbn [cat foldr rmatch before after group1].
  change (u "_") with [c "_"]. cbn [starts_with].
  destruct (N.eqb_spec (c "_") x) as [<-|_]; [done|]. cbn [andb].
  by destruct (eqb _ _).
Qed.

Lemma italic_underscore_not_at_end (bef : str) :
  match_here re_italic_underscore bef [] = None.
Proof.
  unfold match_here, re_italic_underscore, lit.
  cbn [cat foldr rmatch before after group1 starts_with].
  by destruct (eqb _ _).
Qed.

(** The match of the underscore-italic pattern on [_t_]. *)
Lemma match_italic_underscore (bef t post : str) :
  look (rev (chars "__LATEX_")) bef = false ->
  look (chars "__") post = false ->
  t <> [] -> c "_" ∉ t -> LF ∉ t ->
  match_here re_italic_underscore bef (u "_" ++ t ++ u "_" ++ post)
  = Some (length (u "_" ++ t ++ u "_"), Found (u "_" ++ t ++ u "_") t).
Proof.
  intros Hbehind Hahead Hne Hfree HLF.
  assert (rmatch re_italic_underscore
            (MState bef (u "_" ++ t ++ u "_" ++ post) None) Some
          = Some (MState (rev (u "_") ++ rev t ++ rev (u "_") ++ bef) post
                    (Some t))) as Hm.
  { unfold re_italic_underscore, lit.
    cbn [cat foldr rmatch before after group1].
    rewrite Hbehind. cbn [eqb].
    rewrite starts_with_app, drop_app_length. cbn [before after group1].
    unfold lazy_plus. cbn [rmatch before after group1].
    apply rep_lazy_take.
    - apply Forall_forall. intros x Hx. cbn [cc_match existsb].
      destruct (N.eqb_spec x (c "_")) as [->|_]; [done|].
      destruct (N.eqb_spec x LF) as [->|_]; done.
    - destruct t; [done | cbn; lia].
    - intros b x a Hx. cbn [before after starts_with].
      change (u "_") with [c "_"]. cbn [starts_with].
      destruct (N.eqb_spec (c "_") x) as [<-|_]; done.
    - cbn [before after]. unfold captured. cbn [after].
      rewrite length_app, Nat.add_sub, take_app_length.
      rewrite starts_with_app, drop_app_length. cbn [before after group1].
      by rewrite Hahead. }
  unfold match_here. rewrite Hm. cbn [after group1 default].
  replace (u "_" ++ t ++ u "_" ++ post)
    with ((u "_" ++ t ++ u "_") ++ post) by (by rewrite <- !app_assoc).
  by rewrite length_app, Nat.add_sub, take_app_length.
Qed.

(** The underscore-italic substitution on the placeholder of the first
    inline formula: [_LATEX_] and [_0_] are taken for italics. *)
Lemma italic_underscore_on_placeholder (bef post : str) :
  c "_" ∉ bef -> c "_" ∉ post ->
  sub_scan re_italic_underscore (fun (_ : unit) m => (tt, expand Group1 m)) tt
    bef (u "__LATEX_INLINE_0__" ++ post) 0
  = (tt, u "_LATEXINLINE0_" ++ post).
Proof.
  intros Hbef Hpost.
  assert (Forall (cannot_start re_italic_underscore) post) as Hcopy.
  { apply Forall_forall. intros x Hx.
    apply italic_underscore_cannot_start. by intros ->. }
  change (u "__LATEX_INLINE_0__" ++ post)
    with (c "_" :: (u "_LATEX_" ++ u "INLINE" ++ u "_0_" ++ c "_" :: post)).
  rewrite sub_scan_step_none.
  2:{ unfold match_here, re_italic_underscore, lit.
      cbn [cat foldr rmatch before after group1].
      by destruct (eqb _ _). }
  rewrite (sub_scan_step_match _ _ _ _ (u "_LATEX_") _
             (Found (u "_LATEX_") (u "LATEX"))); [|done|].
  2:{ apply (match_italic_underscore _ (u "LATEX")); try done.
      - change (rev (chars "__LATEX_"))
          with (CChar (c "_") :: rev (chars "__LATEX")).
        cbn [look cc_match]. rewrite N.eqb_refl. cbn [andb].
        apply (look_absent (c "_")); [|done].
        by apply list_elem_of_In; right; right; right; right; right; left.
      - by apply absent_literal.
      - by apply absent_literal. }
  cbn [fst snd expand group_1].
  rewrite (sub_scan_copy _ _ _ (u "INLINE")).
  2:{ repeat constructor; by apply italic_underscore_cannot_start. }
  change (u "_0_" ++ c "_" :: post) with (u "_0_" ++ (c "_" :: post)).
  rewrite (sub_scan_step_match _ _ _ _ (u "_0_") _
             (Found (u "_0_") (u "0"))); [|done|].
  2:{ apply (match_italic_underscore _ (u "0")); try done.
      - change (chars "__") with [CChar (c "_"); CChar (c "_")].
        cbn [look cc_match]. rewrite N.eqb_refl. cbn [andb].
        destruct post as [|y post']; [done|].
        destruct (N.eqb_spec y (c "_")) as [->|_]; [|done].
        exfalso. apply Hpost. left.
      - by apply absent_literal.
      - by apply absent_literal. }
  cbn [fst snd expand group_1].
  rewrite sub_scan_step_none.
  2:{ destruct (match_here _ _ _) as [[n m]|] eqn:Hm; [|done].
      apply match_here_shape in Hm as (mid & rest & Heq & Hshape & _).
      exfalso. apply Hpost.
      destruct Hshape as (m1 & m2 & -> & -> & m3 & m4 & -> & -> & m5 & m6
                          & -> & _ & m7 & m8 & -> & -> & _).
      cbn [app] in Heq. injection Heq as ->.
      rewrite !elem_of_app. left. right. left. }
  rewrite sub_scan_rest;
    [reflexivity | apply italic_underscore_not_at_end | done].
Qed.

Lemma bold_underscore_on_placeholder (bef post : str) :
  c "_" ∉ post ->
  sub_scan re_bold_underscore (fun (_ : unit) m => (tt, expand Group1 m)) tt
    bef (u "__LATEX_INLINE_0__" ++ post) 0
  = (tt, u "__LATEX_INLINE_0__" ++ post).
Proof.
  intros Hpost.
  assert (Forall (cannot_start re_bold_underscore) post) as Hcopy.
  { apply Forall_forall. intros x Hx. apply cannot_start_lit. by intros ->. }
  change (u "__LATEX_INLINE_0__" ++ post)
    with (u "__LATEX_INLINE_0" ++ c "_" :: c "_" :: post).
  let k := eval vm_compute in (u "__LATEX_INLINE_0") in
  change (u "__LATEX_INLINE_0") with k.
  cbn [app].
  do 16 (rewrite sub_scan_step_none by reflexivity; cbn [fst snd]).
  rewrite sub_scan_step_none.
  2:{ destruct (match_here _ _ _) as [[n m]|] eqn:Hm; [|done].
      apply match_here_shape in Hm as (mid & rest & Heq & Hshape & _).
      exfalso. apply Hpost.
      destruct Hshape as (m1 & m2 & -> & -> & m3 & m4 & -> & _ & m5 & m6
                          & -> & -> & _).
      cbn [app] in Heq. injection Heq as ->.
      rewrite !elem_of_app. left. right. left. }
  rewrite sub_scan_step_none.
  2:{ unfold match_here, re_bold_underscore, lit.
      cbn [cat foldr rmatch before after group1].
      change (u "__") with [c "_"; c "_"]. cbn [starts_with].
      destruct post as [|y post']; [done|].
      destruct (N.eqb_spec (c "_") y) as [<-|_]; [|by rewrite andb_false_r].
      exfalso. apply Hpost. left. }
  by rewrite sub_scan_rest.
Qed.

Lemma absent_between (x : char) (a b d : str) :
  x ∉ a -> x ∉ b -> x ∉ d -> x ∉ a ++ b ++ d.
Proof. rewrite !elem_of_app. tauto. Qed.

(** The markdown phase turns the placeholder of an inline formula into
    [_LATEXINLINE0_]. *)
Lemma remove_markdown_on_placeholder (pre post : str) :
  plain pre = true -> plain post = true ->
  remove_markdown (pre ++ u "__LATEX_INLINE_0__" ++ post)
  = pre ++ u "_LATEXINLINE0_" ++ post.
Proof.
  intros Hpre Hpost.
  assert (forall x lit,
            x ∈ markup -> existsb (N.eqb x) lit = false ->
            x ∉ pre ++ lit ++ post) as Habsent.
  { intros x lit Hx Hlit.
    apply absent_between;
      (by apply plain_without) || by apply absent_literal. }
  assert (c "_" ∈ markup) as Hunder by (by apply existsb_elem_of).
  assert (forall r, Forall (cannot_start r) pre ->
            sub r Group1 (pre ++ u "__LATEX_INLINE_0__" ++ post)
            = pre ++ snd (sub_scan r
                            (fun (_ : unit) m => (tt, expand Group1 m)) tt
                            (rev pre ++ [])
                            (u "__LATEX_INLINE_0__" ++ post) 0)) as Hscan.
  { intros r Hcopy. unfold sub, sub_with. by rewrite sub_scan_copy. }
  unfold remove_markdown.
  rewrite (sub_without re_header _ (c "#"));
    [|reflexivity|by apply Habsent; [apply existsb_elem_of|]].
  rewrite (sub_without re_bold _ (c "*"));
    [|reflexivity|by apply Habsent; [apply existsb_elem_of|]].
  rewrite (sub_without re_italic _ (c "*"));
    [|reflexivity|by apply Habsent; [apply existsb_elem_of|]].
  rewrite (Hscan re_bold_underscore) by (by apply plain_cannot_start).
  rewrite bold_underscore_on_placeholder by (by apply plain_without).
  cbn [snd].
  rewrite (Hscan re_italic_underscore).
  2:{ apply Forall_forall. intros x Hx.
      apply italic_underscore_cannot_start. intros ->.
      by apply (plain_without pre (c "_")). }
  rewrite italic_underscore_on_placeholder; [|  |by apply plain_without].
  2:{ rewrite app_nil_r. intros Hin. apply (proj1 (elem_of_rev _ _)) in Hin.
      by apply (plain_without pre (c "_")). }
  cbn [snd].
  rewrite (sub_without re_rule_dash _ (c "-"));
    [|reflexivity|by apply Habsent; [apply existsb_elem_of|]].
  rewrite (sub_without re_rule_equals _ (c "="));
    [|reflexivity|by apply Habsent; [apply existsb_elem_of|]].
  rewrite (sub_without re_code_block _ (c "`"));
    [|reflexivity|by apply Habsent; [apply existsb_elem_of|]].
  rewrite (sub_without re_code_span _ (c "`"));
    [|reflexivity|by apply Habsent; [apply existsb_elem_of|]].
  apply (sub_without _ _ (c "["));
    [reflexivity|by apply Habsent; [apply existsb_elem_of|]].
Qed.

(** ** A formula that does not come back *)

Lemma no_line_feed_no_run (s : str) : LF ∉ s -> has_3_newlines s = false.
Proof.
  induction s as [|x s IH]; intros Hfree; [reflexivity|].
  cbn [has_3_newlines starts_with].
  rewrite IH by (intros Hin; apply Hfree; by right).
  destruct (N.eqb_spec LF x) as [<-|_]; [exfalso; apply Hfree; left|].
  reflexivity.
Qed.

Lemma lstrip_app_fixed (a b : str) :
  a <> [] -> lstrip a = a -> lstrip (a ++ b) = a ++ b.
Proof.
  destruct a as [|x a]; [done|]. intros _ Ha.
  apply (proj1 (lstrip_head x a)) in Ha.
  by apply (proj2 (lstrip_head x (a ++ b))).
Qed.

Lemma starts_with_pair (x : char) (old s : str) :
  starts_with [x; x] s = false -> starts_with (x :: x :: old) s = false.
Proof.
  destruct s as [|y [|z s]]; [done | |]; cbn [starts_with].
  - by rewrite andb_false_r.
  - rewrite andb_true_r. intros H.
    destruct (N.eqb x y); [|done]. destruct (N.eqb x z); done.
Qed.

(** [replace] finds nothing to replace where the text has no occurrence
    of the first two characters of what it looks for. *)
Lemma replace_without_pair (x : char) (old new : str) :
  forall s,
    adjacent x s = false -> replace (x :: x :: old) new s = s.
Proof.
  unfold replace. induction s as [|y s IH]; intros Hno; [reflexivity|].
  cbn [replace_from].
  rewrite starts_with_pair by (by apply no_pair_no_start).
  by rewrite IH by (by eapply adjacent_tail).
Qed.

(** X20. An inline formula is not preserved: in a one-line text without other
    markup, [extract_math] puts the placeholder [__LATEX_INLINE_0__] in place
    of the formula, the underscore-italic substitution turns the placeholder
    into [_LATEXINLINE0_], the restoring [replace] then finds no placeholder,
    and [strip_markdown] returns the text with [_LATEXINLINE0_] where the
    formula was. *)
Theorem inline_formula_is_not_restored (pre f post : str) :
  plain pre = true -> plain post = true ->
  LF ∉ pre -> LF ∉ post ->
  lstrip pre = pre -> lstrip (rev post) = rev post ->
  f <> [] -> c "$" ∉ f -> c "\" ∉ f -> LF ∉ f ->
  extract_math (pre ++ u "$" ++ f ++ u "$" ++ post)
  = (MathState 1 [(u "__LATEX_INLINE_0__", u "$" ++ f ++ u "$")],
     pre ++ u "__LATEX_INLINE_0__" ++ post)
  /\ remove_markdown (pre ++ u "__LATEX_INLINE_0__" ++ post)
     = pre ++ u "_LATEXINLINE0_" ++ post
  /\ strip_markdown (pre ++ u "$" ++ f ++ u "$" ++ post)
     = pre ++ u "_LATEXINLINE0_" ++ post.
Proof.
  intros Hpre Hpost HLFpre HLFpost Hlpre Hrpost Hne Hdollar Hslash HLF.
  pose proof (extract_inline_formula pre f post Hpre Hpost Hne Hdollar
                Hslash HLF) as Hextract.
  pose proof (remove_markdown_on_placeholder pre post Hpre Hpost) as Hremove.
  split; [exact Hextract|]. split; [exact Hremove|].
  set (out := pre ++ u "_LATEXINLINE0_" ++ post) in *.
  assert (LF ∉ out) as Hfree.
  { apply absent_between; [done | by apply absent_literal | done]. }
  assert (lstrip out = out) as Hleft.
  { unfold out. destruct pre as [|x pre']; [reflexivity|].
    by apply lstrip_app_fixed. }
  assert (lstrip (rev out) = rev out) as Hright.
  { unfold out. rewrite !rev_app_distr, <- app_assoc.
    destruct (rev post) as [|x post']; [reflexivity|].
    by apply lstrip_app_fixed. }
  assert (strip out = out) as Hstrip by (by apply strip_fixed).
  assert (adjacent (c "_") out = false) as Hpair.
  { unfold out.
    rewrite adjacent_absent
      by (apply plain_without; [done | by apply existsb_elem_of]).
    change (u "_LATEXINLINE0_" ++ post)
      with (c "_" :: (u "LATEXINLINE0" ++ c "_" :: post)).
    cbn [adjacent]. rewrite adjacent_absent by (by apply absent_literal).
    rewrite adjacent_single
      by (apply plain_without; [done | by apply existsb_elem_of]).
    reflexivity. }
  unfold strip_markdown. rewrite Hextract, Hremove.
  cbn [math_placeholders]. unfold clean_whitespace.
  rewrite collapse_without_run by (by apply no_line_feed_no_run).
  unfold strip_lines. rewrite split_line by done. cbn [map join].
  rewrite Hstrip. unfold restore_math. cbn [fold_left].
  change (u "__LATEX_INLINE_0__")
    with (c "_" :: c "_" :: u "LATEX_INLINE_0__").
  by rewrite replace_without_pair.
Qed.

Lemma inline_formula_is_not_restored_witness :
  plain (u "This is ") = true
  /\ plain (u " math.") = true
  /\ lstrip (u "This is ") = u "This is "
  /\ lstrip (rev (u " math.")) = rev (u " math.")
  /\ u "x^2+1" <> []
  /\ strip_markdown (u "This is " ++ u "$" ++ u "x^2+1" ++ u "$" ++ u " math.")
     = u "This is " ++ u "_LATEXINLINE0_" ++ u " math.".
Proof.
  split; [reflexivity|]. split; [reflexivity|]. split; [reflexivity|].
  split; [reflexivity|]. split; [discriminate|].
  refine (proj2 (proj2 (inline_formula_is_not_restored (u "This is ")
                          (u "x^2+1") (u " math.") eq_refl eq_refl _ _
                          eq_refl eq_refl _ _ _ _)));
    try discriminate; by apply absent_literal.
Defined.

(** ** The numbering of the placeholders *)

Lemma sub_scan_invariant {S : Type} (I : S -> Prop) (r : regex)
    (repl : S -> found -> S * str) :
  (forall s m, I s -> I (fst (repl s m))) ->
  forall aft s bef skip,
    I s -> I (fst (sub_scan r repl s bef aft skip)).
Proof.
  intros Hrepl. induction aft as [|x rest IH]; intros s bef skip Hs.
  - destruct skip; cbn [sub_scan]; [|done].
    destruct (match_here r bef []) as [[n m]|]; [|done].
    specialize (Hrepl s m Hs). by destruct (repl s m).
  - destruct skip as [|skip]; cbn [sub_scan]; [|by apply IH].
    destruct (match_here r bef (x :: rest)) as [[n m]|].
    + specialize (Hrepl s m Hs). destruct (repl s m) as [s1 out].
      cbn [fst] in Hrepl. destruct n as [|n].
      * specialize (IH s1 (x :: bef) 0 Hrepl).
        by destruct (sub_scan r repl s1 (x :: bef) rest 0).
      * specialize (IH s1 (x :: bef) n Hrepl).
        by destruct (sub_scan r repl s1 (x :: bef) rest n).
    + specialize (IH s (x :: bef) 0 Hs).
      by destruct (sub_scan r repl s (x :: bef) rest 0).
Qed.

Lemma str_eqb_eq (a b : str) : str_eqb a b = true <-> a = b.
Proof.
  revert b. induction a as [|x a IH]; intros [|y b]; cbn; try done.
  rewrite andb_true_iff, N.eqb_eq, IH. split; [by intros [-> ->]|].
  by intros [= -> ->].
Qed.

Lemma dict_set_new (key value : str) (d : list (str * str)) :
  (forall k v, (k, v) ∈ d -> k <> key) ->
  dict_set key value d = d ++ [(key, value)].
Proof.
  induction d as [|[k v] d IH]; intros Hnew; [reflexivity|].
  cbn [dict_set app].
  destruct (str_eqb k key) eqn:Heq.
  - apply str_eqb_eq in Heq. exfalso. by apply (Hnew k v); [left|].
  - rewrite IH; [done|]. intros k' v' Hin. apply (Hnew k' v'). by right.
Qed.

Lemma u_inj (s t : string) : u s = u t -> s = t.
Proof.
  unfold u. intros Heq.
  rewrite <- (string_of_list_ascii_of_string s),
    <- (string_of_list_ascii_of_string t).
  f_equal. revert Heq.
  generalize (list_ascii_of_string s) (list_ascii_of_string t).
  induction l as [|a l IH]; intros [|b l'] Heq; try done.
  cbn in Heq. injection Heq as Hab Hl.
  f_equal; [|by apply IH].
  rewrite <- (ascii_N_embedding a), <- (ascii_N_embedding b). by rewrite Hab.
Qed.

Lemma to_uint_digits (n : nat) : Nat.to_uint n <> Decimal.Nil.
Proof.
  rewrite <- (Unsigned.of_to n) at 1. rewrite Unsigned.to_of.
  apply unorm_nonnil.
Qed.

Lemma decimal_inj (i j : nat) : decimal i = decimal j -> i = j.
Proof.
  unfold decimal. intros Heq. apply u_inj in Heq.
  apply (f_equal NilZero.uint_of_string) in Heq.
  rewrite !NilZero.usu in Heq by apply to_uint_digits.
  injection Heq as Heq. by apply Unsigned.to_uint_inj.
Qed.

Lemma placeholder_inj (display display' : bool) (i j : nat) :
  placeholder (if display then "__LATEX_DISPLAY_" else "__LATEX_INLINE_") i
  = placeholder (if display' then "__LATEX_DISPLAY_" else "__LATEX_INLINE_") j
  -> i = j.
Proof.
  unfold placeholder. destruct display, display'; intros Heq.
  - apply app_inv_head, app_inv_tail in Heq. by apply decimal_inj.
  - cbn in Heq. discriminate Heq.
  - cbn in Heq. discriminate Heq.
  - apply app_inv_head, app_inv_tail in Heq. by apply decimal_inj.
Qed.

Lemma remember_numbered (display : bool) (formula : found -> str)
    (st : math_state) (m : found) :
  numbered st ->
  numbered
    (fst (remember (if display then "__LATEX_DISPLAY_" else "__LATEX_INLINE_")
            formula st m)).
Proof.
  intros [Hlen Hkeys]. unfold remember. cbn [fst].
  fold (placeholder (if display then "__LATEX_DISPLAY_" else "__LATEX_INLINE_")
          (placeholder_counter st)).
  rewrite dict_set_new.
  - split; cbn [math_placeholders placeholder_counter].
    + rewrite length_app. cbn. lia.
    + intros i key value Hi.
      apply lookup_app_Some in Hi as [Hi|[Hge Hi]]; [by eapply Hkeys|].
      apply list_lookup_singleton_Some in Hi as [Hi [= <- <-]].
      replace i with (placeholder_counter st) by lia.
      destruct display; [by left | by right].
  - intros k v Hin Heq.
    apply list_elem_of_lookup in Hin as [i Hi].
    pose proof (lookup_lt_Some _ _ _ Hi) as Hlt.
    destruct (Hkeys i k v Hi) as [->| ->].
    + apply (placeholder_inj true display) in Heq. lia.
    + apply (placeholder_inj false display) in Heq. lia.
Qed.

(** X21. Whatever the text, every formula [extract_math] finds gets a
    placeholder of its own: the entries of the dict are numbered 0, 1, ... in
    the order the formulas were found, the counter is their number, and no two
    entries have the same placeholder, so that no formula overwrites another.
    *)
Theorem placeholders_are_numbered (text : str) :
  length (math_placeholders (fst (extract_math text)))
  = placeholder_counter (fst (extract_math text))
  /\ (forall i key formula,
        math_placeholders (fst (extract_math text)) !! i = Some (key, formula)
        -> key = placeholder "__LATEX_DISPLAY_" i
           \/ key = placeholder "__LATEX_INLINE_" i)
  /\ NoDup (map fst (math_placeholders (fst (extract_math text)))).
Proof.
  assert (numbered (fst (extract_math text))) as [Hlen Hkeys].
  { unfold extract_math.
    pose proof (sub_scan_invariant numbered re_display_math
                  replace_display_math
                  (fun s m => remember_numbered true group0 s m)
                  text (MathState 0 []) [] 0) as H1.
    unfold sub_with.
    destruct (sub_scan re_display_math _ _ _ _ _) as [st1 text1].
    pose proof (sub_scan_invariant numbered re_latex_display_math
                  replace_latex_display_math
                  (fun s m => remember_numbered true _ s m)
                  text1 st1 [] 0) as H2.
    destruct (sub_scan re_latex_display_math _ _ _ _ _) as [st2 text2].
    pose proof (sub_scan_invariant numbered re_inline_math
                  replace_inline_math
                  (fun s m => remember_numbered false group0 s m)
                  text2 st2 [] 0) as H3.
    destruct (sub_scan re_inline_math _ _ _ _ _) as [st3 text3].
    apply (sub_scan_invariant numbered re_latex_inline_math
             replace_latex_inline_math
             (fun s m => remember_numbered false _ s m)).
    apply H3, H2, H1. split; [reflexivity|].
    intros i key formula Hi. cbn [math_placeholders] in Hi.
    by rewrite lookup_nil in Hi. }
  split; [exact Hlen|]. split; [exact Hkeys|].
  apply NoDup_alt. intros i j key Hi Hj.
  change (map ?f ?l) with (f <$> l) in Hi, Hj.
  rewrite list_lookup_fmap in Hi, Hj.
  destruct (math_placeholders _ !! i) as [[ki vi]|] eqn:Hi'; [|done].
  destruct (math_placeholders _ !! j) as [[kj vj]|] eqn:Hj'; [|done].
  cbn in Hi, Hj. injection Hi as ->. injection Hj as ->.
  destruct (Hkeys i key vi Hi') as [Hki|Hki],
    (Hkeys j key vj Hj') as [Hkj|Hkj]; rewrite Hki in Hkj.
  - by apply (placeholder_inj true true) in Hkj.
  - by apply (placeholder_inj true false) in Hkj.
  - by apply (placeholder_inj false true) in Hkj.
  - by apply (placeholder_inj false false) in Hkj.
Qed.

(** ** Normalizing twice, without formulas *)

(** X30. Without formulas, normalizing is idempotent wherever one pass
    removes all the markup: for a text without dollar sign and backslash
    whose normal form has no math or markdown character left and no three
    line feeds in a row, normalizing the normal form changes nothing. *)
Theorem normalize_idempotent_without_math (text : str) :
  c "$" ∉ text ->
  c "\" ∉ text ->
  plain (strip_markdown text) = true ->
  has_3_newlines (strip_markdown text) = false ->
  strip_markdown (strip_markdown text) = strip_markdown text.
Proof.
  intros Hdollar Hslash Hplain Hrun.
  destruct (plain_strip_markdown _ Hplain) as [-> _].
  rewrite collapse_without_run by done.
  unfold strip_markdown in *.
  rewrite extract_math_without in * by done.
  cbn [math_placeholders restore_math fold_left] in *.
  unfold clean_whitespace.
  rewrite strip_lines_stable. apply strip_idem.
Qed.

Lemma normalize_idempotent_without_math_witness :
  (c "$" ∉ join [LF] [u "# Title"; u " **bold** and [link](url) "])
  /\ (c "\" ∉ join [LF] [u "# Title"; u " **bold** and [link](url) "])
  /\ strip_markdown (join [LF] [u "# Title"; u " **bold** and [link](url) "])
     = join [LF] [u "Title"; u "bold and link"]
  /\ strip_markdown
       (strip_markdown
          (join [LF] [u "# Title"; u " **bold** and [link](url) "]))
     = strip_markdown
         (join [LF] [u "# Title"; u " **bold** and [link](url) "]).
Proof.
  assert (forall x,
            existsb (N.eqb x)
              (join [LF] [u "# Title"; u " **bold** and [link](url) "])
            = false ->
            x ∉ join [LF] [u "# Title"; u " **bold** and [link](url) "])
    as Habsent.
  { intros x Hno Hin. apply existsb_elem_of in Hin. congruence. }
  assert (c "$" ∉ join [LF] [u "# Title"; u " **bold** and [link](url) "])
    as Hdollar by (apply Habsent; reflexivity).
  assert (c "\" ∉ join [LF] [u "# Title"; u " **bold** and [link](url) "])
    as Hslash by (apply Habsent; reflexivity).
  split; [exact Hdollar|]. split; [exact Hslash|].
  split; [vm_compute; reflexivity|].
  apply normalize_idempotent_without_math;
    [exact Hdollar | exact Hslash | vm_compute; reflexivity
    | vm_compute; reflexivity].
Defined.

(** * Loading and serving *)

Import Loader Server.


(** ** The model directory *)

Lemma filter_nil_Forall {A : Type} (f : A -> bool) (l : list A) :
  List.filter f l = [] <-> Forall (fun x => f x = false) l.
Proof.
  induction l as [|x l IH]; [by split|].
  cbn. destruct (f x) eqn:Hx.
  - split; [done|]. inversion 1; congruence.
  - rewrite IH. split; [by constructor | by inversion 1].
Qed.

(** X22. [validate_model_path] returns the path exactly when the directory,
    the three required files and one of the two weight files exist. When the
    directory exists and something is missing, the files reported are exactly
    the required files that do not exist, and the weights entry exactly when
    neither weight file exists. *)
Theorem validate_model_path_reports_what_is_missing (d : disk) :
  (validate_model_path d = ModelPath
   <-> model_path_exists d = true
       /\ Forall (fun fname => file_exists d fname = true) REQUIRED_FILES
       /\ Exists (fun fname => file_exists d fname = true) WEIGHT_FILES)
  /\ (validate_model_path d = PathDoesNotExist
      <-> model_path_exists d = false)
  /\ forall missing,
       validate_model_path d = MissingRequiredFiles missing ->
       model_path_exists d = true
       /\ missing <> []
       /\ forall fname,
            fname ∈ missing
            <-> (fname ∈ REQUIRED_FILES /\ file_exists d fname = false)
                \/ (fname = "pytorch_model.bin or model.safetensors"%string
                    /\ Forall (fun weights => file_exists d weights = false)
                         WEIGHT_FILES).
Proof.
  unfold validate_model_path.
  destruct (model_path_exists d); cbn [negb]; cycle 1.
  { split; [split; [discriminate | intros [Hno _]; discriminate Hno]|].
    split; [by split | discriminate]. }
  set (missing := List.filter (fun fname => negb (file_exists d fname))
                    REQUIRED_FILES).
  assert (missing = []
          <-> Forall (fun fname => file_exists d fname = true) REQUIRED_FILES)
    as Hrequired.
  { unfold missing. rewrite filter_nil_Forall. split; intros Hall;
      (eapply Forall_impl; [exact Hall|]); cbn; intros fname;
      by destruct (file_exists d fname). }
  assert (forall fname,
            fname ∈ missing
            <-> fname ∈ REQUIRED_FILES /\ file_exists d fname = false)
    as Hmissing.
  { intros fname. unfold missing.
    rewrite !list_elem_of_In, filter_In, negb_true_iff. done. }
  destruct (existsb (file_exists d) WEIGHT_FILES) eqn:Hweights.
  - assert (Exists (fun fname => file_exists d fname = true) WEIGHT_FILES)
      as Hsome.
    { apply existsb_exists in Hweights as (fname & Hin & Hex).
      apply Exists_exists. exists fname. split; [|exact Hex].
      by apply list_elem_of_In. }
    split; [|split; [destruct missing; split; discriminate|]].
    + destruct missing as [|first others] eqn:Heq.
      * split; [|done]. intros _. by rewrite <- Hrequired.
      * split; [done|]. intros (_ & Hall & _). by apply Hrequired in Hall.
    + intros reported Hreported.
      destruct missing as [|first others] eqn:Heq; [done|].
      injection Hreported as <-. split; [done|]. split; [done|].
      intros fname. rewrite Hmissing. split; [by left|].
      intros [Hin|[_ Hnone]]; [done|].
      apply Exists_exists in Hsome as (weights & Hin & Hex).
      rewrite Forall_forall in Hnone. rewrite (Hnone _ Hin) in Hex. done.
  - assert (Forall (fun weights => file_exists d weights = false) WEIGHT_FILES)
      as Hnone.
    { apply Forall_forall. intros weights Hin.
      destruct (file_exists d weights) eqn:Hex; [|done].
      assert (existsb (file_exists d) WEIGHT_FILES = true) as Hsome.
      { apply existsb_exists. exists weights. split; [|exact Hex].
        by apply list_elem_of_In. }
      congruence. }
    split; [|split; [destruct (missing ++ _); split; discriminate|]].
    + destruct (missing ++ _) as [|first others] eqn:Heq.
      * by apply app_eq_nil in Heq as [_ ?].
      * split; [done|]. intros (_ & _ & Hsome).
        apply Exists_exists in Hsome as (weights & Hin & Hex).
        rewrite Forall_forall in Hnone. rewrite (Hnone _ Hin) in Hex. done.
    + intros reported Hreported.
      destruct (missing ++ _) as [|first others] eqn:Heq;
        [done|]. injection Hreported as <-. split; [done|]. split; [done|].
      intros fname. rewrite <- Heq, elem_of_app, Hmissing.
      rewrite list_elem_of_singleton. split.
      * intros [Hin| ->]; [by left | by right].
      * intros [Hin|[-> _]]; [by left | by right].
Qed.

(** ** The model cache *)

Lemma load_model_fills_cache (lib : libraries) (d : disk)
    (cache : option loaded) :
  match load_model lib d cache with
  | (Some result, cache', _) => cache' = Some result
  | (None, cache', _) => cache = None /\ cache' = None
  end.
Proof.
  unfold load_model. destruct cache as [cached|]; [reflexivity|].
  destruct (validate_model_path d); try done.
  destruct (load_tokenizer lib) as [[t|] steps]; [|done].
  destruct (auto_model lib); [|done].
  destruct (moves_to lib (select_device lib)); [|done].
  destruct (quantize_on_cpu lib _) as [m quantize].
  by destruct (compile_on_cuda lib m) as [m' compile].
Qed.

(** X23. The model is loaded once: a call of [load_model] that returns has
    left what it returned in the cache, and every later call returns the same
    tokenizer, model and device without a library call, whatever has become of
    the files and the libraries; a call that raises found the cache empty and
    leaves it empty. *)
Theorem load_model_loads_once (lib : libraries) (d : disk)
    (cache : option loaded) :
  match load_model lib d cache with
  | (Some result, cache', _) =>
      cache' = Some result
      /\ forall lib' d',
           load_model lib' d' cache' = (Some result, cache', [])
  | (None, cache', _) => cache = None /\ cache' = None
  end.
Proof.
  pose proof (load_model_fills_cache lib d cache) as Hfill.
  destruct (load_model lib d cache) as [[[result|] cache'] steps]; [|done].
  subst cache'. by split.
Qed.

Lemma load_tokenizer_some (lib : libraries) :
  fst (load_tokenizer lib) <> None
  <-> nllb_tokenizer lib <> None
      \/ auto_tokenizer_fast lib <> None
      \/ auto_tokenizer_slow lib <> None.
Proof.
  unfold load_tokenizer.
  destruct (nllb_tokenizer lib); [cbn; split; [by left | done]|].
  destruct (auto_tokenizer_fast lib); [cbn; split; [by right; left | done]|].
  destruct (auto_tokenizer_slow lib); cbn.
  - split; [by right; right | done].
  - split; [done | by intros [?|[?|?]]].
Qed.

Lemma load_model_result (lib : libraries) (d : disk) :
  (fst (fst (load_model lib d None)) <> None
   <-> validate_model_path d = ModelPath
       /\ (nllb_tokenizer lib <> None
           \/ auto_tokenizer_fast lib <> None
           \/ auto_tokenizer_slow lib <> None)
       /\ auto_model lib = true
       /\ moves_to lib (select_device lib) = true)
  /\ forall tok m dev,
       fst (fst (load_model lib d None)) = Some (tok, m, dev) ->
       dev = select_device lib
       /\ on_device m = dev
       /\ quantized m = is_cpu dev && quantizes lib
       /\ compiled m
          = match dev with
            | Cuda => has_compile lib && compiles lib
            | _ => false
            end
       /\ src_lang tok <> None.
Proof.
  pose proof (load_tokenizer_some lib) as Htok.
  unfold load_model.
  destruct (validate_model_path d);
    try (split; [split; [done | by intros [? _]] | done]).
  destruct (load_tokenizer lib) as [[t|] steps]; cbn [fst] in Htok; cycle 1.
  { split; [|done]. split; [done|]. intros (_ & Hsome & _).
    by apply Htok in Hsome. }
  destruct (auto_model lib); cycle 1.
  { split; [|done]. split; [done | by intros (_ & _ & ? & _)]. }
  destruct (moves_to lib (select_device lib)); cycle 1.
  { split; [|done]. split; [done | by intros (_ & _ & _ & ?)]. }
  assert (src_lang (ensure_src_lang t) <> None) as Hlang.
  { unfold ensure_src_lang. destruct (src_lang t) eqn:Hl; cbn; [|done].
    by rewrite Hl. }
  assert (Some t <> None) as Hsome by done. apply Htok in Hsome.
  unfold quantize_on_cpu, compile_on_cuda.
  destruct (select_device lib) eqn:Hdev, (quantizes lib), (has_compile lib),
    (compiles lib); cbn;
    (split; [split; [by intros _ | done]
            | by intros tok m dev [= <- <- <-]]).
Qed.

(** X24. [load_model] returns exactly when the files are there, one of the
    three tokenizer loaders returns, the model loads and moves to the device;
    the device is CUDA when available, else MPS when available, else the CPU.
    A failure of the quantization or of [torch.compile] never fails the load:
    the model is then used as it is. The model is quantized only on the CPU
    and compiled only on CUDA, and the tokenizer always has a source language.
    *)
Theorem load_model_succeeds_iff (lib : libraries) (d : disk) :
  (fst (fst (load_model lib d None)) <> None
   <-> validate_model_path d = ModelPath
       /\ (nllb_tokenizer lib <> None
           \/ auto_tokenizer_fast lib <> None
           \/ auto_tokenizer_slow lib <> None)
       /\ auto_model lib = true
       /\ moves_to lib (select_device lib) = true)
  /\ forall tok m dev,
       fst (fst (load_model lib d None)) = Some (tok, m, dev) ->
       dev = select_device lib
       /\ on_device m = dev
       /\ quantized m = is_cpu dev && quantizes lib
       /\ compiled m
          = match dev with
            | Cuda => has_compile lib && compiles lib
            | _ => false
            end
       /\ src_lang tok <> None.
Proof. apply load_model_result. Qed.

(** ** Requests *)

(** A call of [translate_stream] that returns has written something. *)
Lemma stream_writes (e : engine) (dev : device) (cpu_count : Z) (text : str)
    (batch_size : option Z) :
  snd (translate_stream e dev cpu_count text batch_size) = None ->
  fst (translate_stream e dev cpu_count text batch_size) <> [].
Proof.
  unfold translate_stream.
  destruct (valid_units _) as [|first others]; [done|].
  destruct (_ =? _)%Z; [done|]. cbv zeta.
  destruct (translated_sentences _); cbn [fst]; intros _ Hnil;
    by apply app_eq_nil in Hnil as [_ ?].
Qed.

Section Requests.
Context {F : Type} (py : python F) (h : host) (cache : loaded).

Lemma serve_app (l1 l2 : list str) :
  forall n,
    Forall (fun line => line <> []) l1 ->
    serve py h cache n (l1 ++ l2)
    = serve py h cache n l1 ++ serve py h cache (n + length l1) l2.
Proof.
  induction l1 as [|line l1 IH]; intros n Hl1.
  - cbn. by rewrite Nat.add_0_r.
  - inversion Hl1 as [|? ? Hline Hrest]; subst.
    destruct line as [|x line]; [done|].
    cbn [app serve length]. rewrite IH by done.
    replace (S n + length l1) with (n + S (length l1)) by lia.
    destruct (strip (x :: line)); [reflexivity | by rewrite <- app_assoc].
Qed.

(** X25. The requests are served one by one and in order, each as if it were
    alone: what is written for a sequence of lines is what is written for its
    first part followed by what is written for the rest; no line, valid or
    not, changes the answer to a later one. Nothing is served after an empty
    read, the end of the input. *)
Theorem requests_are_served_in_order (n : nat) (l1 l2 : list str) :
  Forall (fun line => line <> []) l1 ->
  serve py h cache n (l1 ++ l2)
  = serve py h cache n l1 ++ serve py h cache (n + length l1) l2
  /\ serve py h cache n (l1 ++ [] :: l2) = serve py h cache n l1.
Proof.
  intros Hl1. split; [by apply serve_app|].
  rewrite serve_app by done. cbn [serve]. by rewrite app_nil_r.
Qed.

(** X26. A request without text gets no answer: when the text is missing,
    null, empty or otherwise false, or a blank string, nothing is written to
    standard output for the line (the result with "Missing or empty 'text'
    field" is built and dropped). A request with text that does not stream
    gets exactly one line. *)
Theorem request_without_text_gets_no_reply (n : nat) (line : str)
    (req : list (str * json F)) (batch_size : option Z) :
  loads py line = Parsed (JDict req) ->
  request_batch_size py req = inl batch_size ->
  (truthy py (dict_get (u "text") req) = false ->
   handle_line py h cache n line = [])
  /\ (forall s, dict_get (u "text") req = JStr s -> strip s = [] ->
                handle_line py h cache n line = [])
  /\ (handle_line py h cache n line = [] <-> request_text py req = [])
  /\ (request_stream py req = false ->
      request_text py req <> [] ->
      exists answer, handle_line py h cache n line = [answer]).
Proof.
  intros Hloads Hsize.
  assert (request_text py req = [] -> handle_line py h cache n line = [])
    as Hnone.
  { intros Htext. unfold handle_line. by rewrite Hloads, Hsize, Htext. }
  assert (request_text py req <> [] -> handle_line py h cache n line <> [])
    as Hsome.
  { intros Htext. unfold handle_line. rewrite Hloads, Hsize.
    destruct (request_text py req) as [|x text]; [done|].
    destruct cache as [[tok m] dev]. destruct (request_stream py req).
    - pose proof (stream_writes (engine_for h tok m (request_src_lang py req)
                                   (request_tgt_lang py req))
                    dev (cpu_count h) (x :: text) batch_size) as Hwrites.
      destruct (translate_stream _ _ _ _ _) as [events [exception|]].
      + intros Hnil. by apply app_eq_nil in Hnil as [_ ?].
      + cbn [snd fst] in Hwrites. specialize (Hwrites eq_refl).
        rewrite app_nil_r. by destruct events.
    - by destruct (translate _ _ _ _ _ _). }
  split; [|split; [|split]].
  - intros Hfalse. apply Hnone. unfold request_text, py_or.
    by rewrite Hfalse.
  - intros s Hs Hblank. apply Hnone. unfold request_text, py_or.
    rewrite Hs. cbn [truthy py_str]. by destruct s.
  - split; [|exact Hnone]. intros Hnil.
    destruct (request_text py req) eqn:Htext; [done|].
    exfalso. by apply Hsome.
  - intros Hstream Htext. unfold handle_line.
    rewrite Hloads, Hsize, Hstream.
    destruct (request_text py req) as [|x text]; [done|].
    destruct cache as [[tok m] dev].
    destruct (translate _ _ _ _ _ _); eauto.
Qed.

End Requests.

(** X27. A batch size of zero ends the request with an exception, which the
    loop answers with one "Translation failed" line: the division by zero of
    the batch count in [translate], the zero step of the range in
    [translate_stream], where nothing was written before. *)
Theorem zero_batch_size_is_reported {F : Type} (py : python F) (h : host)
    (cache : loaded) (n : nat) (line : str) (req : list (str * json F)) :
  loads py line = Parsed (JDict req) ->
  request_batch_size py req = inl (Some 0%Z) ->
  request_units (request_text py req) <> [] ->
  handle_line py h cache n line
  = [TranslationFailed
       (if request_stream py req then "ValueError" else "ZeroDivisionError")].
Proof.
  intros Hloads Hsize Hunits. unfold handle_line. rewrite Hloads, Hsize.
  destruct (request_text py req) as [|x text] eqn:Htext; [done|].
  destruct cache as [[tok m] dev]. destruct (request_stream py req).
  - unfold translate_stream. fold (request_units (x :: text)).
    by destruct (request_units (x :: text)).
  - rewrite translate_units.
    by destruct (request_units (x :: text)).
Qed.

(** X28. [main] serves requests exactly when the model loads; otherwise it
    writes nothing to standard output and exits with status 1, whatever the
    requests. When the model loads, what is written is what the loop writes
    with the loaded tokenizer, model and device. *)
Theorem main_serves_iff_model_loads {F : Type} (lib : libraries) (d : disk)
    (py : python F) (h : host) (lines : list str) :
  (snd (main lib d py h lines) = None
   <-> validate_model_path d = ModelPath
       /\ (nllb_tokenizer lib <> None
           \/ auto_tokenizer_fast lib <> None
           \/ auto_tokenizer_slow lib <> None)
       /\ auto_model lib = true
       /\ moves_to lib (select_device lib) = true)
  /\ match fst (fst (load_model lib d None)) with
     | Some cache => main lib d py h lines = (serve py h cache 0 lines, None)
     | None => main lib d py h lines = ([], Some 1%Z)
     end.
Proof.
  destruct (load_model_result lib d) as [Hiff _]. rewrite <- Hiff.
  unfold main.
  destruct (load_model lib d None) as [[[cache|] cache'] steps]; cbn [fst snd];
    by repeat split.
Qed.

Lemma requests_are_served_in_order_witness :
  Forall (fun line : str => line <> []) [u "one" ++ [LF]; [LF]]
  /\ serve (reads_as (JDict [(u "text", JStr (u "Hello"))])) quiet_host
       cpu_cache 0 ([u "one" ++ [LF]; [LF]] ++ [u "two" ++ [LF]])
     = [Answer (Success (u "T:Hello")); Answer (Success (u "T:Hello"))].
Proof.
  assert (Forall (fun line : str => line <> []) [u "one" ++ [LF]; [LF]])
    as Hlines by (by repeat constructor).
  split; [exact Hlines|].
  refine (eq_trans
            (proj1 (requests_are_served_in_order
                      (reads_as (JDict [(u "text", JStr (u "Hello"))]))
                      quiet_host cpu_cache 0
                      [u "one" ++ [LF]; [LF]] [u "two" ++ [LF]] Hlines)) _).
  vm_compute. reflexivity.
Defined.

Lemma request_without_text_gets_no_reply_witness :
  loads (reads_as (JDict [(u "src_lang", JStr (u "eng_Latn"))])) (u "{}")
  = Parsed (JDict [(u "src_lang", JStr (u "eng_Latn"))])
  /\ request_batch_size
       (reads_as (JDict [(u "src_lang", JStr (u "eng_Latn"))]))
       [(u "src_lang", JStr (u "eng_Latn"))]
     = inl None
  /\ handle_line (reads_as (JDict [(u "src_lang", JStr (u "eng_Latn"))]))
       quiet_host cpu_cache 0 (u "{}")
     = [].
Proof.
  split; [reflexivity|]. split; [reflexivity|].
  exact (proj1 (request_without_text_gets_no_reply
                  (reads_as (JDict [(u "src_lang", JStr (u "eng_Latn"))]))
                  quiet_host cpu_cache 0 (u "{}")
                  [(u "src_lang", JStr (u "eng_Latn"))] None
                  eq_refl eq_refl) eq_refl).
Defined.

Lemma zero_batch_size_is_reported_witness :
  request_batch_size
    (reads_as (JDict [(u "text", JStr (u "Hello")); (u "batch_size", JInt 0)]))
    [(u "text", JStr (u "Hello")); (u "batch_size", JInt 0)]
  = inl (Some 0%Z)
  /\ handle_line
       (reads_as
          (JDict [(u "text", JStr (u "Hello")); (u "batch_size", JInt 0)]))
       quiet_host cpu_cache 0 (u "{}")
     = [TranslationFailed "ZeroDivisionError"].
Proof.
  split; [reflexivity|].
  refine (zero_batch_size_is_reported
            (reads_as
               (JDict [(u "text", JStr (u "Hello"));
                       (u "batch_size", JInt 0)]))
            quiet_host cpu_cache 0 (u "{}")
            [(u "text", JStr (u "Hello")); (u "batch_size", JInt 0)]
            eq_refl eq_refl _).
  vm_compute. discriminate.
Defined.

(** X29. An unknown target language is not an error: the request is translated
    with the token of "eng_Latn", as a request for English would be, and with
    the id 256068 when the vocabulary has no "eng_Latn" either; a known
    language gets its own token. *)
Theorem unknown_target_language_is_english (h : host) (tok : tokenizer)
    (m : model) (vocab : list (str * Z)) (src_lang tgt_lang : str) :
  (forall id, vocab_get tgt_lang vocab = Some id ->
              target_lang_id vocab tgt_lang = id)
  /\ (vocab_get tgt_lang vocab = None ->
      target_lang_id vocab tgt_lang = target_lang_id vocab (u "eng_Latn"))
  /\ (vocab_get tgt_lang vocab = None ->
      vocab_get (u "eng_Latn") vocab = None ->
      target_lang_id vocab tgt_lang = 256068%Z)
  /\ (vocab_get tgt_lang (get_vocab h tok) = None ->
      engine_for h tok m src_lang tgt_lang
      = engine_for h tok m src_lang (u "eng_Latn")).
Proof.
  assert (forall vocab,
            vocab_get tgt_lang vocab = None ->
            target_lang_id vocab tgt_lang
            = target_lang_id vocab (u "eng_Latn")) as Hfallback.
  { intros v Hnone. unfold target_lang_id. rewrite Hnone.
    by destruct (vocab_get (u "eng_Latn") v). }
  split; [|split; [|split]].
  - intros id Hid. unfold target_lang_id. by rewrite Hid.
  - apply Hfallback.
  - intros Hnone Heng. unfold target_lang_id. by rewrite Hnone, Heng.
  - intros Hnone. unfold engine_for. by rewrite Hfallback.
Qed.
